(** * Entity sync and frame loop of the Agario client

    A shallow embedding of [client/src/App.tsx] (the snapshot stores fed by
    the table callbacks) and [client/src/Game.tsx] (mesh reconciliation,
    keyboard sampling, the game loop), with the properties of the
    repository's specification stated over it.

    Conventions of the embedding:
    - a JavaScript [number] is NaN or a finite double, given by its exact
      rational value; [+], [-], [*] and [/] round their exact result to the
      nearest double, ties to even ([fl]); an operation on NaN gives NaN,
      every comparison with NaN is false and [NaN === NaN] is false.
      Infinity (overflow, division by zero) and the sign of zero are outside
      the model.
    - [Date.now()] is an integer number of milliseconds ([Z]).
    - a JavaScript [Map] is an association list with unique keys kept in
      insertion order, which is the order [entries()] iterates in.
    - the calls into Three.js that create, dispose, add, remove, move or
      recolour an object are recorded in a chronological trace;
      [renderer.render] is recorded by what it last drew. *)

From Stdlib Require Import List String Ascii ZArith QArith Qminmax Bool Lia Lqa.
From Stdlib Require Import Qround Qpower Qreduction Permutation Sorted.
Import ListNotations.

(* ================================================================= *)
(** ** Keys and insertion-ordered maps *)

Class Key (K : Type) := {
  key_eqb : K -> K -> bool;
  key_eqb_spec : forall a b : K, reflect (a = b) (key_eqb a b)
}.

#[export] Instance string_Key : Key string :=
  {| key_eqb := String.eqb; key_eqb_spec := String.eqb_spec |}.

#[export] Instance Z_Key : Key Z :=
  {| key_eqb := Z.eqb; key_eqb_spec := Z.eqb_spec |}.

Module JsMap.
Section Def.
Context {K V : Type} `{Key K}.

Definition t : Type := list (K * V).

Definition empty : t := [].

Fixpoint get (k : K) (m : t) : option V :=
  match m with
  | [] => None
  | (k', v) :: m' => if key_eqb k k' then Some v else get k m'
  end.

Definition has (k : K) (m : t) : bool :=
  match get k m with Some _ => true | None => false end.

(** [m.set(k, v)]: an existing key keeps its place, a new key goes last. *)
Fixpoint set (k : K) (v : V) (m : t) : t :=
  match m with
  | [] => [(k, v)]
  | (k', v') :: m' =>
      if key_eqb k k' then (k, v) :: m' else (k', v') :: set k v m'
  end.

Definition delete (k : K) (m : t) : t :=
  filter (fun e => negb (key_eqb k (fst e))) m.

Definition keys (m : t) : list K := map fst m.

Definition entries (m : t) : list (K * V) := m.

Definition size (m : t) : nat := List.length m.

(** Keys of a [Map] are pairwise distinct. *)
Definition wf (m : t) : Prop := NoDup (keys m).

End Def.
Arguments t : clear implicits.
End JsMap.

(* ================================================================= *)
(** ** JavaScript numbers *)

(** [floor (log2 q)] of a positive rational. *)
Definition ilog2 (q : Q) : Z :=
  let e0 := (Z.log2 (Qnum q) - Z.log2 (Zpos (Qden q)))%Z in
  if Qle_bool (2 ^ e0) q then e0 else (e0 - 1)%Z.

(** The nearest integer to a rational that is not negative, ties to even. *)
Definition roundEven (q : Q) : Z :=
  let n := Qfloor q in
  match Qcompare (q - inject_Z n) (1 # 2) with
  | Lt => n
  | Gt => (n + 1)%Z
  | Eq => if Z.even n then n else (n + 1)%Z
  end.

(** The exponent of the unit in the last place of a double near [q]: 53
    bits of mantissa, and no exponent below that of the subnormals. *)
Definition ulpExp (q : Q) : Z := Z.max (ilog2 q - 52) (-1074).

Definition flPos (q : Q) : Q :=
  inject_Z (roundEven (q / 2 ^ ulpExp q)) * 2 ^ ulpExp q.

(** The double nearest to [q], ties to even, as a reduced fraction. *)
Definition fl (q : Q) : Q :=
  match Qcompare q 0 with
  | Eq => 0
  | Gt => Qred (flPos (Qred q))
  | Lt => Qred (- flPos (Qred (- q)))
  end.

Arguments fl q : simpl never.

(** The least positive double. *)
Definition minDouble : Q := 2 ^ (-1074).

Inductive number : Type :=
| NaN
| Num (q : Q).

Coercion Num : Q >-> number.

Definition arith (op : Q -> Q -> Q) (a b : number) : number :=
  match a, b with
  | Num x, Num y => Num (fl (op x y))
  | _, _ => NaN
  end.

Definition add : number -> number -> number := arith Qplus.
Definition sub : number -> number -> number := arith Qminus.
Definition mul : number -> number -> number := arith Qmult.

(** The source divides by the literals 2, 255 and 1000 only; a zero
    divisor, which gives an infinity or NaN in JavaScript, gives NaN here. *)
Definition div (a b : number) : number :=
  match a, b with
  | Num x, Num y => if Qeq_bool y 0 then NaN else Num (fl (x / y))
  | _, _ => NaN
  end.

Definition opp (a : number) : number :=
  match a with
  | Num x => Num (- x)
  | NaN => NaN
  end.

Definition Math_max (a b : number) : number :=
  match a, b with
  | Num x, Num y => Num (Qmax x y)
  | _, _ => NaN
  end.

Definition Math_min (a b : number) : number :=
  match a, b with
  | Num x, Num y => Num (Qmin x y)
  | _, _ => NaN
  end.

(** [a === b] *)
Definition strictEq (a b : number) : bool :=
  match a, b with
  | Num x, Num y => Qeq_bool x y
  | _, _ => false
  end.

(** [a <= b] *)
Definition leb (a b : number) : bool :=
  match a, b with
  | Num x, Num y => Qle_bool x y
  | _, _ => false
  end.

Definition Number_isNaN (a : number) : bool :=
  match a with
  | NaN => true
  | Num _ => false
  end.

(** The relations the statements are written with: the order of numbers,
    which NaN is not in, and being the same value. *)
Definition numLe (a b : number) : Prop :=
  match a, b with
  | Num x, Num y => x <= y
  | _, _ => False
  end.

Definition numLt (a b : number) : Prop :=
  match a, b with
  | Num x, Num y => x < y
  | _, _ => False
  end.

Definition numEq (a b : number) : Prop :=
  match a, b with
  | Num x, Num y => x == y
  | NaN, NaN => True
  | _, _ => False
  end.

(** A number that is a double and not NaN. *)
Definition isDouble (a : number) : Prop :=
  match a with
  | Num x => fl x == x
  | NaN => False
  end.

Declare Scope number_scope.
Delimit Scope number_scope with num.
Bind Scope number_scope with number.
Infix "+" := add : number_scope.
Infix "-" := sub : number_scope.
Infix "*" := mul : number_scope.
Infix "/" := div : number_scope.
Notation "- x" := (opp x) : number_scope.
Infix "==" := numEq (at level 70, no associativity) : number_scope.
Infix "<=" := numLe : number_scope.
Infix "<" := numLt : number_scope.
Notation "x <= y <= z" := (numLe x y /\ numLe y z) : number_scope.
Open Scope number_scope.

(* ================================================================= *)
(** ** Rows of the replicated tables *)

Module Position.
Record t : Type := mk { x : number; y : number }.
End Position.

Module Color.
Record t : Type := mk { r : number; g : number; b : number }.
End Color.

Module Player.
Record t : Type := mk {
  identity : string;          (* identity.toHexString() *)
  position : Position.t;
  radius : number;
  color : Color.t;
  score : Z;
  online : bool
}.
End Player.

Module Food.
Record t : Type := mk {
  id : Z;
  position : Position.t;
  color : Color.t
}.
End Food.

(* ================================================================= *)
(** ** The snapshot stores of App.tsx *)

(** State updaters registered by [usePlayer]; [prev] is the React state. *)
Module usePlayer.

Definition onInsert (player : Player.t) (prev : JsMap.t string Player.t)
  : JsMap.t string Player.t :=
  JsMap.set (Player.identity player) player prev.

Definition onUpdate (oldPlayer player : Player.t)
  (prev : JsMap.t string Player.t) : JsMap.t string Player.t :=
  JsMap.set (Player.identity player) player
    (JsMap.delete (Player.identity oldPlayer) prev).

Definition onDelete (player : Player.t) (prev : JsMap.t string Player.t)
  : JsMap.t string Player.t :=
  JsMap.delete (Player.identity player) prev.

End usePlayer.

(** [prev.findIndex(pred)], with [None] for -1. *)
Fixpoint findIndex {A} (pred : A -> bool) (l : list A) : option nat :=
  match l with
  | [] => None
  | a :: l' =>
      if pred a then Some O
      else match findIndex pred l' with
           | Some i => Some (S i)
           | None => None
           end
  end.

(** [updated[index] = v] on a copy, for an index inside the array. *)
Fixpoint assign {A} (index : nat) (v : A) (l : list A) : list A :=
  match l, index with
  | [], _ => []
  | _ :: l', O => v :: l'
  | a :: l', S i => a :: assign i v l'
  end.

(** State updaters registered by [useFood]; the state is an array. *)
Module useFood.

Definition onInsert (foodItem : Food.t) (prev : list Food.t) : list Food.t :=
  prev ++ [foodItem].

Definition onUpdate (oldFood foodItem : Food.t) (prev : list Food.t)
  : list Food.t :=
  match findIndex (fun f => Z.eqb (Food.id f) (Food.id oldFood)) prev with
  | Some index => assign index foodItem prev
  | None => prev
  end.

Definition onDelete (foodItem : Food.t) (prev : list Food.t) : list Food.t :=
  filter (fun f => negb (Z.eqb (Food.id f) (Food.id foodItem))) prev.

End useFood.

(** Notifications of one table, and the store they produce from empty. *)
Inductive Notification (Row : Type) : Type :=
| Insert (row : Row)
| Update (oldRow row : Row)
| Delete (row : Row).
Arguments Insert {Row}.
Arguments Update {Row}.
Arguments Delete {Row}.

Definition notifyPlayer (prev : JsMap.t string Player.t)
  (n : Notification Player.t) : JsMap.t string Player.t :=
  match n with
  | Insert p => usePlayer.onInsert p prev
  | Update o p => usePlayer.onUpdate o p prev
  | Delete p => usePlayer.onDelete p prev
  end.

Definition notifyFood (prev : list Food.t) (n : Notification Food.t)
  : list Food.t :=
  match n with
  | Insert f => useFood.onInsert f prev
  | Update o f => useFood.onUpdate o f prev
  | Delete f => useFood.onDelete f prev
  end.

Definition playersAfter (ns : list (Notification Player.t))
  : JsMap.t string Player.t :=
  fold_left notifyPlayer ns JsMap.empty.

Definition foodAfter (ns : list (Notification Food.t)) : list Food.t :=
  fold_left notifyFood ns [].

Definition foodIds (food : list Food.t) : list Z := map Food.id food.

(* ================================================================= *)
(** ** Three.js objects and the trace of calls into the library *)

Inductive Shape : Type :=
| BufferGeometry
| CircleGeometry (radius : number) (segments : Z)
| RingGeometry (innerRadius outerRadius : number) (thetaSegments : Z).

Record Geometry : Type := { geometry_id : nat; geometry_shape : Shape }.

(** [MeshBasicMaterial] / [LineBasicMaterial] with the red, green and blue
    its colour was given. *)
Record Material : Type := {
  material_id : nat;
  material_color : number * number * number
}.

(** A child object of a player mesh: the outline ring. *)
Record Child : Type := {
  child_name : string;
  child_geometry : Geometry;
  child_material : Material
}.

Module Mesh.
Record t : Type := mk {
  id : nat;
  geometry : Geometry;
  material : Material;
  position : number * number * number;
  children : list Child;
  currentRadius : option number;      (* (mesh as any).currentRadius *)
  currentColor : option Color.t       (* (mesh as any).currentColor *)
}.

Definition setGeometry (g : Geometry) (m : t) : t :=
  mk (id m) g (material m) (position m) (children m)
     (currentRadius m) (currentColor m).

Definition setMaterialColor (c : number * number * number) (m : t) : t :=
  mk (id m) (geometry m)
     {| material_id := material_id (material m); material_color := c |}
     (position m) (children m) (currentRadius m) (currentColor m).

Definition setPosition (p : number * number * number) (m : t) : t :=
  mk (id m) (geometry m) (material m) p (children m)
     (currentRadius m) (currentColor m).

Definition setChildren (cs : list Child) (m : t) : t :=
  mk (id m) (geometry m) (material m) (position m) cs
     (currentRadius m) (currentColor m).

Definition setCurrentRadius (r : number) (m : t) : t :=
  mk (id m) (geometry m) (material m) (position m) (children m)
     (Some r) (currentColor m).

Definition setCurrentColor (c : Color.t) (m : t) : t :=
  mk (id m) (geometry m) (material m) (position m) (children m)
     (currentRadius m) (Some c).
End Mesh.

(** The calls of the trace: constructors, [dispose], [scene.add] and
    [scene.remove], [color.setRGB] and [position.set]. *)
Inductive Call : Type :=
| NewGeometry (g : Geometry)
| NewMaterial (m : Material)
| GeometryDispose (geometry : nat)
| MaterialDispose (material : nat)
| SetRGB (material : nat) (rgb : number * number * number)
| SceneAdd (object : nat)
| SceneRemove (object : nat)
| PositionSet (object : nat) (p : number * number * number).

(** A geometry or material constructor call. *)
Definition isAllocation (c : Call) : bool :=
  match c with
  | NewGeometry _ | NewMaterial _ => true
  | _ => false
  end.

Definition isDisposal (c : Call) : bool :=
  match c with
  | GeometryDispose _ | MaterialDispose _ => true
  | _ => false
  end.

(** A call that only moves an object. *)
Definition isPositionSet (c : Call) : bool :=
  match c with
  | PositionSet _ _ => true
  | _ => false
  end.

Definition isGeometryCall (c : Call) : bool :=
  match c with
  | NewGeometry _ | GeometryDispose _ => true
  | _ => false
  end.

Definition isNewGeometry (c : Call) : bool :=
  match c with
  | NewGeometry _ => true
  | _ => false
  end.

Definition isNewMaterial (c : Call) : bool :=
  match c with
  | NewMaterial _ => true
  | _ => false
  end.

Definition isSetRGB (c : Call) : bool :=
  match c with
  | SetRGB _ _ => true
  | _ => false
  end.

Definition isSceneRemove (c : Call) : bool :=
  match c with
  | SceneRemove _ => true
  | _ => false
  end.

(* ================================================================= *)
(** ** The refs of the Game component *)

Record World : Type := mkWorld {
  sceneRef : option (list nat);       (* objects in the scene, by id *)
  cameraRef : option (number * number);   (* camera.position.x, .y *)
  playerMeshesRef : JsMap.t string Mesh.t;
  foodMeshesRef : JsMap.t Z Mesh.t;
  keysRef : list string;              (* Set<string>, insertion order *)
  lastUpdateRef : Z;
  myPlayerRef : option Player.t;
  nextId : nat;                       (* source of fresh object ids *)
  calls : list Call;                  (* oldest first *)
  sent : list Position.t;             (* conn.reducers.playerMoved, oldest first *)
  screen : option (list nat * (number * number))
                                      (* what renderer.render last drew *)
}.

Definition setScene (s : option (list nat)) (w : World) : World :=
  mkWorld s (cameraRef w) (playerMeshesRef w) (foodMeshesRef w) (keysRef w)
    (lastUpdateRef w) (myPlayerRef w) (nextId w) (calls w) (sent w) (screen w).

Definition setCamera (c : option (number * number)) (w : World) : World :=
  mkWorld (sceneRef w) c (playerMeshesRef w) (foodMeshesRef w) (keysRef w)
    (lastUpdateRef w) (myPlayerRef w) (nextId w) (calls w) (sent w) (screen w).

Definition setPlayerMeshes (m : JsMap.t string Mesh.t) (w : World) : World :=
  mkWorld (sceneRef w) (cameraRef w) m (foodMeshesRef w) (keysRef w)
    (lastUpdateRef w) (myPlayerRef w) (nextId w) (calls w) (sent w) (screen w).

Definition setFoodMeshes (m : JsMap.t Z Mesh.t) (w : World) : World :=
  mkWorld (sceneRef w) (cameraRef w) (playerMeshesRef w) m (keysRef w)
    (lastUpdateRef w) (myPlayerRef w) (nextId w) (calls w) (sent w) (screen w).

Definition setKeys (k : list string) (w : World) : World :=
  mkWorld (sceneRef w) (cameraRef w) (playerMeshesRef w) (foodMeshesRef w) k
    (lastUpdateRef w) (myPlayerRef w) (nextId w) (calls w) (sent w) (screen w).

Definition setLastUpdate (now : Z) (w : World) : World :=
  mkWorld (sceneRef w) (cameraRef w) (playerMeshesRef w) (foodMeshesRef w)
    (keysRef w) now (myPlayerRef w) (nextId w) (calls w) (sent w) (screen w).

Definition setMyPlayer (p : option Player.t) (w : World) : World :=
  mkWorld (sceneRef w) (cameraRef w) (playerMeshesRef w) (foodMeshesRef w)
    (keysRef w) (lastUpdateRef w) p (nextId w) (calls w) (sent w) (screen w).

(** Hands out [nextId w] and moves the counter on. *)
Definition bump (w : World) : World :=
  mkWorld (sceneRef w) (cameraRef w) (playerMeshesRef w) (foodMeshesRef w)
    (keysRef w) (lastUpdateRef w) (myPlayerRef w) (S (nextId w)) (calls w)
    (sent w) (screen w).

Definition emit (c : Call) (w : World) : World :=
  mkWorld (sceneRef w) (cameraRef w) (playerMeshesRef w) (foodMeshesRef w)
    (keysRef w) (lastUpdateRef w) (myPlayerRef w) (nextId w) (calls w ++ [c])
    (sent w) (screen w).

(** [conn.reducers.playerMoved(newPosition)] *)
Definition playerMoved (p : Position.t) (w : World) : World :=
  mkWorld (sceneRef w) (cameraRef w) (playerMeshesRef w) (foodMeshesRef w)
    (keysRef w) (lastUpdateRef w) (myPlayerRef w) (nextId w) (calls w)
    (sent w ++ [p]) (screen w).

(** [renderer.render(scene, camera)]: the children of the scene, seen from
    where the camera is. *)
Definition setScreen (f : option (list nat * (number * number))) (w : World)
  : World :=
  mkWorld (sceneRef w) (cameraRef w) (playerMeshesRef w) (foodMeshesRef w)
    (keysRef w) (lastUpdateRef w) (myPlayerRef w) (nextId w) (calls w) (sent w)
    f.

Definition newGeometry (s : Shape) (w : World) : Geometry * World :=
  let g := {| geometry_id := nextId w; geometry_shape := s |} in
  (g, emit (NewGeometry g) (bump w)).

Definition newMaterial (c : number * number * number) (w : World)
  : Material * World :=
  let m := {| material_id := nextId w; material_color := c |} in
  (m, emit (NewMaterial m) (bump w)).

Definition geometryDispose (g : Geometry) (w : World) : World :=
  emit (GeometryDispose (geometry_id g)) w.

Definition materialDispose (m : Material) (w : World) : World :=
  emit (MaterialDispose (material_id m)) w.

Definition sceneAdd (mesh : Mesh.t) (w : World) : World :=
  emit (SceneAdd (Mesh.id mesh))
    (setScene (option_map (fun s => s ++ [Mesh.id mesh]) (sceneRef w)) w).

Definition sceneRemove (mesh : Mesh.t) (w : World) : World :=
  emit (SceneRemove (Mesh.id mesh))
    (setScene
       (option_map (filter (fun o => negb (Nat.eqb o (Mesh.id mesh))))
          (sceneRef w)) w).

(* ================================================================= *)
(** ** Game.tsx: constants *)

Definition WORLD_SIZE : Q := 1000.
Definition CAMERA_SIZE : Q := 400.
Definition FOOD_RADIUS : Q := 5.
Definition MOVE_SPEED : Q := 200.

(** [new THREE.Color(c.r / 255, c.g / 255, c.b / 255)] *)
Definition rgb (c : Color.t) : number * number * number :=
  (Color.r c / 255, Color.g c / 255, Color.b c / 255).

(** The colours given as hexadecimal literals, by their components. *)
Definition white : number * number * number :=
  (Num 1, Num 1, Num 1).                               (* 0xffffff *)
Definition gridGrey : number * number * number :=
  (51 / 255, 51 / 255, 51 / 255).                      (* 0x333333 *)

(** Scene initialisation effect: scene, camera, and the background grid. *)
Definition initScene (w : World) : World :=
  let w := setScene (Some []) w in
  let w := setCamera (Some (Num 0, Num 0)) w in
  let (gridGeometry, w) := newGeometry BufferGeometry w in
  let (gridMaterial, w) := newMaterial gridGrey w in
  let grid := nextId w in
  let w := bump w in
  emit (SceneAdd grid) (setScene (option_map (fun s => s ++ [grid]) (sceneRef w)) w).

(** The refs at the first render; [now] is [Date.now()] at that time. *)
Definition initialWorld (now : Z) : World :=
  mkWorld None None JsMap.empty JsMap.empty [] now None O [] [] None.

(* ================================================================= *)
(** ** Game.tsx: player meshes effect *)

(** Body of the loop "Remove old meshes for players that no longer exist". *)
Definition removeOldPlayerMesh (players : JsMap.t string Player.t)
  (w : World) (e : string * Mesh.t) : World :=
  let '(playerId, mesh) := e in
  if negb (JsMap.has playerId players) then
    let w := sceneRemove mesh w in
    setPlayerMeshes (JsMap.delete playerId (playerMeshesRef w)) w
  else w.

(** What [sort] makes of the result of its comparator: NaN counts as 0. *)
Definition sortCompare (v : number) : number :=
  match v with
  | NaN => Num 0
  | Num _ => v
  end.

(** [arr.sort(cmp)]: the stable sort, by insertion from the right. *)
Fixpoint sortInsert {A} (cmp : A -> A -> number) (a : A) (l : list A)
  : list A :=
  match l with
  | [] => [a]
  | b :: l' =>
      if leb (sortCompare (cmp a b)) 0 then a :: b :: l'
      else b :: sortInsert cmp a l'
  end.

Definition sort {A} (cmp : A -> A -> number) (l : list A) : list A :=
  fold_right (sortInsert cmp) [] l.

Definition byRadius (a b : string * Player.t) : number :=
  Player.radius (snd a) - Player.radius (snd b).

Definition sortedPlayers (players : JsMap.t string Player.t)
  : list (string * Player.t) :=
  sort byRadius
    (filter (fun e => Player.online (snd e)) (JsMap.entries players)).

Definition sameColor (a b : Color.t) : bool :=
  strictEq (Color.r a) (Color.r b) && strictEq (Color.g a) (Color.g b)
  && strictEq (Color.b a) (Color.b b).

(** Branch [if (!mesh)]: create the mesh, with an outline for the local
    player, add it to the scene and to the map. *)
Definition createPlayerMesh (me playerId : string) (player : Player.t)
  (w : World) : Mesh.t * World :=
  let (geometry, w) := newGeometry (CircleGeometry (Player.radius player) 32) w in
  let (material, w) := newMaterial (rgb (Player.color player)) w in
  let mesh :=
    Mesh.mk (nextId w) geometry material (Num 0, Num 0, Num 0) []
      (Some (Player.radius player)) (Some (Player.color player)) in
  let w := bump w in
  let (mesh, w) :=
    if String.eqb playerId me then
      let (outlineGeometry, w) :=
        newGeometry
          (RingGeometry (Player.radius player) (Player.radius player + 2) 32) w in
      let (outlineMaterial, w) := newMaterial white w in
      let outline :=
        {| child_name := "outline"; child_geometry := outlineGeometry;
           child_material := outlineMaterial |} in
      let w := bump w in
      (Mesh.setChildren (Mesh.children mesh ++ [outline]) mesh,
       setMyPlayer (Some player) w)
    else (mesh, w) in
  let w := sceneAdd mesh w in
  (mesh, setPlayerMeshes (JsMap.set playerId mesh (playerMeshesRef w)) w).

(** [mesh.children.find(child => child.name === "outline")], then dispose
    and replace the geometry of the child found. *)
Fixpoint rebuildOutline (radius : number) (cs : list Child) (w : World)
  : list Child * World :=
  match cs with
  | [] => ([], w)
  | c :: cs' =>
      if String.eqb (child_name c) "outline" then
        let w := geometryDispose (child_geometry c) w in
        let (g, w) := newGeometry (RingGeometry radius (radius + 2) 32) w in
        ({| child_name := child_name c; child_geometry := g;
            child_material := child_material c |} :: cs', w)
      else
        let (cs'', w) := rebuildOutline radius cs' w in
        (c :: cs'', w)
  end.

(** Branch [if (needsRadiusUpdate)]. *)
Definition rebuildGeometry (me playerId : string) (player : Player.t)
  (mesh : Mesh.t) (w : World) : Mesh.t * World :=
  let w := geometryDispose (Mesh.geometry mesh) w in
  let (g, w) := newGeometry (CircleGeometry (Player.radius player) 32) w in
  let mesh := Mesh.setGeometry g mesh in
  if String.eqb playerId me then
    let (cs, w) := rebuildOutline (Player.radius player) (Mesh.children mesh) w in
    (Mesh.setChildren cs mesh, w)
  else (mesh, w).

Definition radiusChanged (mesh : Mesh.t) (player : Player.t) : bool :=
  match Mesh.currentRadius mesh with
  | Some r => negb (strictEq r (Player.radius player))
  | None => true
  end.

Definition colorChanged (mesh : Mesh.t) (player : Player.t) : bool :=
  match Mesh.currentColor mesh with
  | Some prevColor => negb (sameColor prevColor (Player.color player))
  | None => true
  end.

(** Branch [else] together with the two conditional updates after it. *)
Definition updatePlayerMesh (me playerId : string) (player : Player.t)
  (mesh : Mesh.t) (w : World) : Mesh.t * World :=
  let needsRadiusUpdate := radiusChanged mesh player in
  let mesh :=
    if needsRadiusUpdate then Mesh.setCurrentRadius (Player.radius player) mesh
    else mesh in
  let needsColorUpdate := colorChanged mesh player in
  let mesh :=
    if needsColorUpdate then Mesh.setCurrentColor (Player.color player) mesh
    else mesh in
  let (mesh, w) :=
    if needsRadiusUpdate then rebuildGeometry me playerId player mesh w
    else (mesh, w) in
  if needsColorUpdate then
    (Mesh.setMaterialColor (rgb (Player.color player)) mesh,
     emit (SetRGB (material_id (Mesh.material mesh)) (rgb (Player.color player))) w)
  else (mesh, w).

(** Body of the loop over [sortedPlayers]. *)
Definition upsertPlayer (me : string) (w : World) (e : string * Player.t)
  : World :=
  let '(playerId, player) := e in
  if negb (Player.online player) then w
  else
    let (mesh, w) :=
      match JsMap.get playerId (playerMeshesRef w) with
      | None => createPlayerMesh me playerId player w
      | Some mesh => updatePlayerMesh me playerId player mesh w
      end in
    let p := (Position.x (Player.position player),
              Position.y (Player.position player), Num 0) in
    emit (PositionSet (Mesh.id mesh) p)
      (setPlayerMeshes
         (JsMap.set playerId (Mesh.setPosition p mesh) (playerMeshesRef w)) w).

(** The effect with dependencies [[players, identity]]. *)
Definition playersEffect (me : string) (players : JsMap.t string Player.t)
  (w : World) : World :=
  match sceneRef w with
  | None => w
  | Some _ =>
      let w :=
        fold_left (removeOldPlayerMesh players)
          (JsMap.entries (playerMeshesRef w)) w in
      fold_left (upsertPlayer me) (sortedPlayers players) w
  end.

(* ================================================================= *)
(** ** Game.tsx: food meshes effect *)

(** Body of the loop "Remove old meshes for food that no longer exists";
    [currentFoodIds] is the set of ids of the array. *)
Definition removeOldFoodMesh (currentFoodIds : list Z) (w : World)
  (e : Z * Mesh.t) : World :=
  let '(foodId, mesh) := e in
  if negb (existsb (Z.eqb foodId) currentFoodIds) then
    let w := sceneRemove mesh w in
    let w := geometryDispose (Mesh.geometry mesh) w in
    let w := materialDispose (Mesh.material mesh) w in
    setFoodMeshes (JsMap.delete foodId (foodMeshesRef w)) w
  else w.

Definition createFoodMesh (foodItem : Food.t) (w : World) : Mesh.t * World :=
  let (geometry, w) := newGeometry (CircleGeometry FOOD_RADIUS 16) w in
  let (material, w) := newMaterial (rgb (Food.color foodItem)) w in
  let mesh :=
    Mesh.mk (nextId w) geometry material (Num 0, Num 0, - (1 # 2)) [] None None in
  let w := bump w in
  let w := sceneAdd mesh w in
  (mesh, setFoodMeshes (JsMap.set (Food.id foodItem) mesh (foodMeshesRef w)) w).

(** Body of the loop over [food]. *)
Definition upsertFood (w : World) (foodItem : Food.t) : World :=
  let (mesh, w) :=
    match JsMap.get (Food.id foodItem) (foodMeshesRef w) with
    | None => createFoodMesh foodItem w
    | Some mesh => (mesh, w)
    end in
  let p := (Position.x (Food.position foodItem),
            Position.y (Food.position foodItem), - (1 # 2)) in
  emit (PositionSet (Mesh.id mesh) p)
    (setFoodMeshes
       (JsMap.set (Food.id foodItem) (Mesh.setPosition p mesh) (foodMeshesRef w))
       w).

(** The effect with dependencies [[food]]; an array is always truthy, so
    only a missing scene returns early. *)
Definition foodEffect (food : list Food.t) (w : World) : World :=
  match sceneRef w with
  | None => w
  | Some _ =>
      let w :=
        fold_left (removeOldFoodMesh (foodIds food))
          (JsMap.entries (foodMeshesRef w)) w in
      fold_left upsertFood food w
  end.

(* ================================================================= *)
(** ** Game.tsx: keyboard handlers *)

Definition lowerAscii (c : ascii) : ascii :=
  let n := nat_of_ascii c in
  if (Nat.leb 65 n && Nat.leb n 90)%bool then ascii_of_nat (n + 32) else c.

(** [key.toLowerCase()] on ASCII key names. *)
Fixpoint toLowerCase (s : string) : string :=
  match s with
  | EmptyString => EmptyString
  | String c s' => String (lowerAscii c) (toLowerCase s')
  end.

Definition setHas (k : string) (s : list string) : bool :=
  existsb (String.eqb k) s.

Definition setAdd (k : string) (s : list string) : list string :=
  if setHas k s then s else s ++ [k].

Definition setDelete (k : string) (s : list string) : list string :=
  filter (fun k' => negb (String.eqb k k')) s.

Definition movementKeys : list string := ["w"; "a"; "s"; "d"]%string.

Definition handleKeyDown (eventKey : string) (w : World) : World :=
  let key := toLowerCase eventKey in
  if existsb (String.eqb key) movementKeys then
    setKeys (setAdd key (keysRef w)) w
  else w.

Definition handleKeyUp (eventKey : string) (w : World) : World :=
  let key := toLowerCase eventKey in
  setKeys (setDelete key (keysRef w)) w.

(* ================================================================= *)
(** ** Game.tsx: the game loop *)

(** [(now - lastUpdateRef.current) / 1000], in seconds. *)
Definition deltaTime (now last : Z) : number :=
  (Num (inject_Z now) - Num (inject_Z last)) / 1000.

Definition deltaY (keys : list string) (deltaTime : number) : number :=
  let deltaY := Num 0 in
  let deltaY :=
    if setHas "w" keys then deltaY + MOVE_SPEED * deltaTime else deltaY in
  let deltaY :=
    if setHas "s" keys then deltaY - MOVE_SPEED * deltaTime else deltaY in
  deltaY.

Definition deltaX (keys : list string) (deltaTime : number) : number :=
  let deltaX := Num 0 in
  let deltaX :=
    if setHas "a" keys then deltaX - MOVE_SPEED * deltaTime else deltaX in
  let deltaX :=
    if setHas "d" keys then deltaX + MOVE_SPEED * deltaTime else deltaX in
  deltaX.

(** [Math.max(-WORLD_SIZE / 2, Math.min(WORLD_SIZE / 2, v))] *)
Definition clampWorld (v : number) : number :=
  Math_max (- WORLD_SIZE / 2) (Math_min (WORLD_SIZE / 2) v).

(** [deltaX !== 0 || deltaY !== 0] *)
Definition moved (deltaX deltaY : number) : bool :=
  negb (strictEq deltaX 0) || negb (strictEq deltaY 0).

(** "Update player position based on input". *)
Definition movePlayer (me : string) (players : JsMap.t string Player.t)
  (deltaTime : number) (w : World) : World :=
  match myPlayerRef w with
  | None => w
  | Some _ =>
      if Nat.ltb 0 (List.length (keysRef w)) then
        let deltaX := deltaX (keysRef w) deltaTime in
        let deltaY := deltaY (keysRef w) deltaTime in
        if moved deltaX deltaY then
          match JsMap.get me players with
          | Some currentPlayer =>
              let newPosition :=
                {| Position.x :=
                     clampWorld
                       (Position.x (Player.position currentPlayer) + deltaX);
                   Position.y :=
                     clampWorld
                       (Position.y (Player.position currentPlayer) + deltaY) |} in
              playerMoved newPosition w
          | None => w
          end
        else w
      else w
  end.

(** The camera clamp of the loop, with the two sizes it reads taken as
    arguments; the loop calls it with [WORLD_SIZE] and [CAMERA_SIZE]. *)
Definition cameraTarget (worldSize cameraSize : Q) (p : number) : number :=
  let cameraHalf : number := cameraSize in
  let worldHalfSize : number := worldSize / 2 in
  let minCamera := - worldHalfSize + cameraHalf in
  let maxCamera := worldHalfSize - cameraHalf in
  Math_max minCamera (Math_min maxCamera p).

(** "Update camera to follow current player with bounds". *)
Definition followPlayer (me : string) (players : JsMap.t string Player.t)
  (w : World) : World :=
  match cameraRef w, myPlayerRef w with
  | Some _, Some _ =>
      match JsMap.get me players with
      | Some currentPlayer =>
          let targetX :=
            cameraTarget WORLD_SIZE CAMERA_SIZE
              (Position.x (Player.position currentPlayer)) in
          let targetY :=
            cameraTarget WORLD_SIZE CAMERA_SIZE
              (Position.y (Player.position currentPlayer)) in
          setMyPlayer (Some currentPlayer) (setCamera (Some (targetX, targetY)) w)
      | None => w
      end
  | _, _ => w
  end.

(** "Render the scene".  The renderer is created together with the scene
    and the camera, so it is there exactly when they are. *)
Definition renderScene (w : World) : World :=
  match sceneRef w, cameraRef w with
  | Some scene, Some camera => setScreen (Some (scene, camera)) w
  | _, _ => w
  end.

(** One run of [gameLoop] at wall-clock time [now]; [players] is the map
    the closure captured. *)
Definition gameLoop (me : string) (players : JsMap.t string Player.t)
  (now : Z) (w : World) : World :=
  let deltaTime := deltaTime now (lastUpdateRef w) in
  let w := setLastUpdate now w in
  let w := movePlayer me players deltaTime w in
  let w := followPlayer me players w in
  renderScene w.

(* ================================================================= *)
(** ** The component over time *)

Record App : Type := mkApp {
  players : JsMap.t string Player.t;
  food : list Food.t;
  world : World
}.

Inductive Event : Type :=
| PlayerEvent (n : Notification Player.t)   (* a callback of the player table *)
| FoodEvent (n : Notification Food.t)       (* a callback of the food table *)
| PlayersEffect                             (* React runs the players effect *)
| FoodEffect                                (* React runs the food effect *)
| KeyDown (key : string)
| KeyUp (key : string)
| Frame (now : Z).                          (* one run of gameLoop *)

(** One event.  The effects and the loop read the stores of the latest
    render: the closure of [gameLoop] is taken to be the current one. *)
Definition step (me : string) (a : App) (e : Event) : App :=
  match e with
  | PlayerEvent n => mkApp (notifyPlayer (players a) n) (food a) (world a)
  | FoodEvent n => mkApp (players a) (notifyFood (food a) n) (world a)
  | PlayersEffect =>
      mkApp (players a) (food a) (playersEffect me (players a) (world a))
  | FoodEffect => mkApp (players a) (food a) (foodEffect (food a) (world a))
  | KeyDown key => mkApp (players a) (food a) (handleKeyDown key (world a))
  | KeyUp key => mkApp (players a) (food a) (handleKeyUp key (world a))
  | Frame now =>
      mkApp (players a) (food a) (gameLoop me (players a) now (world a))
  end.

(** The component once mounted: empty stores, the scene initialised. *)
Definition initialApp (now : Z) : App :=
  mkApp JsMap.empty [] (initScene (initialWorld now)).

Definition run (me : string) (now : Z) (events : list Event) : App :=
  fold_left (step me) events (initialApp now).

(* ================================================================= *)
(** ** Vocabulary of the statements *)

(** The vector [mesh.position.set] is called with for a player. *)
Definition playerPoint (player : Player.t) : number * number * number :=
  (Position.x (Player.position player), Position.y (Player.position player),
   Num 0).

(** Object id of the mesh stored for a player, 0 when there is none. *)
Definition meshIdOf (playerId : string) (w : World) : nat :=
  match JsMap.get playerId (playerMeshesRef w) with
  | Some mesh => Mesh.id mesh
  | None => O
  end.

(** The order the sort of the players effect arranges entries in. *)
Definition radiusLe (a b : string * Player.t) : Prop :=
  Player.radius (snd a) <= Player.radius (snd b).

(** Every entry of the list is an online player. *)
Definition allOnline (l : list (string * Player.t)) : Prop :=
  Forall (fun e => Player.online (snd e) = true) l.

(** The calls of a run of the world that came after the calls of [w]. *)
Definition callsSince (w w' : World) : list Call :=
  skipn (List.length (calls w)) (calls w').

(* ================================================================= *)
(** ** Sample rows and runs *)

Definition black : Color.t := Color.mk 0 0 0.
Definition red : Color.t := Color.mk 255 0 0.

Definition alice : Player.t :=
  Player.mk "a11ce" (Position.mk 450 450) 10 red 0 true.

Definition aliceOffline : Player.t :=
  Player.mk "a11ce" (Position.mk 450 450) 10 red 0 false.

Definition aliceGrown : Player.t :=
  Player.mk "a11ce" (Position.mk 460 450) 12 black 4 true.

Definition bob : Player.t :=
  Player.mk "b0b" (Position.mk (-20) 30) 25 black 3 true.

Definition food7 : Food.t := Food.mk 7 (Position.mk 12 (-8)) red.

(** The local player is alice: her row is stored, her mesh exists, and
    "d" is held. *)
Definition alicePlayers : JsMap.t string Player.t :=
  players (run "a11ce" 0 [PlayerEvent (Insert alice); PlayersEffect; KeyDown "D"]).

Definition aliceWorld : World :=
  world (run "a11ce" 0 [PlayerEvent (Insert alice); PlayersEffect; KeyDown "D"]).

(** A remote player appears online, is drawn, then is reported offline. *)
Definition offlineRun : App :=
  run "b0b" 0
    [PlayerEvent (Insert alice); PlayersEffect;
     PlayerEvent (Update alice aliceOffline); PlayersEffect].

(** The local player appears, is drawn with its outline, then its row is
    deleted. *)
Definition playerDeleteRun : App :=
  run "a11ce" 0
    [PlayerEvent (Insert alice); PlayersEffect;
     PlayerEvent (Delete alice); PlayersEffect].

(** A food item appears, is drawn, then its row is deleted. *)
Definition foodDeleteRun : App :=
  run "a11ce" 0
    [FoodEvent (Insert food7); FoodEffect;
     FoodEvent (Delete food7); FoodEffect].

(** Three players in the store, inserted in the order bob, alice, carol. *)
Definition carol : Player.t :=
  Player.mk "ca401" (Position.mk 0 0) 10 black 0 true.

Definition threePlayers : JsMap.t string Player.t :=
  playersAfter [Insert bob; Insert alice; Insert carol].

(** The local player is in the store but offline, and "d" is held. *)
Definition offlineLocalEvents : list Event :=
  [PlayerEvent (Insert aliceOffline); PlayersEffect; KeyDown "d"].

(** The local player is online and drawn, and "d" is held. *)
Definition onlineLocalEvents : list Event :=
  [PlayerEvent (Insert alice); PlayersEffect; KeyDown "D"].

(** A notification keeps the primary key of the food table when an insert
    brings an id that is not stored and an update keeps the id of its row. *)
Definition keepsFoodKey (prev : list Food.t) (n : Notification Food.t) : bool :=
  match n with
  | Insert f => negb (existsb (Z.eqb (Food.id f)) (foodIds prev))
  | Update o f => Z.eqb (Food.id f) (Food.id o)
  | Delete _ => true
  end.

(** 1 when the key is held, else 0. *)
Definition held (k : string) (keys : list string) : Q :=
  if setHas k keys then 1%Q else 0%Q.

Definition inWorld (p : Position.t) : Prop :=
  - WORLD_SIZE / 2 <= Position.x p <= WORLD_SIZE / 2 /\
  - WORLD_SIZE / 2 <= Position.y p <= WORLD_SIZE / 2.

(* ================================================================= *)
(** ** App.tsx: what the component renders from the stores *)

(** [[...players.values()].filter(p => p.online)], the rows of the list of
    online players; its length is the count in the heading. *)
Definition onlinePlayers (players : JsMap.t string Player.t) : list Player.t :=
  filter Player.online (map snd (JsMap.entries players)).

(** [currentPlayer?.score ?? 0] *)
Definition scoreShown (me : string) (players : JsMap.t string Player.t) : Z :=
  match JsMap.get me players with
  | Some currentPlayer => Player.score currentPlayer
  | None => 0%Z
  end.

(* ================================================================= *)
(** ** Further vocabulary *)

(** The parts of the refs the game loop and the key handlers own. *)
Definition sameControl (w w' : World) : Prop :=
  keysRef w' = keysRef w /\ lastUpdateRef w' = lastUpdateRef w /\
  sent w' = sent w /\ cameraRef w' = cameraRef w /\ screen w' = screen w.

(** The parts of the refs the two mesh effects own. *)
Definition sameRender (w w' : World) : Prop :=
  sceneRef w' = sceneRef w /\ playerMeshesRef w' = playerMeshesRef w /\
  foodMeshesRef w' = foodMeshesRef w /\ nextId w' = nextId w /\
  calls w' = calls w.


(** Every row of the store sits under its own identity. *)
Definition keyedByIdentity (players : JsMap.t string Player.t) : Prop :=
  forall k p, In (k, p) (JsMap.entries players) -> Player.identity p = k.

(* ================================================================= *)
(** ** Ownership of Three.js objects *)

(** The places a mesh is owned from: an entry of one of the two maps. *)
Inductive Slot : Type :=
| PlayerSlot (playerId : string)
| FoodSlot (foodId : Z).

Definition slot (s : Slot) (w : World) : option Mesh.t :=
  match s with
  | PlayerSlot playerId => JsMap.get playerId (playerMeshesRef w)
  | FoodSlot foodId => JsMap.get foodId (foodMeshesRef w)
  end.

Definition childResources (c : Child) : list nat :=
  [geometry_id (child_geometry c); material_id (child_material c)].

(** The geometries and materials a mesh holds, its children's included. *)
Definition resources (m : Mesh.t) : list nat :=
  geometry_id (Mesh.geometry m) :: material_id (Mesh.material m)
  :: flat_map childResources (Mesh.children m).

Definition meshIds (m : Mesh.t) : list nat := Mesh.id m :: resources m.

Definition disposed (c : Call) : list nat :=
  match c with
  | GeometryDispose i | MaterialDispose i => [i]
  | _ => []
  end.

(** The geometries and materials [dispose()] was called on, in order. *)
Definition disposals (cs : list Call) : list nat := flat_map disposed cs.

(** The object id [initScene] gives the grid when it starts from
    [initialWorld]. *)
Definition backgroundGrid : nat := 2.

(** The refs are sound when the maps have unique keys, every owned object
    has an id of its own handed out after the grid's, the scene holds the
    grid and the owned meshes and nothing else, nothing owned was disposed,
    and nothing was disposed twice. *)
Record Sound (w : World) : Prop := mkSound {
  s_pwf : JsMap.wf (playerMeshesRef w);
  s_fwf : JsMap.wf (foodMeshesRef w);
  s_floor : (3 <= nextId w)%nat;
  s_ids : forall s m, slot s w = Some m ->
          NoDup (meshIds m) /\
          forall i, In i (meshIds m) -> (3 <= i < nextId w)%nat;
  s_apart : forall s1 s2 m1 m2 i,
            s1 <> s2 -> slot s1 w = Some m1 -> slot s2 w = Some m2 ->
            In i (meshIds m1) -> In i (meshIds m2) -> False;
  s_scene : exists sc,
            sceneRef w = Some sc /\ NoDup sc /\
            forall o, In o sc <->
                      o = backgroundGrid \/
                      exists s m, slot s w = Some m /\ Mesh.id m = o;
  s_disposed : forall i, In i (disposals (calls w)) -> (3 <= i < nextId w)%nat;
  s_live : forall s m i, slot s w = Some m -> In i (meshIds m) ->
           ~ In i (disposals (calls w));
  s_once : NoDup (disposals (calls w))
}.

(** A step from [w] to [w'] that works on the one slot [s]: the other slots
    are as before, the ids of the mesh now at [s] are new or were at [s]
    before, what was disposed was held at [s] before and is not held now,
    and the scene gained or lost the mesh of [s], or kept it. *)
Record Touches (s : Slot) (w w' : World) : Prop := mkTouches {
  t_pwf : JsMap.wf (playerMeshesRef w');
  t_fwf : JsMap.wf (foodMeshesRef w');
  t_other : forall s', s' <> s -> slot s' w' = slot s' w;
  t_next : (nextId w <= nextId w')%nat;
  t_mesh : forall m1, slot s w' = Some m1 ->
           NoDup (meshIds m1) /\
           forall i, In i (meshIds m1) ->
                     (nextId w <= i < nextId w')%nat \/
                     exists m0, slot s w = Some m0 /\ In i (meshIds m0);
  t_calls : exists ops,
            calls w' = calls w ++ ops /\ NoDup (disposals ops) /\
            forall i, In i (disposals ops) ->
                      (exists m0, slot s w = Some m0 /\ In i (meshIds m0)) /\
                      (forall m1, slot s w' = Some m1 -> ~ In i (meshIds m1));
  t_scene : forall sc, sceneRef w = Some sc ->
            exists sc',
              sceneRef w' = Some sc' /\
              ((sc' = sc /\
                forall o, (exists m0, slot s w = Some m0 /\ Mesh.id m0 = o) <->
                          (exists m1, slot s w' = Some m1 /\ Mesh.id m1 = o)) \/
               (slot s w = None /\
                exists m1, slot s w' = Some m1 /\ sc' = sc ++ [Mesh.id m1]) \/
               (exists m0,
                   slot s w = Some m0 /\ slot s w' = None /\
                   sc' = filter (fun o => negb (Nat.eqb o (Mesh.id m0))) sc))
}.

(** The outline ring of a player mesh whose cached radius is [r]. *)
Definition isOutline (r : number) (c : Child) : Prop :=
  child_name c = "outline"%string /\
  geometry_shape (child_geometry c) = RingGeometry r (r + 2) 32 /\
  material_color (child_material c) = white.

(** A player mesh shows what it caches: a circle of the cached radius, the
    cached colour, and an outline ring exactly when it is the local one. *)
Definition playerMeshOK (me k : string) (m : Mesh.t) : Prop :=
  exists r c,
    Mesh.currentRadius m = Some r /\ Mesh.currentColor m = Some c /\
    geometry_shape (Mesh.geometry m) = CircleGeometry r 32 /\
    material_color (Mesh.material m) = rgb c /\
    if String.eqb k me
    then exists o, Mesh.children m = [o] /\ isOutline r o
    else Mesh.children m = [].

Definition foodMeshOK (m : Mesh.t) : Prop :=
  geometry_shape (Mesh.geometry m) = CircleGeometry FOOD_RADIUS 16 /\
  Mesh.children m = [] /\ snd (Mesh.position m) = - (1 # 2).

Definition meshOK (me : string) (s : Slot) (m : Mesh.t) : Prop :=
  match s with
  | PlayerSlot k => playerMeshOK me k m
  | FoodSlot _ => foodMeshOK m
  end.

Definition Looks (me : string) (w : World) : Prop :=
  forall s m, slot s w = Some m -> meshOK me s m.

(* ================================================================= *)
(** ** Game.tsx: cleanup of the scene effect *)

Definition ownedMeshes (w : World) : list Mesh.t :=
  map snd (JsMap.entries (playerMeshesRef w))
  ++ map snd (JsMap.entries (foodMeshesRef w)).

(** The [THREE.Mesh] among the children of the scene that has object id
    [o].  The meshes of the scene are those of the two maps; the grid is a
    [LineSegments], not a [Mesh], and is in neither. *)
Definition meshOf (o : nat) (w : World) : option Mesh.t :=
  find (fun m => Nat.eqb (Mesh.id m) o) (ownedMeshes w).

(** The callback of [scene.traverse] on an outline, itself a [Mesh]. *)
Definition disposeChild (w : World) (c : Child) : World :=
  materialDispose (child_material c) (geometryDispose (child_geometry c) w).

(** [traverse] from one child of the scene: the callback on the object,
    then on its children. *)
Definition disposeObject (w : World) (o : nat) : World :=
  match meshOf o w with
  | Some m =>
      fold_left disposeChild (Mesh.children m)
        (materialDispose (Mesh.material m) (geometryDispose (Mesh.geometry m) w))
  | None => w
  end.

(** The function the scene effect returns: [scene.traverse] disposing the
    geometry and material of every [Mesh].  Its calls on the DOM and on the
    renderer touch nothing modelled here. *)
Definition sceneCleanup (w : World) : World :=
  match sceneRef w with
  | Some sc => fold_left disposeObject sc w
  | None => w
  end.

(* ================================================================= *)
(** ** Game.tsx: the points of the background grid *)

(** The loops run on exact rationals: with the sizes of the source (1000
    and 50) every value is an integer and no operation rounds. *)
Close Scope number_scope.

(** The loop [for (let i = lo; i <= hi; i += step)], collecting the values
    [i] takes; [fuel] bounds the number of rounds. *)
Fixpoint ticksFrom (fuel : nat) (i hi step : Q) : list Q :=
  match fuel with
  | O => []
  | Datatypes.S fuel' =>
      if Qle_bool i hi then i :: ticksFrom fuel' (i + step) hi step else []
  end.

(** The array [points] after the two loops of the scene effect, as triples:
    the vertical lines, then the horizontal ones. *)
Definition gridPoints (fuel : nat) (gridSize gridStep : Q) : list (Q * Q * Q) :=
  flat_map (fun i => [(i, - gridSize / 2, - (1)); (i, gridSize / 2, - (1))])
    (ticksFrom fuel (- gridSize / 2) (gridSize / 2) gridStep)
  ++
  flat_map (fun i => [(- gridSize / 2, i, - (1)); (gridSize / 2, i, - (1))])
    (ticksFrom fuel (- gridSize / 2) (gridSize / 2) gridStep).

(** The point lies in the square of side [gridSize] about the origin, one
    unit behind the players. *)
Definition onGridPlane (gridSize : Q) (pt : Q * Q * Q) : Prop :=
  - gridSize / 2 <= fst (fst pt) <= gridSize / 2 /\
  - gridSize / 2 <= snd (fst pt) <= gridSize / 2 /\
  snd pt = - (1).

Open Scope number_scope.

Definition isFrame (e : Event) : bool :=
  match e with
  | Frame _ => true
  | _ => false
  end.

(** The camera is where the clamp of the loop can put it. *)
Definition cameraInRange (w : World) : Prop :=
  exists x y, cameraRef w = Some (x, y) /\
              - (100) <= x <= 100 /\ - (100) <= y <= 100.

(** The rows a notification carries. *)
Definition rowsOf {Row} (n : Notification Row) : list Row :=
  match n with
  | Insert r => [r]
  | Update o r => [o; r]
  | Delete r => [r]
  end.

(* ================================================================= *)
(** ** Rows with NaN attributes, and the calls about one entry *)

(** The local player at a position whose x is NaN. *)
Definition aliceNowhere : Player.t :=
  Player.mk "a11ce" (Position.mk NaN 450) 10 red 0 true.

(** The local player is online and drawn at that position, and "d" is
    held. *)
Definition nowhereEvents : list Event :=
  [PlayerEvent (Insert aliceNowhere); PlayersEffect; KeyDown "d"].

(** Every entry of the list has a radius that is a double, so not NaN. *)
Definition radiiAreDoubles (l : list (string * Player.t)) : Prop :=
  Forall (fun e => isDouble (Player.radius (snd e))) l.

(** The two colours have the same components. *)
Definition sameComponents (a b : Color.t) : Prop :=
  Color.r a == Color.r b /\ Color.g a == Color.g b /\ Color.b a == Color.b b.

(** The mesh caches the radius, and the colour, of the row. *)
Definition radiusCached (mesh : Mesh.t) (player : Player.t) : Prop :=
  exists r, Mesh.currentRadius mesh = Some r /\ r == Player.radius player.

Definition colorCached (mesh : Mesh.t) (player : Player.t) : Prop :=
  exists c, Mesh.currentColor mesh = Some c /\
            sameComponents c (Player.color player).

(** No component of the colour is NaN. *)
Definition plainColor (c : Color.t) : Prop :=
  Number_isNaN (Color.r c) = false /\ Number_isNaN (Color.g c) = false /\
  Number_isNaN (Color.b c) = false.

(** No online player of the store has a radius that is NaN. *)
Definition radiiAreNumbers (players : JsMap.t string Player.t) : Prop :=
  forall k p, In (k, p) (JsMap.entries players) -> Player.online p = true ->
              Number_isNaN (Player.radius p) = false.

(** No online player of the store has a colour component that is NaN. *)
Definition coloursAreNumbers (players : JsMap.t string Player.t) : Prop :=
  forall k p, In (k, p) (JsMap.entries players) -> Player.online p = true ->
              plainColor (Player.color p).

(** A remote player whose radius is NaN, alone in the store. *)
Definition ghost : Player.t :=
  Player.mk "9057" (Position.mk 0 0) NaN black 0 true.

Definition ghostPlayers : JsMap.t string Player.t :=
  playersAfter [Insert ghost].

(** The coordinate is NaN or lies between the two bounds. *)
Definition withinOrNaN (lo hi : Q) (c : number) : Prop :=
  c = NaN \/ lo <= c <= hi.

(** The position is where the clamp of the loop can put it. *)
Definition clampedOrNaN (p : Position.t) : Prop :=
  withinOrNaN (- (500)) 500 (Position.x p) /\
  withinOrNaN (- (500)) 500 (Position.y p).

(** The camera is where the clamp of the loop can put it. *)
Definition cameraClampedOrNaN (w : World) : Prop :=
  exists x y, cameraRef w = Some (x, y) /\
              withinOrNaN (- (100)) 100 x /\ withinOrNaN (- (100)) 100 y.

(** Neither coordinate of the row's position is NaN. *)
Definition placed (row : Player.t) : Prop :=
  Number_isNaN (Position.x (Player.position row)) = false /\
  Number_isNaN (Position.y (Player.position row)) = false.

(** Every row a player notification among the events inserts or updates
    to is at a position whose coordinates are numbers. *)
Definition rowsArePlaced (events : list Event) : Prop :=
  forall n, In (PlayerEvent n) events ->
            match n with
            | Insert row => placed row
            | Update _ row => placed row
            | Delete _ => True
            end.

Definition isSceneAdd (c : Call) : bool :=
  match c with
  | SceneAdd _ => true
  | _ => false
  end.

(** The call is one the upsert pass makes for an entry whose mesh is [m]
    afterwards and was [old] when its turn came: it creates a geometry or a
    material that [m] holds, recolours the material of [m], adds [m] to the
    scene when there was no mesh, moves [m], or disposes a geometry that
    the old mesh held. *)
Definition callAbout (old : option Mesh.t) (m : Mesh.t) (c : Call) : Prop :=
  match c with
  | NewGeometry g => In (geometry_id g) (resources m)
  | NewMaterial mat => In (material_id mat) (resources m)
  | SetRGB mat _ => mat = material_id (Mesh.material m)
  | SceneAdd o => o = Mesh.id m /\ old = None
  | PositionSet o _ => o = Mesh.id m
  | GeometryDispose g => exists m0, old = Some m0 /\ In g (resources m0)
  | MaterialDispose _ => False
  | SceneRemove _ => False
  end.

(** The calls the upsert pass makes for the entry [e], between the world
    [w] before the effect and the world [w'] after it: calls about the mesh
    of [e], the last of them the [position.set] to the row's position and no
    other [position.set] among them, with the [scene.add] of the mesh among
    them when [e] had no mesh. *)
Definition entryBlock (w w' : World) (e : string * Player.t) (b : list Call)
  : Prop :=
  exists m ops,
    JsMap.get (fst e) (playerMeshesRef w') = Some m /\
    b = ops ++ [PositionSet (Mesh.id m) (playerPoint (snd e))] /\
    existsb isPositionSet ops = false /\
    Forall (callAbout (JsMap.get (fst e) (playerMeshesRef w)) m) b /\
    (JsMap.get (fst e) (playerMeshesRef w) = None ->
     In (SceneAdd (Mesh.id m)) ops).

(** The entries of the list that have no mesh in [w]. *)
Definition withoutMesh (w : World) (l : list (string * Player.t))
  : list (string * Player.t) :=
  filter (fun e => negb (JsMap.has (fst e) (playerMeshesRef w))) l.

(** Three players in the store, inserted in this order: radius 5, radius
    NaN, radius 3. *)
Definition quinn : Player.t :=
  Player.mk "b16" (Position.mk 0 0) 5 black 0 true.

Definition tiny : Player.t :=
  Player.mk "5ma11" (Position.mk 0 0) 3 black 0 true.

Definition nanPlayers : JsMap.t string Player.t :=
  playersAfter [Insert quinn; Insert ghost; Insert tiny].

(* ================================================================= *)
(** * Properties *)

(** ** Facts about keys and maps *)

Lemma key_eqb_refl {K} `{Key K} (k : K) : key_eqb k k = true.
Proof. destruct (key_eqb_spec k k); congruence. Qed.

Lemma key_eqb_neq {K} `{Key K} (a b : K) : a <> b -> key_eqb a b = false.
Proof. intro N. destruct (key_eqb_spec a b); congruence. Qed.

Module JsMapFacts.
Import JsMap.
Section Facts.
Context {K V : Type} `{Key K}.
Implicit Types (k : K) (v : V) (m : JsMap.t K V).

Lemma has_In k m : has k m = true <-> In k (keys m).
Proof.
  unfold has. induction m as [|[k' v] m IH]; simpl.
  - split; [discriminate | tauto].
  - destruct (key_eqb_spec k k') as [->|N].
    + split; auto.
    + rewrite IH. split; [auto | intros [E|I]; congruence].
Qed.

Lemma has_false k m : has k m = false <-> ~ In k (keys m).
Proof.
  rewrite <- has_In. destruct (has k m); split; congruence.
Qed.

Lemma get_In k v m : get k m = Some v -> In (k, v) m.
Proof.
  induction m as [|[k' v'] m IH]; simpl; [discriminate|].
  destruct (key_eqb_spec k k') as [->|N].
  - intros [= ->]. now left.
  - intro G. right. auto.
Qed.

Lemma In_get k v m : wf m -> In (k, v) m -> get k m = Some v.
Proof.
  unfold wf. induction m as [|[k' v'] m IH]; simpl; [tauto|].
  intros W [E|I].
  - injection E as -> ->. now rewrite key_eqb_refl.
  - inversion W as [|? ? N W']; subst.
    destruct (key_eqb_spec k k') as [->|_]; [|auto].
    exfalso. apply N. change k' with (fst (k', v)). now apply in_map.
Qed.

Lemma get_set_eq k v m : get k (set k v m) = Some v.
Proof.
  induction m as [|[k' v'] m IH]; simpl.
  - now rewrite key_eqb_refl.
  - destruct (key_eqb_spec k k') as [->|N]; simpl.
    + now rewrite key_eqb_refl.
    + now rewrite (key_eqb_neq _ _ N).
Qed.

Lemma get_set_neq k k' v m : k' <> k -> get k' (set k v m) = get k' m.
Proof.
  intro N. induction m as [|[k2 v2] m IH]; simpl.
  - now rewrite (key_eqb_neq _ _ N).
  - destruct (key_eqb_spec k k2) as [->|N2]; simpl.
    + now rewrite (key_eqb_neq _ _ N).
    + now rewrite IH.
Qed.

Lemma has_set k k' v m : has k' (set k v m) = (key_eqb k' k || has k' m)%bool.
Proof.
  unfold has. destruct (key_eqb_spec k' k) as [->|N].
  - now rewrite get_set_eq.
  - now rewrite get_set_neq.
Qed.

Lemma keys_set_absent k v m :
  ~ In k (keys m) -> set k v m = m ++ [(k, v)].
Proof.
  induction m as [|[k' v'] m IH]; simpl; [reflexivity|].
  intro N. destruct (key_eqb_spec k k') as [->|_].
  - exfalso. auto.
  - f_equal. apply IH. tauto.
Qed.

Lemma keys_set_present k v m : In k (keys m) -> keys (set k v m) = keys m.
Proof.
  induction m as [|[k' v'] m IH]; simpl; [tauto|].
  intros I. destruct (key_eqb_spec k k') as [->|N]; simpl.
  - reflexivity.
  - f_equal. apply IH. destruct I; congruence.
Qed.

Lemma In_keys_set k k' v m :
  In k' (keys (set k v m)) <-> k' = k \/ In k' (keys m).
Proof.
  rewrite <- !has_In, has_set, orb_true_iff.
  destruct (key_eqb_spec k' k); intuition congruence.
Qed.

Lemma wf_set k v m : wf m -> wf (set k v m).
Proof.
  unfold wf. intro W.
  destruct (in_dec (fun a b => reflect_dec _ _ (key_eqb_spec a b)) k (keys m))
    as [I|N].
  - now rewrite keys_set_present.
  - rewrite keys_set_absent by assumption. unfold keys.
    rewrite map_app. simpl. apply NoDup_rev in W.
    rewrite <- (rev_involutive (map fst m ++ [k])).
    apply NoDup_rev. rewrite rev_app_distr. simpl. constructor; [|assumption].
    now rewrite <- in_rev.
Qed.

Lemma In_delete k e m : In e (delete k m) <-> In e m /\ fst e <> k.
Proof.
  unfold delete. rewrite filter_In.
  destruct (key_eqb_spec k (fst e)); simpl; intuition congruence.
Qed.

Lemma In_keys_delete k k' m :
  In k' (keys (delete k m)) <-> In k' (keys m) /\ k' <> k.
Proof.
  unfold keys. rewrite !in_map_iff. split.
  - intros [e [E I]]. apply In_delete in I. destruct I as [I N]. subst k'.
    split; [exists e; auto | assumption].
  - intros [[e [E I]] N]. exists e. split; [assumption|].
    apply In_delete. subst k'. auto.
Qed.

Lemma delete_absent k m : ~ In k (keys m) -> delete k m = m.
Proof.
  induction m as [|[k' v'] m IH]; simpl; [reflexivity|].
  intro N. destruct (key_eqb_spec k k') as [->|_]; simpl.
  - exfalso. auto.
  - f_equal. apply IH. tauto.
Qed.

Lemma wf_delete k m : wf m -> wf (delete k m).
Proof.
  unfold wf. induction m as [|[k' v'] m IH]; simpl; [auto|].
  intro W. inversion W as [|? ? N W']; subst.
  destruct (key_eqb k k'); simpl; [auto|].
  constructor; [|auto].
  intro I. apply In_keys_delete in I. tauto.
Qed.

Lemma get_delete_eq k m : get k (delete k m) = None.
Proof.
  destruct (get k (delete k m)) eqn:G; [|reflexivity].
  apply get_In, In_delete in G. simpl in G. tauto.
Qed.

Lemma get_delete_neq k k' m : k' <> k -> get k' (delete k m) = get k' m.
Proof.
  intro N. induction m as [|[k2 v2] m IH]; simpl; [reflexivity|].
  destruct (key_eqb_spec k k2) as [->|N2]; simpl.
  - now rewrite (key_eqb_neq _ _ N).
  - now rewrite IH.
Qed.

Lemma has_delete k k' m :
  has k' (delete k m) = (negb (key_eqb k' k) && has k' m)%bool.
Proof.
  unfold has. destruct (key_eqb_spec k' k) as [->|N]; simpl.
  - now rewrite get_delete_eq.
  - now rewrite get_delete_neq.
Qed.

Lemma set_set k v v' m : set k v' (set k v m) = set k v' m.
Proof.
  induction m as [|[k2 v2] m IH]; simpl.
  - now rewrite key_eqb_refl.
  - destruct (key_eqb_spec k k2) as [->|N]; simpl.
    + now rewrite key_eqb_refl.
    + rewrite (key_eqb_neq _ _ N). now rewrite IH.
Qed.

Lemma keys_nil m : keys m = [] -> m = empty.
Proof. destruct m; [reflexivity | discriminate]. Qed.

Lemma wf_empty : wf (empty : JsMap.t K V).
Proof. constructor. Qed.

End Facts.
End JsMapFacts.
Import JsMapFacts.

(* ================================================================= *)
(** ** The snapshot stores *)

Lemma playersAfter_wf_from (ns : list (Notification Player.t))
  (prev : JsMap.t string Player.t) :
  JsMap.wf prev -> JsMap.wf (fold_left notifyPlayer ns prev).
Proof.
  revert prev. induction ns as [|n ns IH]; intros prev W; simpl; [assumption|].
  apply IH. destruct n; simpl.
  - now apply wf_set.
  - now apply wf_set, wf_delete.
  - now apply wf_delete.
Qed.

Lemma findIndex_none {A} (pred : A -> bool) (l : list A) :
  findIndex pred l = None <-> forall a, In a l -> pred a = false.
Proof.
  induction l as [|a l IH]; simpl.
  - split; [intros _ ? [] | reflexivity].
  - destruct (pred a) eqn:P.
    + split; [discriminate|]. intro F. rewrite (F a) in P; auto. discriminate.
    + destruct (findIndex pred l) eqn:E.
      * split; [discriminate|]. intro F.
        assert (Some n = None) by (apply IH; auto). discriminate.
      * split; [|reflexivity]. intros _ b [<-|I]; [assumption|].
        now apply (proj1 IH).
Qed.

Lemma findIndex_some {A} (pred : A -> bool) (l : list A) (i : nat) :
  findIndex pred l = Some i ->
  exists l1 a l2, l = l1 ++ a :: l2 /\ List.length l1 = i /\ pred a = true /\
                  (forall b, In b l1 -> pred b = false).
Proof.
  revert i. induction l as [|a l IH]; simpl; intros i E; [discriminate|].
  destruct (pred a) eqn:P.
  - injection E as <-. exists [], a, l. simpl. intuition.
  - destruct (findIndex pred l) as [j|] eqn:F; [|discriminate].
    injection E as <-.
    destruct (IH j eq_refl) as (l1 & c & l2 & -> & L & Pc & N).
    exists (a :: l1), c, l2. simpl. repeat split; auto.
    intros b [<-|I]; auto.
Qed.

Lemma assign_middle {A} (l1 l2 : list A) (a v : A) :
  assign (List.length l1) v (l1 ++ a :: l2) = l1 ++ v :: l2.
Proof. induction l1 as [|b l1 IH]; simpl; [reflexivity | now rewrite IH]. Qed.

Lemma foodUpdate_absent (oldFood foodItem : Food.t) (prev : list Food.t) :
  ~ In (Food.id oldFood) (foodIds prev) ->
  useFood.onUpdate oldFood foodItem prev = prev.
Proof.
  intro N. unfold useFood.onUpdate.
  replace (findIndex _ prev) with (@None nat); [reflexivity|].
  symmetry. apply findIndex_none. intros f I.
  destruct (Z.eqb_spec (Food.id f) (Food.id oldFood)) as [E|_]; [|reflexivity].
  exfalso. apply N. rewrite <- E. now apply in_map.
Qed.

Lemma foodUpdate_present (oldFood foodItem : Food.t) (prev : list Food.t) :
  In (Food.id oldFood) (foodIds prev) ->
  exists l1 g l2,
    prev = l1 ++ g :: l2 /\ Food.id g = Food.id oldFood /\
    ~ In (Food.id oldFood) (foodIds l1) /\
    useFood.onUpdate oldFood foodItem prev = l1 ++ foodItem :: l2.
Proof.
  intro I. unfold useFood.onUpdate.
  destruct (findIndex _ prev) as [i|] eqn:F.
  - destruct (findIndex_some _ _ _ F) as (l1 & g & l2 & -> & <- & P & N).
    exists l1, g, l2. repeat split.
    + now apply Z.eqb_eq.
    + unfold foodIds. rewrite in_map_iff. intros (f & E & If).
      specialize (N f If). apply Z.eqb_neq in N. auto.
    + apply assign_middle.
  - exfalso. unfold foodIds in I. apply in_map_iff in I.
    destruct I as (f & E & If).
    pose proof (proj1 (findIndex_none _ _) F f If) as P.
    apply Z.eqb_neq in P. auto.
Qed.

Lemma existsb_eqb_In (k : Z) (l : list Z) :
  existsb (Z.eqb k) l = true <-> In k l.
Proof.
  rewrite existsb_exists. split.
  - intros (z & I & E). apply Z.eqb_eq in E. now subst.
  - intro I. exists k. split; [assumption | apply Z.eqb_refl].
Qed.

Lemma foodDelete_ids (foodItem : Food.t) (prev : list Food.t) :
  NoDup (foodIds prev) -> NoDup (foodIds (useFood.onDelete foodItem prev)).
Proof.
  unfold foodIds, useFood.onDelete.
  induction prev as [|f prev IH]; simpl; intro D; [constructor|].
  inversion D as [|? ? N D']; subst.
  destruct (negb _); simpl; [|auto].
  constructor; [|auto].
  rewrite in_map_iff. intros (g & E & I). apply filter_In in I.
  apply N. rewrite <- E. apply in_map. tauto.
Qed.

Lemma foodNotify_keeps_ids (prev : list Food.t) (n : Notification Food.t) :
  NoDup (foodIds prev) -> keepsFoodKey prev n = true ->
  NoDup (foodIds (notifyFood prev n)).
Proof.
  intros D Kp. destruct n as [f|o f|f]; simpl in *.
  - unfold useFood.onInsert, foodIds. rewrite map_app. simpl.
    apply negb_true_iff in Kp.
    assert (N : ~ In (Food.id f) (foodIds prev)).
    { rewrite <- existsb_eqb_In. congruence. }
    clear Kp. unfold foodIds in *.
    induction (map Food.id prev) as [|z zs IH]; simpl.
    + constructor; [tauto | constructor].
    + inversion D; subst. constructor.
      * rewrite in_app_iff. simpl. simpl in N. intuition.
      * apply IH; [assumption | simpl in N; tauto].
  - apply Z.eqb_eq in Kp.
    destruct (in_dec Z.eq_dec (Food.id o) (foodIds prev)) as [I|N].
    + destruct (foodUpdate_present o f prev I) as (l1 & g & l2 & E & Eg & _ & U).
      rewrite U. subst prev. unfold foodIds in *.
      rewrite map_app in *. simpl in *. congruence.
    + now rewrite foodUpdate_absent.
  - now apply foodDelete_ids.
Qed.

(** C3, refuted as stated for the food table: an update whose id is not in
    the store is dropped, where an insert would have stored the row. *)
Lemma C3_food_update_is_dropped :
  foodAfter [Update food7 food7] = [] /\
  foodAfter [Insert food7] = [food7] /\
  ~ In (Food.id food7) (foodIds (foodAfter [Update food7 food7])).
Proof.
  repeat split. simpl. tauto.
Qed.

(** C3, amended.  Player table: after any notifications the store has no
    key twice; an update whose old key is not stored leaves the store as an
    insert of the new row would, and after any update the new row is the
    whole value under its key.  Food table: an update whose id is not
    stored leaves the array unchanged; an update whose id is stored replaces
    the first row with that id by the new row; ids stay pairwise distinct
    under notifications that keep the primary key. *)
Theorem C3_store_upsert :
  (forall ns, JsMap.wf (playersAfter ns)) /\
  (forall prev oldPlayer player,
      ~ In (Player.identity oldPlayer) (JsMap.keys prev) ->
      usePlayer.onUpdate oldPlayer player prev
      = usePlayer.onInsert player prev) /\
  (forall prev oldPlayer player,
      JsMap.get (Player.identity player)
        (usePlayer.onUpdate oldPlayer player prev) = Some player) /\
  (forall prev oldFood foodItem,
      ~ In (Food.id oldFood) (foodIds prev) ->
      useFood.onUpdate oldFood foodItem prev = prev) /\
  (forall prev oldFood foodItem,
      In (Food.id oldFood) (foodIds prev) ->
      exists l1 g l2,
        prev = l1 ++ g :: l2 /\ Food.id g = Food.id oldFood /\
        ~ In (Food.id oldFood) (foodIds l1) /\
        useFood.onUpdate oldFood foodItem prev = l1 ++ foodItem :: l2) /\
  (forall prev n,
      NoDup (foodIds prev) -> keepsFoodKey prev n = true ->
      NoDup (foodIds (notifyFood prev n))).
Proof.
  repeat apply conj.
  - intro ns. apply playersAfter_wf_from, wf_empty.
  - intros prev o p N. unfold usePlayer.onUpdate, usePlayer.onInsert.
    now rewrite delete_absent.
  - intros prev o p. apply get_set_eq.
  - intros. now apply foodUpdate_absent.
  - intros. now apply foodUpdate_present.
  - intros. now apply foodNotify_keeps_ids.
Qed.

(** The amended C3 on sample rows. *)
Lemma C3_store_upsert_witness :
  usePlayer.onUpdate alice aliceOffline [("b0b"%string, bob)]
  = usePlayer.onInsert aliceOffline [("b0b"%string, bob)] /\
  useFood.onUpdate food7 food7 [] = [] /\
  NoDup (foodIds (notifyFood [] (Insert food7))).
Proof.
  destruct C3_store_upsert as (_ & U & _ & F & _ & D).
  split; [|split].
  - apply U. simpl. intros [E|[]]. discriminate E.
  - apply F. simpl. tauto.
  - apply D; [constructor | reflexivity].
Defined.

(* ================================================================= *)
(* ================================================================= *)
(** ** Rounding to the nearest double *)

Close Scope number_scope.

Lemma pow2_pos (k : Z) : 0 < 2 ^ k.
Proof. apply Qpower_0_lt. reflexivity. Qed.

Lemma pow2_lt (a b : Z) : (a < b)%Z <-> 2 ^ a < 2 ^ b.
Proof.
  split; intro H.
  - apply Qpower_lt_compat_l; [assumption | reflexivity].
  - apply (Qpower_lt_compat_l_inv 2); [assumption | reflexivity].
Qed.

Lemma pow2_le (a b : Z) : (a <= b)%Z <-> 2 ^ a <= 2 ^ b.
Proof.
  split; intro H.
  - apply Qpower_le_compat_l; [assumption | discriminate].
  - apply (Qpower_le_compat_l_inv 2); [assumption | reflexivity].
Qed.

Lemma pow2_add (a b : Z) : 2 ^ (a + b) == 2 ^ a * 2 ^ b.
Proof. apply Qpower_plus. discriminate. Qed.

Lemma pow2_succ (a : Z) : 2 ^ (a + 1) == 2 * 2 ^ a.
Proof. rewrite pow2_add. change (2 ^ 1) with 2. ring. Qed.

Lemma pow2_Z (n : Z) : (0 <= n)%Z -> inject_Z (2 ^ n) == 2 ^ n.
Proof. intro H. now rewrite Zpower_Qpower. Qed.

Lemma ilog2_spec (q : Q) :
  0 < q -> 2 ^ ilog2 q <= q /\ q < 2 ^ (ilog2 q + 1).
Proof.
  intro P. destruct q as [n d]. unfold ilog2. cbn [Qnum Qden].
  assert (Pn : (0 < n)%Z).
  { unfold Qlt in P. simpl in P. lia. }
  set (a := Z.log2 n). set (b := Z.log2 (Zpos d)).
  assert (A : (2 ^ a <= n < 2 ^ (a + 1))%Z).
  { unfold a. replace (Z.log2 n + 1)%Z with (Z.succ (Z.log2 n)) by lia.
    now apply Z.log2_spec. }
  assert (B : (2 ^ b <= Zpos d < 2 ^ (b + 1))%Z).
  { unfold b. replace (Z.log2 (Zpos d) + 1)%Z with (Z.succ (Z.log2 (Zpos d))) by lia.
    now apply Z.log2_spec. }
  assert (a0 : (0 <= a)%Z) by apply Z.log2_nonneg.
  assert (b0 : (0 <= b)%Z) by apply Z.log2_nonneg.
  assert (Q : n # d == inject_Z n / inject_Z (Zpos d)) by apply Qmake_Qdiv.
  assert (Dp : 0 < inject_Z (Zpos d)) by reflexivity.
  (* bounds in Q *)
  assert (An1 : 2 ^ a <= inject_Z n).
  { rewrite <- pow2_Z by assumption. rewrite <- Zle_Qle. tauto. }
  assert (An2 : inject_Z n < 2 ^ (a + 1)).
  { rewrite <- pow2_Z by lia. rewrite <- Zlt_Qlt. tauto. }
  assert (Bd1 : 2 ^ b <= inject_Z (Zpos d)).
  { rewrite <- pow2_Z by assumption. rewrite <- Zle_Qle. tauto. }
  assert (Bd2 : inject_Z (Zpos d) < 2 ^ (b + 1)).
  { rewrite <- pow2_Z by lia. rewrite <- Zlt_Qlt. tauto. }
  assert (E : inject_Z n == (n # d) * inject_Z (Zpos d)).
  { rewrite Q. field. intro H. rewrite H in Dp. discriminate. }
  set (q := n # d) in *. set (D := inject_Z (Zpos d)) in *.
  set (N := inject_Z n) in *.
  pose proof (pow2_pos a) as Pa. pose proof (pow2_pos b) as Pb.
  pose proof (pow2_pos (a - b)) as Pab.
  assert (Eab : 2 ^ a == 2 ^ (a - b) * 2 ^ b).
  { rewrite <- pow2_add. now replace (a - b + b)%Z with a by lia. }
  rewrite pow2_succ in An2, Bd2.
  destruct (Qle_bool (2 ^ (a - b)) q) eqn:T.
  - apply Qle_bool_iff in T. split; [assumption|].
    rewrite pow2_succ.
    (* q * D = N < 2 * 2^a = 2 * 2^(a-b) * 2^b <= 2*2^(a-b) * D *)
    apply Qnot_le_lt. intro C.
    assert (X : 2 * 2 ^ (a - b) * 2 ^ b <= q * D).
    { apply Qle_trans with (2 * 2 ^ (a - b) * D).
      - apply Qmult_le_l; [lra|assumption].
      - apply Qmult_le_r; [assumption|lra]. }
    rewrite <- E in X. lra.
  - assert (T' : q < 2 ^ (a - b)).
    { apply Qnot_le_lt. intro C. apply Qle_bool_iff in C. congruence. }
    replace (a - b - 1 + 1)%Z with (a - b)%Z by lia. split; [|assumption].
    (* 2^(a-b-1) <= q : 2^(a-b) = 2 * 2^(a-b-1);  q*D = N >= 2^a = 2^(a-b) 2^b; D < 2*2^b *)
    pose proof (pow2_pos (a - b - 1)) as Pab1.
    assert (Eab1 : 2 ^ (a - b) == 2 * 2 ^ (a - b - 1)).
    { rewrite <- pow2_succ. now replace (a - b - 1 + 1)%Z with (a - b)%Z by lia. }
    apply Qnot_lt_le. intro C.
    assert (X : q * D < 2 ^ (a - b - 1) * (2 * 2 ^ b)).
    { apply Qle_lt_trans with (2 ^ (a - b - 1) * D).
      - apply Qmult_le_r; [assumption|lra].
      - apply Qmult_lt_l; assumption. }
    rewrite <- E in X.
    assert (Y : 2 ^ (a - b - 1) * (2 * 2 ^ b) == 2 ^ a).
    { rewrite Eab, Eab1. ring. }
    rewrite Y in X. lra.
Qed.

Lemma ilog2_unique (q : Q) (e : Z) :
  2 ^ e <= q -> q < 2 ^ (e + 1) -> ilog2 q = e.
Proof.
  intros L U.
  assert (P : 0 < q) by (eapply Qlt_le_trans; [apply (pow2_pos e) | exact L]).
  destruct (ilog2_spec q P) as [L' U'].
  assert (A : (ilog2 q < e + 1)%Z).
  { apply (proj2 (pow2_lt _ _)). eapply Qle_lt_trans; eassumption. }
  assert (B : (e < ilog2 q + 1)%Z).
  { apply (proj2 (pow2_lt _ _)). eapply Qle_lt_trans; eassumption. }
  lia.
Qed.

Lemma ilog2_comp (q q' : Q) : 0 < q -> q == q' -> ilog2 q = ilog2 q'.
Proof.
  intros P E. destruct (ilog2_spec q P) as [L U].
  symmetry. apply ilog2_unique; now rewrite <- E.
Qed.

Lemma roundEven_comp (q q' : Q) : q == q' -> roundEven q = roundEven q'.
Proof.
  intro E. unfold roundEven. rewrite (Qfloor_comp _ _ E).
  now rewrite E.
Qed.

Lemma roundEven_Z (n : Z) : roundEven (inject_Z n) = n.
Proof.
  unfold roundEven. rewrite Qfloor_Z.
  assert (E : inject_Z n - inject_Z n == 0) by ring.
  now rewrite E.
Qed.

Lemma roundEven_floor (q : Q) :
  (Qfloor q <= roundEven q <= Qfloor q + 1)%Z.
Proof.
  unfold roundEven. destruct (Qcompare _ _); [destruct (Z.even _)| |]; lia.
Qed.

Lemma roundEven_nonneg (q : Q) : 0 <= q -> (0 <= roundEven q)%Z.
Proof.
  intro P. pose proof (roundEven_floor q) as [L _].
  pose proof (Qfloor_resp_le 0 q P) as F. change (Qfloor 0) with 0%Z in F. lia.
Qed.

Lemma roundEven_ge_Z (q : Q) (n : Z) : inject_Z n <= q -> (n <= roundEven q)%Z.
Proof.
  intro P. pose proof (roundEven_floor q) as [L _].
  pose proof (Qfloor_resp_le _ _ P) as F. rewrite Qfloor_Z in F. lia.
Qed.

Lemma roundEven_le_Z (q : Q) (n : Z) : q < inject_Z n -> (roundEven q <= n)%Z.
Proof.
  intro P. pose proof (roundEven_floor q) as [_ U].
  assert (F : (Qfloor q < n)%Z).
  { rewrite Zlt_Qlt. eapply Qle_lt_trans; [apply Qfloor_le | exact P]. }
  lia.
Qed.

Lemma flPos_unfold (q : Q) :
  flPos q = inject_Z (roundEven (q / 2 ^ ulpExp q)) * 2 ^ ulpExp q.
Proof. reflexivity. Qed.

Lemma flPos_comp (q q' : Q) : 0 < q -> q == q' -> flPos q == flPos q'.
Proof.
  intros P E. rewrite !flPos_unfold. unfold ulpExp.
  rewrite (ilog2_comp q q' P E).
  set (k := Z.max _ _).
  assert (E' : q / 2 ^ k == q' / 2 ^ k) by now rewrite E.
  now rewrite (roundEven_comp _ _ E').
Qed.

Lemma flPos_nonneg (q : Q) : 0 <= q -> 0 <= flPos q.
Proof.
  intro P. rewrite flPos_unfold. pose proof (pow2_pos (ulpExp q)) as K.
  apply Qmult_le_0_compat; [|lra].
  change 0 with (inject_Z 0). rewrite <- Zle_Qle. apply roundEven_nonneg.
  apply Qle_shift_div_l; [assumption|]. lra.
Qed.

(** A positive multiple of [2 ^ j] with less than 53 bits is a double. *)
Lemma flPos_fixes (q : Q) (z j : Z) :
  (0 < z < 2 ^ 53)%Z -> (-1074 <= j)%Z -> q == inject_Z z * 2 ^ j ->
  flPos q == q.
Proof.
  intros [Z0 Z53] J E.
  pose proof (pow2_pos j) as Pj.
  assert (Pz : 0 < inject_Z z) by (change 0 with (inject_Z 0); now rewrite <- Zlt_Qlt).
  assert (P : 0 < q) by (rewrite E; now apply Qmult_lt_0_compat).
  destruct (ilog2_spec q P) as [L _].
  assert (U : q < 2 ^ (53 + j)).
  { rewrite E, pow2_add. apply Qmult_lt_r; [assumption|].
    rewrite <- pow2_Z by lia. now rewrite <- Zlt_Qlt. }
  assert (Le : (ilog2 q < 53 + j)%Z).
  { apply (proj2 (pow2_lt _ _)). eapply Qle_lt_trans; eassumption. }
  rewrite flPos_unfold. set (k := ulpExp q).
  assert (K : (k <= j)%Z) by (unfold k, ulpExp; lia).
  pose proof (pow2_pos k) as Pk.
  assert (M : q / 2 ^ k == inject_Z (z * 2 ^ (j - k))).
  { rewrite inject_Z_mult, pow2_Z by lia. rewrite E.
    replace j with ((j - k) + k)%Z at 1 by lia. rewrite pow2_add.
    field. lra. }
  rewrite (roundEven_comp _ _ M), roundEven_Z.
  rewrite inject_Z_mult, pow2_Z by lia. rewrite E.
  replace j with ((j - k) + k)%Z at 2 by lia. rewrite pow2_add. ring.
Qed.

(** What [flPos] returns is zero or such a multiple. *)
Lemma flPos_form (q : Q) :
  0 < q ->
  flPos q == 0 \/
  exists z j, (0 < z < 2 ^ 53)%Z /\ (-1074 <= j)%Z /\
              flPos q == inject_Z z * 2 ^ j.
Proof.
  intro P. rewrite flPos_unfold. set (k := ulpExp q).
  destruct (ilog2_spec q P) as [_ U].
  pose proof (pow2_pos k) as Pk.
  assert (K : (ilog2 q + 1 <= k + 53)%Z) by (unfold k, ulpExp; lia).
  assert (K' : (-1074 <= k)%Z) by (unfold k, ulpExp; lia).
  set (m := q / 2 ^ k).
  assert (M0 : 0 <= m).
  { unfold m. apply Qle_shift_div_l; [assumption|lra]. }
  assert (M53 : m < inject_Z (2 ^ 53)).
  { unfold m. apply Qlt_shift_div_r; [assumption|].
    rewrite pow2_Z by lia. rewrite <- pow2_add.
    eapply Qlt_le_trans; [exact U|]. apply (proj1 (pow2_le _ _)). lia. }
  pose proof (roundEven_nonneg m M0) as N0.
  pose proof (roundEven_le_Z m _ M53) as N53.
  set (N := roundEven m) in *.
  destruct (Z.eq_dec N 0) as [E0|NZ].
  - left. rewrite E0. ring.
  - right. destruct (Z.eq_dec N (2 ^ 53)) as [E53|N53'].
    + exists (2 ^ 52)%Z, (k + 1)%Z. split; [lia|]. split; [lia|].
      rewrite E53, pow2_succ. rewrite !pow2_Z by lia.
      change ((2:Q) ^ 53) with (2 * 2 ^ 52). ring.
    + exists N, k. split; [lia|]. split; [assumption|reflexivity].
Qed.

Lemma flPos_idem (q : Q) : 0 < q -> 0 < flPos q -> flPos (flPos q) == flPos q.
Proof.
  intros P R. destruct (flPos_form q P) as [Z0|(z & j & Hz & Hj & E)].
  - rewrite Z0 in R. discriminate R.
  - now apply (flPos_fixes _ z j).
Qed.

Lemma fl_comp (q q' : Q) : q == q' -> fl q = fl q'.
Proof.
  intro E. unfold fl. rewrite <- E.
  assert (E1 : Qred q = Qred q') by now apply Qred_complete.
  assert (E2 : Qred (- q) = Qred (- q')) by (apply Qred_complete; now rewrite E).
  now rewrite E1, E2.
Qed.

Lemma fl_0 : fl 0 = 0.
Proof. reflexivity. Qed.

Lemma fl_pos_eq (q : Q) : 0 < q -> fl q = Qred (flPos (Qred q)).
Proof.
  intro P. unfold fl.
  destruct (Qcompare_spec q 0) as [E|L|G]; [lra | lra | reflexivity].
Qed.

Lemma fl_neg_eq (q : Q) : q < 0 -> fl q = Qred (- flPos (Qred (- q))).
Proof.
  intro P. unfold fl.
  destruct (Qcompare_spec q 0) as [E|L|G]; [lra | reflexivity | lra].
Qed.

Lemma Qopp_opp_eq (q : Q) : - - q = q.
Proof. destruct q as [n d]. unfold Qopp. simpl. now rewrite Z.opp_involutive. Qed.

Lemma fl_opp (q : Q) : fl (- q) = - fl q.
Proof.
  destruct (Q_dec q 0) as [[N|P]|Z].
  - rewrite (fl_neg_eq q N), fl_pos_eq by lra.
    now rewrite (Qred_opp (flPos _)), Qopp_opp_eq.
  - rewrite (fl_pos_eq q P), fl_neg_eq by lra.
    replace (Qred (- - q)) with (Qred q) by (apply Qred_complete; ring).
    now rewrite (Qred_opp (flPos _)).
  - rewrite (fl_comp q 0 Z). apply (fl_comp (- q) 0). rewrite Z. reflexivity.
Qed.

Lemma fl_nonneg (q : Q) : 0 <= q -> 0 <= fl q.
Proof.
  intro P. destruct (Qle_lt_or_eq _ _ P) as [L|E].
  - rewrite fl_pos_eq by assumption. rewrite Qred_correct.
    apply flPos_nonneg. rewrite Qred_correct. assumption.
  - rewrite (fl_comp q 0) by now symmetry. discriminate.
Qed.

Lemma fl_nonpos (q : Q) : q <= 0 -> fl q <= 0.
Proof.
  intro P. assert (H : 0 <= fl (- q)) by (apply fl_nonneg; lra).
  rewrite fl_opp in H. lra.
Qed.

Lemma fl_idem_pos (q : Q) : 0 < q -> fl (fl q) = fl q.
Proof.
  intro P. rewrite (fl_pos_eq q P).
  set (r := flPos (Qred q)).
  assert (Pq : 0 < Qred q) by now rewrite Qred_correct.
  assert (R0 : 0 <= r) by (apply flPos_nonneg; lra).
  destruct (Qle_lt_or_eq _ _ R0) as [L|E].
  - rewrite fl_pos_eq by now rewrite Qred_correct.
    apply Qred_complete.
    rewrite (flPos_comp (Qred (Qred r)) r).
    + now apply flPos_idem.
    + now rewrite !Qred_correct.
    + now rewrite !Qred_correct.
  - assert (Z : Qred r = 0) by (apply (Qred_complete r 0); now symmetry).
    rewrite Z. reflexivity.
Qed.

Lemma fl_idem (q : Q) : fl (fl q) = fl q.
Proof.
  destruct (Q_dec q 0) as [[N|P]|Z].
  - assert (E : q == - - q) by ring.
    rewrite (fl_comp q _ E). rewrite (fl_opp (- q)), (fl_opp (fl (- q))).
    rewrite fl_idem_pos by lra. reflexivity.
  - now apply fl_idem_pos.
  - rewrite (fl_comp q 0 Z). reflexivity.
Qed.

Lemma flPos_grid (q : Q) : 0 < q -> exists z : Z, flPos q == inject_Z z * minDouble.
Proof.
  intro P. rewrite flPos_unfold. set (k := ulpExp q).
  assert (K : (-1074 <= k)%Z) by (unfold k, ulpExp; lia).
  exists (roundEven (q / 2 ^ k) * 2 ^ (k + 1074))%Z.
  rewrite inject_Z_mult, pow2_Z by lia. unfold minDouble.
  replace k with ((k + 1074) + - 1074)%Z at 2 by lia. rewrite pow2_add. ring.
Qed.

Lemma fl_grid (q : Q) : exists z : Z, fl q == inject_Z z * minDouble.
Proof.
  destruct (Q_dec q 0) as [[N|P]|Z].
  - rewrite fl_neg_eq by assumption.
    destruct (flPos_grid (Qred (- q))) as (z & E).
    { rewrite Qred_correct. lra. }
    exists (- z)%Z. rewrite Qred_correct, E, inject_Z_opp. ring.
  - rewrite fl_pos_eq by assumption.
    destruct (flPos_grid (Qred q)) as (z & E).
    { now rewrite Qred_correct. }
    exists z. now rewrite Qred_correct.
  - exists 0%Z. rewrite (fl_comp q 0 Z). reflexivity.
Qed.

Lemma flPos_min (q : Q) : minDouble <= q -> 0 < flPos q.
Proof.
  intro M. pose proof (pow2_pos (-1074)) as P0. fold minDouble in P0.
  assert (P : 0 < q) by lra.
  rewrite flPos_unfold. set (k := ulpExp q). pose proof (pow2_pos k) as Pk.
  apply Qmult_lt_0_compat; [|assumption].
  change 0 with (inject_Z 0). rewrite <- Zlt_Qlt.
  assert (G : (1 <= roundEven (q / 2 ^ k))%Z); [|lia].
  apply roundEven_ge_Z. apply Qle_shift_div_l; [assumption|].
  change (inject_Z 1) with 1. rewrite Qmult_1_l.
  destruct (ilog2_spec q P) as [L _].
  unfold k, ulpExp.
  destruct (Z.max_spec (ilog2 q - 52) (-1074)) as [[_ ->]|[_ ->]].
  - exact M.
  - eapply Qle_trans; [|exact L]. apply (proj1 (pow2_le _ _)). lia.
Qed.

Lemma fl_pos_min (q : Q) : minDouble <= q -> 0 < fl q.
Proof.
  intro M. pose proof (pow2_pos (-1074)) as P0. fold minDouble in P0.
  rewrite fl_pos_eq by lra. rewrite Qred_correct. apply flPos_min.
  now rewrite Qred_correct.
Qed.

Open Scope number_scope.

(* ================================================================= *)
(** ** Arithmetic and order of numbers *)

Lemma numEq_refl (a : number) : a == a.
Proof. destruct a; simpl; [exact I | reflexivity]. Qed.

Lemma numEq_sym (a b : number) : a == b -> b == a.
Proof. destruct a, b; simpl; auto. intro E. now symmetry. Qed.

Lemma numEq_trans (a b c : number) : a == b -> b == c -> a == c.
Proof.
  destruct a, b, c; simpl; try tauto. intros E1 E2. now rewrite E1.
Qed.

Lemma eq_numEq (a b : number) : a = b -> a == b.
Proof. intros ->. apply numEq_refl. Qed.

Lemma strictEq_true (a b : number) :
  strictEq a b = true <-> a == b /\ Number_isNaN a = false.
Proof.
  destruct a, b; simpl; try (split; [discriminate | tauto]).
  - split; [discriminate | intros [_ H]; discriminate H].
  - rewrite Qeq_bool_iff. tauto.
Qed.

Lemma strictEq_refl (a : number) :
  Number_isNaN a = false -> strictEq a a = true.
Proof. intro N. apply strictEq_true. split; [apply numEq_refl | exact N]. Qed.

Lemma strictEq_numEq (a b : number) : strictEq a b = true -> a == b.
Proof. intro H. now apply strictEq_true in H. Qed.

Lemma leb_numLe (a b : number) : leb a b = true <-> a <= b.
Proof.
  destruct a, b; simpl; try (split; [discriminate | tauto]).
  apply Qle_bool_iff.
Qed.

Lemma arith_num (op : Q -> Q -> Q) (x y : Q) :
  arith op (Num x) (Num y) = Num (fl (op x y)).
Proof. reflexivity. Qed.

Lemma Num_fl (x y : Q) : (x == y)%Q -> Num (fl x) = Num (fl y).
Proof. intro E. now rewrite (fl_comp x y E). Qed.

(** A number that is a double: adding it to zero, taking it from zero and
    multiplying it by one are exact. *)
Lemma add_0_l (u : Q) : Num 0 + Num (fl u) = Num (fl u).
Proof.
  unfold add. rewrite arith_num. rewrite (fl_comp (0 + fl u) (fl u)) by ring.
  now rewrite fl_idem.
Qed.

Lemma sub_0_l (u : Q) : Num 0 - Num (fl u) = Num (- fl u).
Proof.
  unfold sub. rewrite arith_num.
  rewrite (fl_comp (0 - fl u) (- fl u)) by ring.
  now rewrite fl_opp, fl_idem.
Qed.

Lemma add_opp_l (x : Q) : Num (- x) + Num x = Num 0.
Proof. unfold add. rewrite arith_num. apply (Num_fl (- x + x) 0). ring. Qed.

Lemma sub_diag (x : Q) : Num x - Num x = Num 0.
Proof. unfold sub. rewrite arith_num. apply (Num_fl (x - x) 0). ring. Qed.

Lemma mul_1_l (u : Q) : Num 1 * Num (fl u) = Num (fl u).
Proof.
  unfold mul. rewrite arith_num. rewrite (fl_comp (1 * fl u) (fl u)) by ring.
  now rewrite fl_idem.
Qed.

Lemma mul_m1_l (u : Q) : Num (- (1)) * Num (fl u) = Num (- fl u).
Proof.
  unfold mul. rewrite arith_num.
  rewrite (fl_comp (- (1) * fl u) (- fl u)) by ring.
  now rewrite fl_opp, fl_idem.
Qed.

Lemma mul_0_l (x : Q) : Num 0 * Num x = Num 0.
Proof. unfold mul. rewrite arith_num. apply (Num_fl (0 * x) 0). ring. Qed.

Lemma mul_0_r (x : Q) : Num x * Num 0 = Num 0.
Proof. unfold mul. rewrite arith_num. apply (Num_fl (x * 0) 0). ring. Qed.

(* ================================================================= *)
(** ** Clamping, movement and the camera *)

Close Scope number_scope.

Section Clamp.
Variables lo hi v : Q.

Lemma clamp_lower : lo <= Qmax lo (Qmin hi v).
Proof. apply Q.le_max_l. Qed.

Lemma clamp_upper : lo <= hi -> Qmax lo (Qmin hi v) <= hi.
Proof. intro L. apply Q.max_lub; [assumption | apply Q.le_min_l]. Qed.

Lemma clamp_inside : lo <= v -> v <= hi -> Qmax lo (Qmin hi v) == v.
Proof.
  intros L U. rewrite Q.max_r; rewrite Q.min_r; auto with qarith.
Qed.

Lemma clamp_below : v <= lo -> Qmax lo (Qmin hi v) == lo.
Proof.
  intro L. apply Q.max_l. apply Qle_trans with v; [apply Q.le_min_r | assumption].
Qed.

Lemma clamp_above : lo <= hi -> hi <= v -> Qmax lo (Qmin hi v) == hi.
Proof.
  intros L U. rewrite Q.max_r; rewrite Q.min_l; auto with qarith.
Qed.

Lemma clamp_inverted : hi < lo -> Qmax lo (Qmin hi v) == lo.
Proof.
  intro I. apply Q.max_l. apply Qle_trans with hi; [apply Q.le_min_l|].
  now apply Qlt_le_weak.
Qed.

End Clamp.

Open Scope number_scope.

(** The two bounds of the world clamp, as the loop computes them. *)
Lemma world_bounds :
  - WORLD_SIZE / 2 = Num (- (500)) /\ WORLD_SIZE / 2 = Num 500.
Proof. split; vm_compute; reflexivity. Qed.

Lemma clampWorld_num (v : Q) :
  clampWorld (Num v) = Num (Qmax (- (500)) (Qmin 500 v)).
Proof.
  unfold clampWorld. destruct world_bounds as [-> ->]. reflexivity.
Qed.

Lemma clampWorld_NaN : clampWorld NaN = NaN.
Proof. unfold clampWorld. destruct world_bounds as [-> ->]. reflexivity. Qed.

Lemma clampWorld_spec (v : Q) :
  (- WORLD_SIZE / 2 <= clampWorld v <= WORLD_SIZE / 2) /\
  (v <= - WORLD_SIZE / 2 -> clampWorld v == - WORLD_SIZE / 2) /\
  (WORLD_SIZE / 2 <= v -> clampWorld v == WORLD_SIZE / 2) /\
  (- WORLD_SIZE / 2 <= v -> v <= WORLD_SIZE / 2 -> clampWorld v == v).
Proof.
  rewrite clampWorld_num. destruct world_bounds as [-> ->]. cbn [numLe numEq].
  assert (O : (- (500) <= 500)%Q) by discriminate.
  repeat split.
  - apply clamp_lower.
  - now apply clamp_upper.
  - apply clamp_below.
  - now apply clamp_above.
  - apply clamp_inside.
Qed.

(** The elapsed time is a number. *)
Lemma deltaTime_num (now last : Z) :
  deltaTime now last =
  Num (fl (fl (inject_Z now - inject_Z last) / 1000)).
Proof. reflexivity. Qed.

(** The step of one key, [MOVE_SPEED * deltaTime]. *)
Lemma step_num (now last : Z) :
  MOVE_SPEED * deltaTime now last =
  Num (fl (MOVE_SPEED * fl (fl (inject_Z now - inject_Z last) / 1000))).
Proof. reflexivity. Qed.

Lemma deltaX_sum (keys : list string) (t : Q) :
  deltaX keys t == (held "d" keys - held "a" keys) * (MOVE_SPEED * t).
Proof.
  unfold deltaX, held. change (MOVE_SPEED * t) with (Num (fl (MOVE_SPEED * t))).
  set (u := (MOVE_SPEED * t)%Q).
  destruct (setHas "a" keys), (setHas "d" keys); apply eq_numEq.
  - rewrite sub_0_l, add_opp_l, sub_diag, mul_0_l. reflexivity.
  - rewrite sub_0_l. change (Num 0 - Num 1) with (Num (- (1))).
    now rewrite mul_m1_l.
  - rewrite add_0_l. change (Num 1 - Num 0) with (Num 1). now rewrite mul_1_l.
  - rewrite sub_diag, mul_0_l. reflexivity.
Qed.

Lemma deltaY_sum (keys : list string) (t : Q) :
  deltaY keys t == (held "w" keys - held "s" keys) * (MOVE_SPEED * t).
Proof.
  unfold deltaY, held. change (MOVE_SPEED * t) with (Num (fl (MOVE_SPEED * t))).
  set (u := (MOVE_SPEED * t)%Q).
  destruct (setHas "w" keys), (setHas "s" keys); apply eq_numEq.
  - rewrite add_0_l. unfold sub at 1. rewrite arith_num.
    rewrite (Num_fl (fl u - fl u) 0) by ring.
    rewrite sub_diag, mul_0_l. reflexivity.
  - rewrite add_0_l. change (Num 1 - Num 0) with (Num 1). now rewrite mul_1_l.
  - rewrite sub_0_l. change (Num 0 - Num 1) with (Num (- (1))).
    now rewrite mul_m1_l.
  - rewrite sub_diag, mul_0_l. reflexivity.
Qed.

Lemma moved_false (dx dy : Q) :
  moved dx dy = false <-> dx == 0 /\ dy == 0.
Proof.
  unfold moved. cbn [strictEq numEq].
  rewrite orb_false_iff, !negb_false_iff, !Qeq_bool_iff. tauto.
Qed.

Lemma moved_true (dx dy : Q) :
  moved dx dy = true <-> ~ (dx == 0 /\ dy == 0).
Proof.
  rewrite <- moved_false. destruct (moved dx dy); split; congruence.
Qed.

Lemma no_keys_no_delta (t : number) : moved (deltaX [] t) (deltaY [] t) = false.
Proof. reflexivity. Qed.
Lemma renderScene_refs (w : World) :
  sceneRef (renderScene w) = sceneRef w /\
  cameraRef (renderScene w) = cameraRef w /\
  playerMeshesRef (renderScene w) = playerMeshesRef w /\
  foodMeshesRef (renderScene w) = foodMeshesRef w /\
  keysRef (renderScene w) = keysRef w /\
  lastUpdateRef (renderScene w) = lastUpdateRef w /\
  myPlayerRef (renderScene w) = myPlayerRef w /\
  nextId (renderScene w) = nextId w /\
  calls (renderScene w) = calls w /\
  sent (renderScene w) = sent w.
Proof.
  unfold renderScene.
  destruct (sceneRef w) eqn:S, (cameraRef w) eqn:C; cbn; rewrite ?S, ?C;
    repeat split.
Qed.


(** What one run of the loop hands to [conn.reducers.playerMoved]. *)
Lemma gameLoop_sent (me : string) (players : JsMap.t string Player.t)
  (now : Z) (w : World) :
  sent (gameLoop me players now w) = sent (movePlayer me players
                                            (deltaTime now (lastUpdateRef w))
                                            (setLastUpdate now w)).
Proof.
  unfold gameLoop. set (w1 := movePlayer _ _ _ _).
  assert (F : sent (followPlayer me players w1) = sent w1).
  { unfold followPlayer.
    destruct (cameraRef w1), (myPlayerRef w1); try reflexivity.
    destruct (JsMap.get me players); reflexivity. }
  rewrite <- F. apply renderScene_refs.
Qed.

Lemma movePlayer_sent (me : string) (players : JsMap.t string Player.t)
  (t : number) (w : World) :
  let dx := deltaX (keysRef w) t in
  let dy := deltaY (keysRef w) t in
  sent (movePlayer me players t w) =
  match myPlayerRef w, JsMap.get me players with
  | Some _, Some currentPlayer =>
      if moved dx dy then
        sent w ++
        [Position.mk
           (clampWorld (Position.x (Player.position currentPlayer) + dx))
           (clampWorld (Position.y (Player.position currentPlayer) + dy))]
      else sent w
  | _, _ => sent w
  end.
Proof.
  unfold movePlayer. destruct (myPlayerRef w); [|reflexivity].
  destruct (keysRef w) as [|k ks] eqn:K.
  - simpl. destruct (JsMap.get me players); reflexivity.
  - change (Nat.ltb 0 (List.length (k :: ks))) with true. cbv iota.
    destruct (moved _ _); destruct (JsMap.get me players); reflexivity.
Qed.

(** The deltas of a tick are numbers. *)
Lemma deltaX_num (keys : list string) (t : Q) : exists d : Q, deltaX keys t = Num d.
Proof.
  unfold deltaX. destruct (setHas "a" keys), (setHas "d" keys);
    eexists; reflexivity.
Qed.

Lemma deltaY_num (keys : list string) (t : Q) : exists d : Q, deltaY keys t = Num d.
Proof.
  unfold deltaY. destruct (setHas "w" keys), (setHas "s" keys);
    eexists; reflexivity.
Qed.

Lemma clampWorld_add_inWorld (x d : Q) :
  - WORLD_SIZE / 2 <= clampWorld (Num x + Num d) <= WORLD_SIZE / 2.
Proof. apply (clampWorld_spec (fl (x + d))). Qed.

(** What a tick sends, read off the refs and the store. *)
Lemma gameLoop_sent_if (me : string) (players : JsMap.t string Player.t)
  (now : Z) (w : World) :
  let dx := deltaX (keysRef w) (deltaTime now (lastUpdateRef w)) in
  let dy := deltaY (keysRef w) (deltaTime now (lastUpdateRef w)) in
  sent (gameLoop me players now w) =
  match myPlayerRef w, JsMap.get me players with
  | Some _, Some currentPlayer =>
      if moved dx dy then
        sent w ++
        [Position.mk
           (clampWorld (Position.x (Player.position currentPlayer) + dx))
           (clampWorld (Position.y (Player.position currentPlayer) + dy))]
      else sent w
  | _, _ => sent w
  end.
Proof.
  cbv zeta. rewrite gameLoop_sent.
  exact (movePlayer_sent me players (deltaTime now (lastUpdateRef w))
           (setLastUpdate now w)).
Qed.

(** A tick sends at most one position; each of its coordinates lies within
    the world when the stored coordinate is a number, and is NaN when the
    stored coordinate is NaN. *)
Lemma gameLoop_sent_range (me : string) (players : JsMap.t string Player.t)
  (now : Z) (w : World) :
  let w' := gameLoop me players now w in
  sent w' = sent w \/
  exists q currentPlayer,
    sent w' = sent w ++ [q] /\ JsMap.get me players = Some currentPlayer /\
    (Number_isNaN (Position.x (Player.position currentPlayer)) = false ->
     - WORLD_SIZE / 2 <= Position.x q <= WORLD_SIZE / 2) /\
    (Number_isNaN (Position.y (Player.position currentPlayer)) = false ->
     - WORLD_SIZE / 2 <= Position.y q <= WORLD_SIZE / 2) /\
    (Number_isNaN (Position.x (Player.position currentPlayer)) = true ->
     Position.x q = NaN) /\
    (Number_isNaN (Position.y (Player.position currentPlayer)) = true ->
     Position.y q = NaN).
Proof.
  cbv zeta. rewrite gameLoop_sent_if. rewrite deltaTime_num.
  set (t0 := fl (fl (inject_Z now - inject_Z (lastUpdateRef w)) / 1000)).
  destruct (deltaX_num (keysRef w) t0) as [qx Ex].
  destruct (deltaY_num (keysRef w) t0) as [qy Ey].
  rewrite Ex, Ey.
  destruct (myPlayerRef w); [|now left].
  destruct (JsMap.get me players) as [cur|]; [|now left].
  destruct (moved qx qy); [|now left].
  right. eexists. exists cur. split; [reflexivity|]. split; [reflexivity|].
  cbn [Position.x Position.y].
  destruct (Position.x (Player.position cur)) as [|x],
           (Position.y (Player.position cur)) as [|y];
    (split; [intro N | split; [intro N | split; intro N]]);
    try discriminate N;
    solve [apply clampWorld_add_inWorld | apply clampWorld_NaN].
Qed.

(** C4, refuted as stated.  With the local player's row in the store but
    never seen online and "d" held, the delta of the tick is not zero and
    yet nothing is sent; and from a stored position whose x is NaN the tick
    sends an x that is NaN, which is not within the world. *)
Lemma C4_moving_tick_sends_nothing_or_NaN :
  (let a := run "a11ce" 0 offlineLocalEvents in
   JsMap.has "a11ce"%string (players a) = true /\
   ~ (deltaX (keysRef (world a)) (deltaTime 100 (lastUpdateRef (world a))) == 0) /\
   sent (gameLoop "a11ce" (players a) 100 (world a)) = []) /\
  (let a := run "a11ce" 0 nowhereEvents in
   sent (gameLoop "a11ce" (players a) 100 (world a))
   = [Position.mk NaN 450] /\
   ~ inWorld (Position.mk NaN 450)).
Proof.
  split; cbv zeta.
  - split; [reflexivity|]. split; [|vm_compute; reflexivity].
    vm_compute. discriminate.
  - split; [vm_compute; reflexivity|]. intros [[H _] _]. exact H.
Qed.

(** C4, amended.  The deltas are the signed sums of the held directions
    times [MOVE_SPEED * deltaTime]; with both deltas zero the tick sends
    nothing; otherwise it sends a position exactly when the local player ref
    is set and the local row is in the store, namely the stored position plus
    the delta, clamped on each axis by
    [Math.max(-WORLD_SIZE/2, Math.min(WORLD_SIZE/2, _))]; the clamp takes
    every number into [[-WORLD_SIZE/2, WORLD_SIZE/2]] and passes NaN on; so
    a tick sends at most one position, which lies within the world on
    every axis where the stored coordinate is not NaN. *)
Theorem C4_movement_predictor (me : string)
  (players : JsMap.t string Player.t) (now : Z) (w : World) :
  let t := deltaTime now (lastUpdateRef w) in
  let dx := deltaX (keysRef w) t in
  let dy := deltaY (keysRef w) t in
  let w' := gameLoop me players now w in
  dx == (held "d" (keysRef w) - held "a" (keysRef w)) * (MOVE_SPEED * t) /\
  dy == (held "w" (keysRef w) - held "s" (keysRef w)) * (MOVE_SPEED * t) /\
  (dx == 0 /\ dy == 0 -> sent w' = sent w) /\
  (~ (dx == 0 /\ dy == 0) ->
   sent w' =
   match myPlayerRef w, JsMap.get me players with
   | Some _, Some currentPlayer =>
       sent w ++
       [Position.mk
          (clampWorld (Position.x (Player.position currentPlayer) + dx))
          (clampWorld (Position.y (Player.position currentPlayer) + dy))]
   | _, _ => sent w
   end) /\
  (forall v : Q,
      (- WORLD_SIZE / 2 <= clampWorld v <= WORLD_SIZE / 2) /\
      (v <= - WORLD_SIZE / 2 -> clampWorld v == - WORLD_SIZE / 2) /\
      (WORLD_SIZE / 2 <= v -> clampWorld v == WORLD_SIZE / 2) /\
      (- WORLD_SIZE / 2 <= v -> v <= WORLD_SIZE / 2 -> clampWorld v == v)) /\
  clampWorld NaN = NaN /\
  (sent w' = sent w \/
   exists q currentPlayer,
     sent w' = sent w ++ [q] /\ JsMap.get me players = Some currentPlayer /\
     (Number_isNaN (Position.x (Player.position currentPlayer)) = false ->
      - WORLD_SIZE / 2 <= Position.x q <= WORLD_SIZE / 2) /\
     (Number_isNaN (Position.y (Player.position currentPlayer)) = false ->
      - WORLD_SIZE / 2 <= Position.y q <= WORLD_SIZE / 2) /\
     (Number_isNaN (Position.x (Player.position currentPlayer)) = true ->
      Position.x q = NaN) /\
     (Number_isNaN (Position.y (Player.position currentPlayer)) = true ->
      Position.y q = NaN)).
Proof.
  cbv zeta.
  pose proof (gameLoop_sent_if me players now w) as S. cbv zeta in S.
  pose proof (gameLoop_sent_range me players now w) as R. cbv zeta in R.
  rewrite deltaTime_num in *.
  set (t0 := fl (fl (inject_Z now - inject_Z (lastUpdateRef w)) / 1000)) in *.
  split; [apply deltaX_sum|]. split; [apply deltaY_sum|].
  destruct (deltaX_num (keysRef w) t0) as [qx Ex].
  destruct (deltaY_num (keysRef w) t0) as [qy Ey].
  rewrite Ex, Ey in *.
  split; [|split; [|split; [|split]]].
  - intro Z0. apply moved_false in Z0. rewrite S, Z0.
    destruct (myPlayerRef w), (JsMap.get me players); reflexivity.
  - intros NZ. apply moved_true in NZ. rewrite S, NZ. reflexivity.
  - apply clampWorld_spec.
  - apply clampWorld_NaN.
  - exact R.
Qed.

(** C4 on the scenario of the specification: at (450, 450) with "d" held
    for 0.1 s the loop sends (470, 450). *)
Lemma C4_movement_predictor_witness :
  exists q,
    sent (gameLoop "a11ce" alicePlayers 100 aliceWorld) = [q] /\
    Position.x q == 470 /\ Position.y q == 450.
Proof.
  pose proof (C4_movement_predictor "a11ce" alicePlayers 100 aliceWorld) as H.
  cbv zeta in H. destruct H as (_ & _ & _ & M & _).
  eexists. split.
  - apply (M ltac:(intros [X _]; vm_compute in X; discriminate X)).
  - split; vm_compute; reflexivity.
Defined.

(** C6: with "a" and "d" both held the x delta is zero, with "w" and "s"
    both held the y delta is zero, for every elapsed time. *)
Theorem C6_opposing_keys_cancel (keys : list string) (t : Q) :
  0 <= t ->
  (setHas "a" keys = true /\ setHas "d" keys = true -> deltaX keys t == 0) /\
  (setHas "w" keys = true /\ setHas "s" keys = true -> deltaY keys t == 0).
Proof.
  intros _. split; intros [A B].
  - eapply numEq_trans; [apply deltaX_sum|]. unfold held. rewrite A, B.
    apply eq_numEq. change (MOVE_SPEED * t) with (Num (fl (MOVE_SPEED * t))).
    now rewrite sub_diag, mul_0_l.
  - eapply numEq_trans; [apply deltaY_sum|]. unfold held. rewrite A, B.
    apply eq_numEq. change (MOVE_SPEED * t) with (Num (fl (MOVE_SPEED * t))).
    now rewrite sub_diag, mul_0_l.
Qed.

(** C6 for a 16 ms frame. *)
Lemma C6_opposing_keys_cancel_witness :
  deltaX ["a"; "d"]%string (16 # 1000) == 0 /\
  deltaY ["s"; "a"; "w"]%string (16 # 1000) == 0.
Proof.
  destruct (C6_opposing_keys_cancel ["a"; "d"]%string (16 # 1000)) as [X _].
  { vm_compute. discriminate. }
  destruct (C6_opposing_keys_cancel ["s"; "a"; "w"]%string (16 # 1000))
    as [_ Y].
  { vm_compute. discriminate. }
  split; [apply X | apply Y]; split; reflexivity.
Defined.

Lemma movePlayer_refs (me : string) (players : JsMap.t string Player.t)
  (t : number) (w : World) :
  cameraRef (movePlayer me players t w) = cameraRef w /\
  myPlayerRef (movePlayer me players t w) = myPlayerRef w /\
  playerMeshesRef (movePlayer me players t w) = playerMeshesRef w.
Proof.
  unfold movePlayer. destruct (myPlayerRef w) eqn:M; [|now rewrite M].
  destruct (Nat.ltb _ _); [|now rewrite M].
  destruct (moved _ _); [|now rewrite M].
  destruct (JsMap.get me players); simpl; now rewrite ?M.
Qed.

(** The two bounds of the camera clamp, as the loop computes them. *)
Lemma camera_bounds (v : number) :
  cameraTarget WORLD_SIZE CAMERA_SIZE v
  = Math_max (Num (- (100))) (Math_min (Num 100) v).
Proof.
  unfold cameraTarget.
  replace (- (WORLD_SIZE / 2) + CAMERA_SIZE) with (Num (- (100)))
    by (vm_compute; reflexivity).
  replace (WORLD_SIZE / 2 - CAMERA_SIZE) with (Num 100)
    by (vm_compute; reflexivity).
  reflexivity.
Qed.



(* ================================================================= *)
(** ** Sorting by radius *)

Lemma sortInsert_perm {A} (cmp : A -> A -> number) (a : A) (l : list A) :
  Permutation (sortInsert cmp a l) (a :: l).
Proof.
  induction l as [|b l IH]; simpl; [reflexivity|].
  destruct (leb _ _); [reflexivity|].
  rewrite IH. apply perm_swap.
Qed.

Lemma sort_perm {A} (cmp : A -> A -> number) (l : list A) :
  Permutation (sort cmp l) l.
Proof.
  induction l as [|a l IH]; simpl; [reflexivity|].
  rewrite sortInsert_perm. now constructor.
Qed.

Close Scope number_scope.

(** The difference of two doubles rounds to a number of its own sign:
    it is a multiple of the least positive double. *)
Lemma fl_sub_sign (x y : Q) :
  fl x == x -> fl y == y -> (fl (x - y) <= 0 <-> x <= y).
Proof.
  intros Dx Dy. split.
  - intro F. apply Qnot_lt_le. intro L.
    destruct (fl_grid x) as (zx & Ex). destruct (fl_grid y) as (zy & Ey).
    rewrite Dx in Ex. rewrite Dy in Ey.
    pose proof (pow2_pos (-1074)) as M. fold minDouble in M.
    assert (Z : (zy < zx)%Z).
    { rewrite Zlt_Qlt. apply (Qmult_lt_r _ _ minDouble M). now rewrite <- Ex, <- Ey. }
    assert (G : minDouble <= x - y).
    { rewrite Ex, Ey.
      setoid_replace (inject_Z zx * minDouble - inject_Z zy * minDouble)
        with (inject_Z (zx - zy) * minDouble)
        by (unfold Zminus; rewrite inject_Z_plus, inject_Z_opp; ring).
      rewrite <- (Qmult_1_l minDouble) at 1.
      apply Qmult_le_r; [assumption|].
      change 1 with (inject_Z 1). rewrite <- Zle_Qle. lia. }
    pose proof (fl_pos_min _ G). lra.
  - intro L. apply fl_nonpos. lra.
Qed.

Open Scope number_scope.

Lemma byRadius_le (a b : string * Player.t) :
  isDouble (Player.radius (snd a)) -> isDouble (Player.radius (snd b)) ->
  (leb (sortCompare (byRadius a b)) 0 = true <-> radiusLe a b).
Proof.
  unfold byRadius, radiusLe.
  destruct (Player.radius (snd a)) as [|x], (Player.radius (snd b)) as [|y];
    cbn [isDouble]; try tauto.
  intros Dx Dy. cbn [sub arith sortCompare leb numLe].
  rewrite Qle_bool_iff. now apply fl_sub_sign.
Qed.

Lemma radiusLe_trans (a b c : string * Player.t) :
  radiusLe a b -> radiusLe b c -> radiusLe a c.
Proof.
  unfold radiusLe.
  destruct (Player.radius (snd a)), (Player.radius (snd b)),
    (Player.radius (snd c)); cbn [numLe]; try tauto.
  apply Qle_trans.
Qed.

Lemma radiusLe_total (a b : string * Player.t) :
  isDouble (Player.radius (snd a)) -> isDouble (Player.radius (snd b)) ->
  radiusLe a b \/ radiusLe b a.
Proof.
  unfold radiusLe.
  destruct (Player.radius (snd a)) as [|x], (Player.radius (snd b)) as [|y];
    cbn [isDouble numLe]; try tauto.
  intros _ _. destruct (Qlt_le_dec x y) as [L|L]; [left|right]; auto with qarith.
Qed.

Lemma sortInsert_sorted (a : string * Player.t) (l : list (string * Player.t)) :
  radiiAreDoubles (a :: l) ->
  StronglySorted radiusLe l -> StronglySorted radiusLe (sortInsert byRadius a l).
Proof.
  intros D. inversion D as [|? ? Da Dl]; subst. clear D.
  induction 1 as [|b l S IH F]; simpl.
  - repeat constructor.
  - inversion Dl as [|? ? Db Dl']; subst.
    destruct (leb (sortCompare (byRadius a b)) 0) eqn:C.
    + apply byRadius_le in C; try assumption.
      constructor; [now constructor|].
      constructor; [assumption|].
      eapply Forall_impl; [|exact F]. intros c Hc.
      now apply radiusLe_trans with b.
    + assert (B : radiusLe b a).
      { destruct (radiusLe_total a b Da Db) as [L|L]; [|assumption].
        apply byRadius_le in L; try assumption. congruence. }
      constructor; [now apply IH|].
      eapply Permutation_Forall; [symmetry; apply sortInsert_perm|].
      now constructor.
Qed.

Lemma sort_sorted (l : list (string * Player.t)) :
  radiiAreDoubles l -> StronglySorted radiusLe (sort byRadius l).
Proof.
  induction l as [|a l IH]; simpl; intro D; [constructor|].
  inversion D as [|? ? Da Dl]; subst.
  apply sortInsert_sorted; [|now apply IH].
  constructor; [assumption|].
  eapply Permutation_Forall; [symmetry; apply sort_perm | assumption].
Qed.

Lemma sorted_nth (l : list (string * Player.t)) :
  StronglySorted radiusLe l ->
  forall i j a b,
    nth_error l i = Some a -> nth_error l j = Some b -> (i < j)%nat ->
    radiusLe a b.
Proof.
  induction 1 as [|c l S IH F]; intros i j a b Hi Hj L.
  - destruct i; discriminate.
  - destruct j as [|j]; [lia|]. simpl in Hj. destruct i as [|i]; simpl in Hi.
    + injection Hi as <-. rewrite Forall_forall in F. apply F.
      eapply nth_error_In; eassumption.
    + apply (IH i j); auto. lia.
Qed.

Lemma sortedPlayers_perm (players : JsMap.t string Player.t) :
  Permutation (sortedPlayers players)
    (filter (fun e => Player.online (snd e)) (JsMap.entries players)).
Proof. apply sort_perm. Qed.

Lemma sortedPlayers_In (players : JsMap.t string Player.t) k p :
  In (k, p) (sortedPlayers players) <->
  In (k, p) players /\ Player.online p = true.
Proof.
  split.
  - intro I. apply (Permutation_in _ (sortedPlayers_perm players)) in I.
    apply filter_In in I. exact I.
  - intro I. apply (Permutation_in _ (Permutation_sym (sortedPlayers_perm players))).
    apply filter_In. exact I.
Qed.

Lemma NoDup_keys_filter {V} (f : string * V -> bool) (m : JsMap.t string V) :
  JsMap.wf m -> NoDup (map fst (filter f m)).
Proof.
  unfold JsMap.wf, JsMap.keys. induction m as [|e m IH]; simpl; intro D.
  - constructor.
  - inversion D as [|? ? N D']; subst. destruct (f e); simpl; [|auto].
    constructor; [|auto]. rewrite in_map_iff. intros (e' & E & I).
    apply filter_In in I. apply N. rewrite <- E. apply in_map. tauto.
Qed.

Lemma sortedPlayers_NoDup (players : JsMap.t string Player.t) :
  JsMap.wf players -> NoDup (map fst (sortedPlayers players)).
Proof.
  intro W.
  eapply Permutation_NoDup.
  - apply Permutation_map, Permutation_sym, sortedPlayers_perm.
  - now apply NoDup_keys_filter.
Qed.

Lemma sortedPlayers_order (players : JsMap.t string Player.t) :
  radiiAreDoubles
    (filter (fun e => Player.online (snd e)) (JsMap.entries players)) ->
  forall i j e1 e2,
    nth_error (sortedPlayers players) i = Some e1 ->
    nth_error (sortedPlayers players) j = Some e2 ->
    Player.radius (snd e1) < Player.radius (snd e2) -> (i < j)%nat.
Proof.
  intros D i j e1 e2 H1 H2 L.
  destruct (Nat.lt_trichotomy i j) as [?|[E|G]]; [assumption| |].
  - subst j. rewrite H1 in H2. injection H2 as <-.
    destruct (Player.radius (snd e1)); cbn [numLt] in L; [tauto|].
    now apply Qlt_irrefl in L.
  - pose proof (sorted_nth _ (sort_sorted _ D) j i e2 e1 H2 H1 G) as R.
    unfold radiusLe in R.
    destruct (Player.radius (snd e1)), (Player.radius (snd e2));
      cbn [numLt numLe] in *; try tauto.
    exfalso. apply (Qlt_irrefl q). now apply Qlt_le_trans with q0.
Qed.
(* ================================================================= *)
(** ** One step of the players effect *)

Lemma sameColor_true (a b : Color.t) :
  sameColor a b = true <-> sameComponents a b /\ plainColor a.
Proof.
  unfold sameColor, sameComponents, plainColor.
  rewrite !andb_true_iff, !strictEq_true. tauto.
Qed.

Lemma sameComponents_refl (c : Color.t) : sameComponents c c.
Proof. repeat split; apply numEq_refl. Qed.

Lemma radiusCached_quiet (mesh : Mesh.t) (p : Player.t) :
  radiusCached mesh p -> Number_isNaN (Player.radius p) = false ->
  radiusChanged mesh p = false.
Proof.
  intros (r & E & S) N. unfold radiusChanged. rewrite E.
  apply negb_false_iff, strictEq_true. split; [assumption|].
  destruct r, (Player.radius p); simpl in *; tauto || discriminate || reflexivity.
Qed.

Lemma colorCached_quiet (mesh : Mesh.t) (p : Player.t) :
  colorCached mesh p -> plainColor (Player.color p) ->
  colorChanged mesh p = false.
Proof.
  intros (c & E & S1 & S2 & S3) (N1 & N2 & N3). unfold colorChanged. rewrite E.
  apply negb_false_iff, sameColor_true. split; [repeat split; assumption|].
  unfold plainColor.
  destruct (Color.r c), (Color.r (Player.color p)),
    (Color.g c), (Color.g (Player.color p)),
    (Color.b c), (Color.b (Player.color p)); simpl in *;
    tauto || discriminate || auto.
Qed.

Lemma radiusChanged_cached (mesh : Mesh.t) (p : Player.t) :
  radiusChanged mesh p = false -> radiusCached mesh p.
Proof.
  unfold radiusChanged, radiusCached.
  destruct (Mesh.currentRadius mesh) as [r|]; [|discriminate].
  intro H. apply negb_false_iff, strictEq_numEq in H. now exists r.
Qed.

Lemma colorChanged_cached (mesh : Mesh.t) (p : Player.t) :
  colorChanged mesh p = false -> colorCached mesh p.
Proof.
  unfold colorChanged, colorCached.
  destruct (Mesh.currentColor mesh) as [c|]; [|discriminate].
  intro H. apply negb_false_iff, sameColor_true in H. exists c. tauto.
Qed.

Lemma rebuildOutline_spec (radius : number) (cs : list Child) (w : World) :
  playerMeshesRef (snd (rebuildOutline radius cs w)) = playerMeshesRef w /\
  myPlayerRef (snd (rebuildOutline radius cs w)) = myPlayerRef w /\
  exists ops,
    calls (snd (rebuildOutline radius cs w)) = calls w ++ ops /\
    forallb isGeometryCall ops = true.
Proof.
  revert w. induction cs as [|c cs IH]; intro w; simpl.
  - repeat split. exists []. now rewrite app_nil_r.
  - destruct (String.eqb (child_name c) "outline").
    + simpl. repeat split.
      eexists [_; _]. split; [rewrite <- app_assoc; reflexivity | reflexivity].
    + specialize (IH w).
      destruct (rebuildOutline radius cs w) as [cs'' w'']. exact IH.
Qed.

Lemma rebuildGeometry_spec (me playerId : string) (player : Player.t)
  (mesh : Mesh.t) (w : World) :
  let r := rebuildGeometry me playerId player mesh w in
  playerMeshesRef (snd r) = playerMeshesRef w /\
  myPlayerRef (snd r) = myPlayerRef w /\
  Mesh.id (fst r) = Mesh.id mesh /\
  Mesh.material (fst r) = Mesh.material mesh /\
  Mesh.currentRadius (fst r) = Mesh.currentRadius mesh /\
  Mesh.currentColor (fst r) = Mesh.currentColor mesh /\
  exists g ops,
    calls (snd r) =
    calls w ++
    GeometryDispose (geometry_id (Mesh.geometry mesh)) :: NewGeometry g :: ops /\
    forallb isGeometryCall ops = true.
Proof.
  unfold rebuildGeometry. simpl.
  destruct (String.eqb playerId me).
  - match goal with
    | |- context [rebuildOutline ?r ?cs ?w0] =>
        pose proof (rebuildOutline_spec r cs w0) as (Hm & Hp & ops & Hc & Ho);
        destruct (rebuildOutline r cs w0) as [cs' w']
    end.
    simpl in *. repeat split; try assumption.
    eexists _, ops. split; [|exact Ho].
    rewrite Hc, <- !app_assoc. reflexivity.
  - simpl. repeat split. eexists _, []. split; [|reflexivity].
    rewrite <- app_assoc. reflexivity.
Qed.

Lemma updatePlayerMesh_spec (me playerId : string) (player : Player.t)
  (mesh : Mesh.t) (w : World) :
  let r := updatePlayerMesh me playerId player mesh w in
  playerMeshesRef (snd r) = playerMeshesRef w /\
  myPlayerRef (snd r) = myPlayerRef w /\
  Mesh.id (fst r) = Mesh.id mesh /\
  radiusCached (fst r) player /\
  colorCached (fst r) player /\
  exists gops cops,
    calls (snd r) = calls w ++ gops ++ cops /\
    forallb isGeometryCall gops = true /\
    existsb isNewGeometry gops = radiusChanged mesh player /\
    (radiusChanged mesh player = false -> gops = []) /\
    cops = (if colorChanged mesh player
            then [SetRGB (material_id (Mesh.material mesh))
                    (rgb (Player.color player))]
            else []) /\
    (radiusChanged mesh player = false ->
     Mesh.currentRadius (fst r) = Mesh.currentRadius mesh) /\
    (radiusChanged mesh player = false -> colorChanged mesh player = false ->
     fst r = mesh).
Proof.
  unfold updatePlayerMesh.
  assert (CC : forall m, Mesh.currentColor m = Mesh.currentColor mesh ->
                         colorChanged m player = colorChanged mesh player).
  { intros m E. unfold colorChanged. now rewrite E. }
  destruct (radiusChanged mesh player) eqn:R.
  - rewrite (CC (Mesh.setCurrentRadius _ mesh) eq_refl).
    set (mesh1 := if colorChanged mesh player then _ else _).
    pose proof (rebuildGeometry_spec me playerId player mesh1 w)
      as (Hm & Hp & Hi & Hmat & Hr & Hcol & g & ops & Hc & Ho).
    destruct (rebuildGeometry me playerId player mesh1 w) as [mesh2 w2].
    simpl in Hm, Hp, Hi, Hmat, Hr, Hcol, Hc.
    assert (R1 : Mesh.currentRadius mesh1 = Some (Player.radius player)).
    { unfold mesh1. destruct (colorChanged mesh player); reflexivity. }
    assert (I1 : Mesh.id mesh1 = Mesh.id mesh).
    { unfold mesh1. destruct (colorChanged mesh player); reflexivity. }
    assert (M1 : Mesh.material mesh1 = Mesh.material mesh).
    { unfold mesh1. destruct (colorChanged mesh player); reflexivity. }
    assert (G1 : Mesh.geometry mesh1 = Mesh.geometry mesh).
    { unfold mesh1. destruct (colorChanged mesh player); reflexivity. }
    destruct (colorChanged mesh player) eqn:C; simpl.
    + repeat split; try congruence.
      * exists (Player.radius player). simpl. rewrite Hr, R1.
        split; [reflexivity | apply numEq_refl].
      * exists (Player.color player). simpl. rewrite Hcol. unfold mesh1.
        split; [reflexivity | apply sameComponents_refl].
      * eexists (_ :: _ :: ops), _.
        split; [rewrite Hc, <- app_assoc; simpl; rewrite Hmat, M1; reflexivity|].
        repeat split; solve [exact Ho | reflexivity | intros; discriminate].
    + repeat split; try congruence.
      * exists (Player.radius player). rewrite Hr, R1.
        split; [reflexivity | apply numEq_refl].
      * destruct (colorChanged_cached _ _ C) as (c & Ec & Sc).
        exists c. rewrite Hcol. unfold mesh1. now split.
      * eexists (_ :: _ :: ops), [].
        split; [rewrite Hc, app_nil_r; reflexivity|].
        repeat split; solve [exact Ho | reflexivity | intros; discriminate].
  - destruct (colorChanged mesh player) eqn:C; simpl.
    + repeat split.
      * destruct (radiusChanged_cached _ _ R) as (r & Er & Sr). now exists r.
      * exists (Player.color player). simpl.
        split; [reflexivity | apply sameComponents_refl].
      * eexists [], [_]. split; [reflexivity|].
        repeat split; solve [reflexivity | intros; discriminate].
    + repeat split.
      * now apply radiusChanged_cached.
      * now apply colorChanged_cached.
      * exists [], []. split; [now rewrite app_nil_r|].
        repeat split; reflexivity.
Qed.

Lemma createPlayerMesh_spec (me playerId : string) (player : Player.t)
  (w : World) :
  let r := createPlayerMesh me playerId player w in
  playerMeshesRef (snd r) = JsMap.set playerId (fst r) (playerMeshesRef w) /\
  myPlayerRef (snd r) =
    (if String.eqb playerId me then Some player else myPlayerRef w) /\
  radiusCached (fst r) player /\
  colorCached (fst r) player /\
  exists ops,
    calls (snd r) = calls w ++ ops /\
    existsb isPositionSet ops = false /\
    existsb isNewGeometry ops = true /\
    existsb isNewMaterial ops = true.
Proof.
  assert (R : forall m : Mesh.t,
             Mesh.currentRadius m = Some (Player.radius player) ->
             radiusCached m player).
  { intros m E. exists (Player.radius player). split; [assumption|].
    apply numEq_refl. }
  assert (C : forall m : Mesh.t,
             Mesh.currentColor m = Some (Player.color player) ->
             colorCached m player).
  { intros m E. exists (Player.color player). split; [assumption|].
    apply sameComponents_refl. }
  unfold createPlayerMesh. simpl.
  destruct (String.eqb playerId me); simpl;
    (split; [reflexivity|]); (split; [reflexivity|]);
    (split; [now apply R|]); (split; [now apply C|]).
  - eexists [_; _; _; _; _]. rewrite <- !app_assoc. simpl.
    repeat split.
  - eexists [_; _; _]. rewrite <- !app_assoc. simpl. repeat split.
Qed.

Lemma geometryCalls_only (ops : list Call) :
  forallb isGeometryCall ops = true ->
  existsb isNewMaterial ops = false /\ existsb isSetRGB ops = false /\
  existsb isPositionSet ops = false.
Proof.
  induction ops as [|c ops IH]; simpl; [auto|].
  intro F. apply andb_true_iff in F. destruct F as [G F].
  destruct (IH F) as (A & B & C). rewrite A, B, C.
  destruct c; try discriminate G; auto.
Qed.

Lemma upsertPlayer_offline (me : string) (w : World) k p :
  Player.online p = false -> upsertPlayer me w (k, p) = w.
Proof. intro O. unfold upsertPlayer. now rewrite O. Qed.

Lemma upsertPlayer_spec (me : string) (w : World) k p :
  Player.online p = true ->
  let w' := upsertPlayer me w (k, p) in
  exists mesh ops,
    playerMeshesRef w' = JsMap.set k mesh (playerMeshesRef w) /\
    calls w' = calls w ++ ops ++ [PositionSet (Mesh.id mesh) (playerPoint p)] /\
    existsb isPositionSet ops = false /\
    radiusCached mesh p /\
    colorCached mesh p /\
    match JsMap.get k (playerMeshesRef w) with
    | None =>
        myPlayerRef w' = (if String.eqb k me then Some p else myPlayerRef w)
    | Some mesh0 =>
        myPlayerRef w' = myPlayerRef w /\
        Mesh.id mesh = Mesh.id mesh0 /\
        existsb isNewMaterial ops = false /\
        existsb isNewGeometry ops = radiusChanged mesh0 p /\
        existsb isSetRGB ops = colorChanged mesh0 p /\
        (radiusChanged mesh0 p = false ->
         forallb isSetRGB ops = true /\
         Mesh.currentRadius mesh = Mesh.currentRadius mesh0) /\
        (radiusChanged mesh0 p = false -> colorChanged mesh0 p = false ->
         ops = [] /\ mesh = Mesh.setPosition (playerPoint p) mesh0)
    end.
Proof.
  intro O. unfold upsertPlayer. rewrite O. cbv [negb].
  destruct (JsMap.get k (playerMeshesRef w)) as [mesh0|] eqn:G.
  - pose proof (updatePlayerMesh_spec me k p mesh0 w)
      as (Hm & Hp & Hi & Hr & Hc & gops & cops & Hcalls & Hg & Hng & Hnil & Hcops
          & Hkeep & Hsame).
    destruct (updatePlayerMesh me k p mesh0 w) as [m1 w1]. simpl in *.
    destruct (geometryCalls_only _ Hg) as (GM & GS & GP).
    exists (Mesh.setPosition (playerPoint p) m1), (gops ++ cops).
    split; [now rewrite Hm|].
    split; [now rewrite Hcalls, <- !app_assoc|].
    assert (CP : existsb isPositionSet cops = false).
    { rewrite Hcops. destruct (colorChanged mesh0 p); reflexivity. }
    assert (CM : existsb isNewMaterial cops = false).
    { rewrite Hcops. destruct (colorChanged mesh0 p); reflexivity. }
    assert (CG : existsb isNewGeometry cops = false).
    { rewrite Hcops. destruct (colorChanged mesh0 p); reflexivity. }
    assert (CS : existsb isSetRGB cops = colorChanged mesh0 p).
    { rewrite Hcops. destruct (colorChanged mesh0 p); reflexivity. }
    rewrite !existsb_app, GP, CP, GM, CM, Hng, CG, GS, CS, orb_false_r.
    repeat (split; [solve [reflexivity | assumption | apply orb_false_r]|]).
    split.
    + intro R. split; [|exact (Hkeep R)].
      rewrite (Hnil R), Hcops. destruct (colorChanged mesh0 p); reflexivity.
    + intros R C. split.
      * rewrite (Hnil R), Hcops, C. reflexivity.
      * now rewrite (Hsame R C).
  - pose proof (createPlayerMesh_spec me k p w)
      as (Hm & Hp & Hr & Hc & ops & Hcalls & Hpos & _).
    destruct (createPlayerMesh me k p w) as [m1 w1]. simpl in *.
    exists (Mesh.setPosition (playerPoint p) m1), ops.
    split; [now rewrite Hm, set_set|].
    split; [now rewrite Hcalls, <- !app_assoc|].
    repeat split; assumption.
Qed.

(** The step on an online entry, read off the stored meshes. *)
Lemma upsertPlayer_meshes (me : string) (w : World) k p :
  Player.online p = true ->
  exists mesh,
    playerMeshesRef (upsertPlayer me w (k, p))
    = JsMap.set k mesh (playerMeshesRef w) /\
    radiusCached mesh p /\ colorCached mesh p.
Proof.
  intro O. destruct (upsertPlayer_spec me w k p O) as (mesh & ops & H).
  exists mesh. tauto.
Qed.

(* ================================================================= *)
(** ** The two passes of the players effect *)

Section PlayersPasses.
Variable me : string.
Variable players : JsMap.t string Player.t.

Lemma upsertPass_keys l w k :
  allOnline l ->
  In k (JsMap.keys (playerMeshesRef (fold_left (upsertPlayer me) l w))) <->
  In k (JsMap.keys (playerMeshesRef w)) \/ In k (map fst l).
Proof.
  revert w. induction l as [|[k1 p1] l IH]; intros w A; cbn [fold_left map fst In]; [tauto|].
  inversion A as [|? ? O A']; subst. cbn [snd] in O.
  rewrite IH by assumption.
  destruct (upsertPlayer_meshes me w k1 p1 O) as (mesh & -> & _).
  rewrite In_keys_set. intuition.
Qed.

Lemma upsertPass_mono l w k :
  In k (JsMap.keys (playerMeshesRef w)) ->
  In k (JsMap.keys (playerMeshesRef (fold_left (upsertPlayer me) l w))).
Proof.
  revert w. induction l as [|[k1 p1] l IH]; intros w I; cbn [fold_left];
    [assumption|].
  apply IH. destruct (Player.online p1) eqn:O.
  - destruct (upsertPlayer_meshes me w k1 p1 O) as (mesh & -> & _).
    apply In_keys_set. now right.
  - now rewrite upsertPlayer_offline.
Qed.

Lemma upsertPass_frame l w k :
  ~ In k (map fst l) ->
  JsMap.get k (playerMeshesRef (fold_left (upsertPlayer me) l w))
  = JsMap.get k (playerMeshesRef w).
Proof.
  revert w. induction l as [|[k1 p1] l IH]; intros w N; cbn [fold_left map fst In] in *; [reflexivity|].
  rewrite IH by tauto.
  destruct (Player.online p1) eqn:O.
  - destruct (upsertPlayer_meshes me w k1 p1 O) as (mesh & -> & _).
    apply get_set_neq. intro E. apply N. now left.
  - now rewrite upsertPlayer_offline.
Qed.

Lemma upsertPass_cache l w :
  allOnline l -> NoDup (map fst l) ->
  forall k p, In (k, p) l ->
  exists mesh,
    JsMap.get k (playerMeshesRef (fold_left (upsertPlayer me) l w)) = Some mesh /\
    radiusCached mesh p /\ colorCached mesh p.
Proof.
  revert w. induction l as [|[k1 p1] l IH]; intros w A D k p I; [destruct I|].
  inversion A as [|? ? O A']; subst. inversion D as [|? ? N D']; subst.
  cbn [fold_left map fst In snd] in *. destruct I as [E|I].
  - injection E as -> ->. rewrite upsertPass_frame by assumption.
    destruct (upsertPlayer_meshes me w k p O) as (mesh & -> & R & C).
    exists mesh. now rewrite get_set_eq.
  - now apply IH.
Qed.

Lemma meshIdOf_frame l w k :
  ~ In k (map fst l) ->
  meshIdOf k (fold_left (upsertPlayer me) l w) = meshIdOf k w.
Proof. intro N. unfold meshIdOf. now rewrite upsertPass_frame. Qed.

Lemma upsertPass_positions l w :
  allOnline l -> NoDup (map fst l) ->
  filter isPositionSet (calls (fold_left (upsertPlayer me) l w)) =
  filter isPositionSet (calls w) ++
  map (fun e => PositionSet
                  (meshIdOf (fst e) (fold_left (upsertPlayer me) l w))
                  (playerPoint (snd e))) l.
Proof.
  revert w. induction l as [|[k1 p1] l IH]; intros w A D;
    cbn [fold_left map fst snd].
  - now rewrite app_nil_r.
  - inversion A as [|? ? O A']; subst. inversion D as [|? ? N D']; subst.
    cbn [fst snd map] in O, N. rewrite IH by assumption.
    rewrite meshIdOf_frame by assumption.
    destruct (upsertPlayer_spec me w k1 p1 O)
      as (mesh & ops & Hm & Hc & Hp & _).
    assert (F : filter isPositionSet ops = []).
    { clear - Hp. induction ops as [|c ops IH]; simpl in *; [reflexivity|].
      apply orb_false_iff in Hp. destruct Hp as [-> Hp]. auto. }
    replace (meshIdOf k1 (upsertPlayer me w (k1, p1))) with (Mesh.id mesh)
      by (unfold meshIdOf; now rewrite Hm, get_set_eq).
    rewrite Hc, !filter_app, F. cbn [filter isPositionSet app].
    now rewrite <- app_assoc.
Qed.

Lemma upsertPass_quiet l w :
  (forall k p, In (k, p) l ->
     Player.online p = true /\
     exists mesh, JsMap.get k (playerMeshesRef w) = Some mesh /\
                  radiusChanged mesh p = false /\ colorChanged mesh p = false) ->
  exists ops,
    calls (fold_left (upsertPlayer me) l w) = calls w ++ ops /\
    forallb isPositionSet ops = true.
Proof.
  revert w. induction l as [|[k1 p1] l IH]; intros w H; cbn [fold_left].
  - exists []. now rewrite app_nil_r.
  - destruct (H k1 p1 (or_introl eq_refl)) as (O & mesh0 & G & R & C).
    destruct (upsertPlayer_spec me w k1 p1 O)
      as (mesh & ops & Hm & Hc & _ & _ & _ & Hx).
    rewrite G in Hx. destruct Hx as (_ & _ & _ & _ & _ & _ & Hq).
    destruct (Hq R C) as [-> ->].
    destruct (IH (upsertPlayer me w (k1, p1))) as (ops' & Hc' & Hf').
    { intros k p I. destruct (H k p (or_intror I)) as (Op & m & Gm & Rm & Cm).
      split; [assumption|]. rewrite Hm.
      destruct (key_eqb_spec k k1) as [->|Nk].
      - rewrite get_set_eq. rewrite G in Gm. injection Gm as <-.
        eexists. split; [reflexivity|]. split; assumption.
      - rewrite get_set_neq by assumption. exists m. auto. }
    eexists. split.
    + rewrite Hc', Hc. simpl. rewrite <- app_assoc. reflexivity.
    + simpl. exact Hf'.
Qed.

(** A pass over entries whose radius is the cached one: nothing is
    allocated or disposed, the only calls are [setRGB] and [position.set]. *)
Lemma upsertPass_calm l w :
  NoDup (map fst l) ->
  (forall k p, In (k, p) l ->
     Player.online p = true /\
     exists mesh, JsMap.get k (playerMeshesRef w) = Some mesh /\
                  radiusChanged mesh p = false) ->
  exists ops,
    calls (fold_left (upsertPlayer me) l w) = calls w ++ ops /\
    forallb (fun c => isSetRGB c || isPositionSet c) ops = true.
Proof.
  revert w. induction l as [|[k1 p1] l IH]; intros w D H; cbn [fold_left].
  - exists []. now rewrite app_nil_r.
  - inversion D as [|? ? N D']; subst. cbn [map fst] in N.
    destruct (H k1 p1 (or_introl eq_refl)) as (O & mesh0 & G & R).
    destruct (upsertPlayer_spec me w k1 p1 O)
      as (mesh & ops & Hm & Hc & _ & _ & _ & Hx).
    rewrite G in Hx. destruct Hx as (_ & _ & _ & _ & _ & Hq & _).
    destruct (Hq R) as [Hs _].
    destruct (IH (upsertPlayer me w (k1, p1)) D') as (ops' & Hc' & Hf').
    { intros k p I. destruct (H k p (or_intror I)) as (Op & m & Gm & Rm).
      split; [assumption|]. rewrite Hm.
      rewrite get_set_neq; [now exists m|].
      intros <-. apply N. change k with (fst (k, p)). now apply in_map. }
    eexists. split.
    + rewrite Hc', Hc, <- !app_assoc. reflexivity.
    + rewrite !forallb_app, Hf'. cbn [forallb isSetRGB isPositionSet].
      rewrite orb_true_r, !andb_true_r.
      clear - Hs. induction ops as [|c ops IHo]; [reflexivity|].
      cbn [forallb] in *. apply andb_true_iff in Hs. destruct Hs as [-> Hs].
      now rewrite IHo.
Qed.

Lemma upsertPass_myPlayer l w :
  myPlayerRef w = None ->
  myPlayerRef (fold_left (upsertPlayer me) l w) <> None ->
  exists p, In (me, p) l /\ Player.online p = true /\
            JsMap.has me (playerMeshesRef w) = false /\
            JsMap.has me (playerMeshesRef (fold_left (upsertPlayer me) l w)) = true.
Proof.
  revert w. induction l as [|[k1 p1] l IH]; intros w M S;
    cbn [fold_left] in *.
  - congruence.
  - destruct (Player.online p1) eqn:O.
    + destruct (upsertPlayer_spec me w k1 p1 O)
        as (mesh & ops & Hm & _ & _ & _ & _ & Hx).
      destruct (myPlayerRef (upsertPlayer me w (k1, p1))) as [q|] eqn:M1.
      * destruct (JsMap.get k1 (playerMeshesRef w)) eqn:G.
        -- destruct Hx as (Hx & _). congruence.
        -- destruct (String.eqb_spec k1 me) as [->|Nk]; [|congruence].
           exists p1. split; [now left|]. split; [assumption|]. split.
           ++ unfold JsMap.has. now rewrite G.
           ++ apply has_In. apply upsertPass_mono.
              rewrite Hm. apply In_keys_set. now left.
      * destruct (IH _ M1 S) as (p & I & Op & Hb & Hh).
        exists p. split; [now right|]. split; [assumption|].
        split; [|assumption].
        rewrite Hm, has_set in Hb. now apply orb_false_iff in Hb.
    + rewrite upsertPlayer_offline in * by assumption.
      destruct (IH _ M S) as (p & I & Op & Hh).
      exists p. split; [now right | auto].
Qed.

Lemma removeOldPlayerMesh_spec w k mesh :
  let w' := removeOldPlayerMesh players w (k, mesh) in
  playerMeshesRef w' =
    (if JsMap.has k players then playerMeshesRef w
     else JsMap.delete k (playerMeshesRef w)) /\
  myPlayerRef w' = myPlayerRef w /\
  calls w' =
    calls w ++ (if JsMap.has k players then [] else [SceneRemove (Mesh.id mesh)]).
Proof.
  unfold removeOldPlayerMesh.
  destruct (JsMap.has k players); simpl; rewrite ?app_nil_r; auto.
Qed.

Lemma removePass_keys l w k :
  In k (JsMap.keys (playerMeshesRef (fold_left (removeOldPlayerMesh players) l w)))
  <->
  In k (JsMap.keys (playerMeshesRef w)) /\
  (JsMap.has k players = true \/ ~ In k (map fst l)).
Proof.
  revert w. induction l as [|[k1 m1] l IH]; intro w; cbn [fold_left map fst In].
  - tauto.
  - rewrite IH.
    destruct (removeOldPlayerMesh_spec w k1 m1) as (-> & _).
    destruct (JsMap.has k1 players) eqn:H1.
    + split; [|tauto]. intros [I [Hh|N]]; [tauto|].
      split; [assumption|].
      destruct (key_eqb_spec k1 k) as [<-|Nk]; [now left | right; tauto].
    + rewrite In_keys_delete. split.
      * intros [[I Nk] [Hh|N]]; split; auto. right. intuition.
      * intros [I [Hh|N]].
        -- split; [|now left]. split; [assumption|]. congruence.
        -- split; [|tauto]. split; [assumption|]. intuition.
Qed.

Lemma removePass_get l w k :
  JsMap.has k players = true ->
  JsMap.get k (playerMeshesRef (fold_left (removeOldPlayerMesh players) l w))
  = JsMap.get k (playerMeshesRef w).
Proof.
  intro Hk. revert w. induction l as [|[k1 m1] l IH]; intro w; cbn [fold_left].
  - reflexivity.
  - rewrite IH. destruct (removeOldPlayerMesh_spec w k1 m1) as (-> & _).
    destruct (JsMap.has k1 players) eqn:H1; [reflexivity|].
    apply get_delete_neq. congruence.
Qed.

Lemma removePass_myPlayer l w :
  myPlayerRef (fold_left (removeOldPlayerMesh players) l w) = myPlayerRef w.
Proof.
  revert w. induction l as [|[k1 m1] l IH]; intro w; cbn [fold_left].
  - reflexivity.
  - rewrite IH. apply removeOldPlayerMesh_spec.
Qed.

Lemma removePass_calls l w :
  exists ops,
    calls (fold_left (removeOldPlayerMesh players) l w) = calls w ++ ops /\
    forallb isSceneRemove ops = true.
Proof.
  revert w. induction l as [|[k1 m1] l IH]; intro w; cbn [fold_left].
  - exists []. now rewrite app_nil_r.
  - destruct (IH (removeOldPlayerMesh players w (k1, m1))) as (ops & Hc & Hf).
    destruct (removeOldPlayerMesh_spec w k1 m1) as (_ & _ & Hc1).
    rewrite Hc, Hc1, <- app_assoc. eexists. split; [reflexivity|].
    rewrite forallb_app, Hf. destruct (JsMap.has k1 players); reflexivity.
Qed.

Lemma removePass_removed l w k mesh :
  In (k, mesh) l -> JsMap.has k players = false ->
  In (SceneRemove (Mesh.id mesh))
     (calls (fold_left (removeOldPlayerMesh players) l w)).
Proof.
  revert w. induction l as [|[k1 m1] l IH]; intros w I Hk; [destruct I|].
  cbn [fold_left]. destruct I as [E|I]; [|now apply IH].
  injection E as -> ->.
  destruct (removePass_calls l (removeOldPlayerMesh players w (k, mesh)))
    as (ops & -> & _).
  destruct (removeOldPlayerMesh_spec w k mesh) as (_ & _ & ->).
  rewrite Hk, !in_app_iff. simpl. tauto.
Qed.

Lemma removePass_id l w :
  (forall k mesh, In (k, mesh) l -> JsMap.has k players = true) ->
  fold_left (removeOldPlayerMesh players) l w = w.
Proof.
  revert w. induction l as [|[k1 m1] l IH]; intros w H; cbn [fold_left].
  - reflexivity.
  - assert (E : removeOldPlayerMesh players w (k1, m1) = w).
    { unfold removeOldPlayerMesh. now rewrite (H k1 m1 (or_introl eq_refl)). }
    rewrite E. apply IH. intros k mesh I. apply (H k mesh). now right.
Qed.

Lemma sortedPlayers_online : allOnline (sortedPlayers players).
Proof.
  apply Forall_forall. intros [k p] I. apply sortedPlayers_In in I. tauto.
Qed.

(** The keys of the mesh map after the players effect: the old keys still
    in the store, and the keys of the online players. *)
Lemma playersEffect_keys w k :
  sceneRef w <> None ->
  In k (JsMap.keys (playerMeshesRef (playersEffect me players w))) <->
  (In k (JsMap.keys (playerMeshesRef w)) /\ JsMap.has k players = true) \/
  (exists p, In (k, p) players /\ Player.online p = true).
Proof.
  intro Sc. unfold playersEffect. destruct (sceneRef w); [clear Sc|congruence].
  rewrite upsertPass_keys by apply sortedPlayers_online.
  rewrite removePass_keys.
  assert (E : In k (map fst (sortedPlayers players)) <->
              exists p, In (k, p) players /\ Player.online p = true).
  { rewrite in_map_iff. split.
    - intros ([k' p] & <- & I). apply sortedPlayers_In in I. now exists p.
    - intros (p & I). exists (k, p). split; [reflexivity|].
      now apply sortedPlayers_In. }
  rewrite E. unfold JsMap.entries, JsMap.keys. tauto.
Qed.

Lemma playersEffect_myPlayer w :
  JsMap.wf players ->
  myPlayerRef w = None ->
  myPlayerRef (playersEffect me players w) <> None ->
  exists p,
    JsMap.get me players = Some p /\ Player.online p = true /\
    JsMap.has me (playerMeshesRef w) = false /\
    JsMap.has me (playerMeshesRef (playersEffect me players w)) = true.
Proof.
  intros W M S. unfold playersEffect in *.
  destruct (sceneRef w); [|congruence].
  apply upsertPass_myPlayer in S; [|now rewrite removePass_myPlayer].
  destruct S as (p & I & O & Hb & Ha).
  apply sortedPlayers_In in I. destruct I as [I _].
  exists p. split; [now apply In_get|]. split; [assumption|].
  split; [|assumption].
  unfold JsMap.has in Hb |- *. rewrite removePass_get in Hb; [assumption|].
  apply has_In. change me with (fst (me, p)). now apply in_map.
Qed.

End PlayersPasses.

(* ================================================================= *)
(** ** The two passes of the food effect *)

Section FoodPasses.
Variable ids : list Z.

Lemma removeOldFoodMesh_spec w k mesh :
  let w' := removeOldFoodMesh ids w (k, mesh) in
  foodMeshesRef w' =
    (if existsb (Z.eqb k) ids then foodMeshesRef w
     else JsMap.delete k (foodMeshesRef w)) /\
  playerMeshesRef w' = playerMeshesRef w /\
  myPlayerRef w' = myPlayerRef w /\
  calls w' =
    calls w ++
    (if existsb (Z.eqb k) ids then []
     else [SceneRemove (Mesh.id mesh);
           GeometryDispose (geometry_id (Mesh.geometry mesh));
           MaterialDispose (material_id (Mesh.material mesh))]).
Proof.
  unfold removeOldFoodMesh.
  destruct (existsb (Z.eqb k) ids); simpl; rewrite ?app_nil_r, <- ?app_assoc;
    auto.
Qed.

Lemma foodRemovePass_keys l w k :
  In k (JsMap.keys (foodMeshesRef (fold_left (removeOldFoodMesh ids) l w)))
  <->
  In k (JsMap.keys (foodMeshesRef w)) /\ (In k ids \/ ~ In k (map fst l)).
Proof.
  revert w. induction l as [|[k1 m1] l IH]; intro w; cbn [fold_left map fst In].
  - tauto.
  - rewrite IH.
    destruct (removeOldFoodMesh_spec w k1 m1) as (-> & _).
    destruct (existsb (Z.eqb k1) ids) eqn:H1.
    + apply existsb_eqb_In in H1. split; [|tauto].
      intros [I [Hh|N]]; [tauto|]. split; [assumption|].
      destruct (Z.eq_dec k1 k) as [<-|Nk]; [now left | right; tauto].
    + assert (N1 : ~ In k1 ids) by (rewrite <- existsb_eqb_In; congruence).
      rewrite In_keys_delete. split.
      * intros [[I Nk] [Hh|N]]; split; auto. right. intuition.
      * intros [I [Hh|N]].
        -- split; [|now left]. split; [assumption|]. congruence.
        -- split; [|tauto]. split; [assumption|]. intuition.
Qed.

Lemma foodRemovePass_frame l w :
  playerMeshesRef (fold_left (removeOldFoodMesh ids) l w) = playerMeshesRef w /\
  myPlayerRef (fold_left (removeOldFoodMesh ids) l w) = myPlayerRef w.
Proof.
  revert w. induction l as [|[k1 m1] l IH]; intro w; cbn [fold_left].
  - auto.
  - destruct (IH (removeOldFoodMesh ids w (k1, m1))) as [-> ->].
    destruct (removeOldFoodMesh_spec w k1 m1) as (_ & -> & -> & _). auto.
Qed.

Lemma foodRemovePass_calls l w :
  exists ops,
    calls (fold_left (removeOldFoodMesh ids) l w) = calls w ++ ops /\
    existsb isAllocation ops = false /\ existsb isPositionSet ops = false.
Proof.
  revert w. induction l as [|[k1 m1] l IH]; intro w; cbn [fold_left].
  - exists []. now rewrite app_nil_r.
  - destruct (IH (removeOldFoodMesh ids w (k1, m1))) as (ops & Hc & Ha & Hp).
    destruct (removeOldFoodMesh_spec w k1 m1) as (_ & _ & _ & Hc1).
    rewrite Hc, Hc1, <- app_assoc. eexists. split; [reflexivity|].
    rewrite !existsb_app, Ha, Hp.
    destruct (existsb (Z.eqb k1) ids); auto.
Qed.

Lemma foodRemovePass_disposed l w k mesh :
  In (k, mesh) l -> ~ In k ids ->
  let after := calls (fold_left (removeOldFoodMesh ids) l w) in
  In (SceneRemove (Mesh.id mesh)) after /\
  In (GeometryDispose (geometry_id (Mesh.geometry mesh))) after /\
  In (MaterialDispose (material_id (Mesh.material mesh))) after.
Proof.
  revert w. induction l as [|[k1 m1] l IH]; intros w I Nk; [destruct I|].
  cbn [fold_left]. destruct I as [E|I]; [|now apply IH].
  injection E as -> ->.
  destruct (foodRemovePass_calls l (removeOldFoodMesh ids w (k, mesh)))
    as (ops & Hc & _).
  destruct (removeOldFoodMesh_spec w k mesh) as (_ & _ & _ & Hc1).
  assert (Hx : existsb (Z.eqb k) ids = false).
  { destruct (existsb (Z.eqb k) ids) eqn:X; [|reflexivity].
    apply existsb_eqb_In in X. tauto. }
  rewrite Hx in Hc1. cbv zeta. rewrite Hc, Hc1, !in_app_iff. simpl. tauto.
Qed.

Lemma foodRemovePass_id l w :
  (forall k mesh, In (k, mesh) l -> In k ids) ->
  fold_left (removeOldFoodMesh ids) l w = w.
Proof.
  revert w. induction l as [|[k1 m1] l IH]; intros w H; cbn [fold_left].
  - reflexivity.
  - assert (E : removeOldFoodMesh ids w (k1, m1) = w).
    { unfold removeOldFoodMesh.
      now rewrite (proj2 (existsb_eqb_In k1 ids) (H k1 m1 (or_introl eq_refl))). }
    rewrite E. apply IH. intros k mesh I. apply (H k mesh). now right.
Qed.

End FoodPasses.

Lemma upsertFood_spec (w : World) (f : Food.t) :
  let w' := upsertFood w f in
  exists mesh ops,
    foodMeshesRef w' = JsMap.set (Food.id f) mesh (foodMeshesRef w) /\
    playerMeshesRef w' = playerMeshesRef w /\
    myPlayerRef w' = myPlayerRef w /\
    calls w' = calls w ++ ops ++
               [PositionSet (Mesh.id mesh)
                  (Position.x (Food.position f), Position.y (Food.position f),
                   - (1 # 2))] /\
    (JsMap.has (Food.id f) (foodMeshesRef w) = true -> ops = []).
Proof.
  unfold upsertFood, JsMap.has.
  destruct (JsMap.get (Food.id f) (foodMeshesRef w)) as [mesh0|] eqn:G.
  - eexists _, []. simpl. repeat split.
  - unfold createFoodMesh. simpl. eexists _, [_; _; _].
    rewrite set_set, <- !app_assoc. simpl. repeat split. discriminate.
Qed.

Lemma foodUpsertPass_keys (l : list Food.t) (w : World) (k : Z) :
  In k (JsMap.keys (foodMeshesRef (fold_left upsertFood l w))) <->
  In k (JsMap.keys (foodMeshesRef w)) \/ In k (foodIds l).
Proof.
  revert w. induction l as [|f l IH]; intro w; cbn [fold_left foodIds map In].
  - tauto.
  - rewrite IH. destruct (upsertFood_spec w f) as (mesh & ops & -> & _).
    rewrite In_keys_set. unfold foodIds. intuition.
Qed.

Lemma foodUpsertPass_frame (l : list Food.t) (w : World) :
  playerMeshesRef (fold_left upsertFood l w) = playerMeshesRef w /\
  myPlayerRef (fold_left upsertFood l w) = myPlayerRef w.
Proof.
  revert w. induction l as [|f l IH]; intro w; cbn [fold_left].
  - auto.
  - destruct (IH (upsertFood w f)) as [-> ->].
    destruct (upsertFood_spec w f) as (mesh & ops & _ & -> & -> & _). auto.
Qed.

Lemma foodUpsertPass_quiet (l : list Food.t) (w : World) :
  (forall f, In f l -> In (Food.id f) (JsMap.keys (foodMeshesRef w))) ->
  exists ops,
    calls (fold_left upsertFood l w) = calls w ++ ops /\
    forallb isPositionSet ops = true.
Proof.
  revert w. induction l as [|f l IH]; intros w H; cbn [fold_left].
  - exists []. now rewrite app_nil_r.
  - destruct (upsertFood_spec w f) as (mesh & ops & Hm & _ & _ & Hc & Hq).
    rewrite Hq in Hc by (apply has_In, H; now left).
    destruct (IH (upsertFood w f)) as (ops' & Hc' & Hf').
    { intros g I. rewrite Hm. apply In_keys_set. right. apply H. now right. }
    rewrite Hc', Hc, <- app_assoc. eexists. split; [reflexivity|].
    simpl. exact Hf'.
Qed.

(** The keys of the mesh map after the food effect are the ids of the
    array. *)
Lemma foodEffect_keys (food : list Food.t) (w : World) (k : Z) :
  sceneRef w <> None ->
  In k (JsMap.keys (foodMeshesRef (foodEffect food w))) <-> In k (foodIds food).
Proof.
  intro Sc. unfold foodEffect. destruct (sceneRef w); [clear Sc|congruence].
  rewrite foodUpsertPass_keys, foodRemovePass_keys.
  unfold JsMap.entries, JsMap.keys. tauto.
Qed.

(** Every food mesh the effect drops was removed from the scene and had its
    geometry and its material disposed. *)
Lemma foodEffect_disposes (food : list Food.t) (w : World) (k : Z)
  (mesh : Mesh.t) :
  sceneRef w <> None ->
  In (k, mesh) (foodMeshesRef w) -> ~ In k (foodIds food) ->
  let after := calls (foodEffect food w) in
  ~ In k (JsMap.keys (foodMeshesRef (foodEffect food w))) /\
  In (SceneRemove (Mesh.id mesh)) after /\
  In (GeometryDispose (geometry_id (Mesh.geometry mesh))) after /\
  In (MaterialDispose (material_id (Mesh.material mesh))) after.
Proof.
  intros Sc I N. cbv zeta. split; [now rewrite foodEffect_keys|].
  unfold foodEffect. destruct (sceneRef w); [clear Sc|congruence].
  pose proof (foodRemovePass_disposed (foodIds food) _ w k mesh I N) as D.
  cbv zeta in D.
  set (w1 := fold_left (removeOldFoodMesh (foodIds food)) _ w) in *.
  assert (M : forall c, In c (calls w1) -> In c (calls (fold_left upsertFood food w1))).
  { clear. generalize w1.
    induction food as [|f l IH]; intros w0 c I; [assumption|].
    cbn [fold_left]. apply IH.
    destruct (upsertFood_spec w0 f) as (mesh0 & ops & _ & _ & _ & -> & _).
    apply in_app_iff. now left. }
  destruct D as (A & B & C). auto.
Qed.

(* ================================================================= *)
(** ** Reconciliation: which meshes exist, and what is disposed *)

(** The mesh of a player whose key is in the store survives the players
    effect, whether the player is online or not. *)
Lemma playersEffect_keeps_stored (me : string)
  (players : JsMap.t string Player.t) (w : World) (k : string) :
  sceneRef w <> None ->
  In k (JsMap.keys (playerMeshesRef w)) -> JsMap.has k players = true ->
  In k (JsMap.keys (playerMeshesRef (playersEffect me players w))).
Proof. intros Sc I H. apply playersEffect_keys; auto. Qed.

(** C1, on the input where the code departs from it: a player that was
    drawn while online and is then reported offline is still in the store,
    is not online, and keeps its mesh after the players effect has run, so
    the mesh keys are not the online keys. *)
Theorem C1_offline_player_keeps_mesh :
  JsMap.get "a11ce"%string (players offlineRun) = Some aliceOffline /\
  Player.online aliceOffline = false /\
  map fst (filter (fun e => Player.online (snd e)) (players offlineRun)) = [] /\
  JsMap.keys (playerMeshesRef (world offlineRun)) = ["a11ce"%string].
Proof. repeat split. Qed.

(** C2, on the input where the code departs from it: when the row of a
    drawn player is deleted, the players effect takes the mesh out of the
    scene and out of the map, but no geometry and no material is ever
    disposed, neither of the mesh nor of its outline; the food effect on
    the same kind of input disposes both. *)
Theorem C2_player_mesh_not_disposed :
  playerMeshesRef (world playerDeleteRun) = JsMap.empty /\
  callsSince (world (initialApp 0)) (world playerDeleteRun) =
    [NewGeometry {| geometry_id := 3; geometry_shape := CircleGeometry 10 32 |};
     NewMaterial {| material_id := 4; material_color := rgb red |};
     NewGeometry {| geometry_id := 6; geometry_shape := RingGeometry 10 (10 + 2) 32 |};
     NewMaterial {| material_id := 7; material_color := white |};
     SceneAdd 5; PositionSet 5 (Num 450, Num 450, Num 0); SceneRemove 5] /\
  filter isDisposal (calls (world playerDeleteRun)) = [] /\
  foodMeshesRef (world foodDeleteRun) = JsMap.empty /\
  filter isDisposal (calls (world foodDeleteRun)) =
    [GeometryDispose 3; MaterialDispose 4].
Proof. repeat split. Qed.

Lemma positionSets_no_allocation (ops : list Call) :
  forallb isPositionSet ops = true ->
  filter isAllocation ops = [] /\ filter isDisposal ops = [].
Proof.
  induction ops as [|c ops IH]; simpl; [auto|].
  intro F. apply andb_true_iff in F. destruct F as [P F].
  destruct (IH F) as [A D]. destruct c; try discriminate P; simpl; auto.
Qed.

Lemma setRGB_positionSets_no_allocation (ops : list Call) :
  forallb (fun c => isSetRGB c || isPositionSet c) ops = true ->
  filter isAllocation ops = [] /\ filter isDisposal ops = [].
Proof.
  induction ops as [|c ops IH]; simpl; [auto|].
  intro F. apply andb_true_iff in F. destruct F as [P F].
  destruct (IH F) as [A D]. destruct c; try discriminate P; simpl; auto.
Qed.

(** The mesh map after the players effect caches every online row. *)
Lemma playersEffect_cache (me : string) (players : JsMap.t string Player.t)
  (w : World) :
  JsMap.wf players -> sceneRef w <> None ->
  forall k p, In (k, p) (sortedPlayers players) ->
  exists mesh,
    JsMap.get k (playerMeshesRef (playersEffect me players w)) = Some mesh /\
    radiusCached mesh p /\ colorCached mesh p.
Proof.
  intros W Sc k p I. unfold playersEffect.
  destruct (sceneRef w); [|congruence].
  apply upsertPass_cache; auto using sortedPlayers_online, sortedPlayers_NoDup.
Qed.

Lemma playersEffect_twice (me : string) (players : JsMap.t string Player.t)
  (w : World) :
  JsMap.wf players -> radiiAreNumbers players ->
  exists ops,
    calls (playersEffect me players (playersEffect me players w))
    = calls (playersEffect me players w) ++ ops /\
    forallb (fun c => isSetRGB c || isPositionSet c) ops = true /\
    (coloursAreNumbers players -> forallb isPositionSet ops = true).
Proof.
  intros W RN. set (w1 := playersEffect me players w).
  destruct (sceneRef w1) eqn:Sc1.
  2:{ exists []. unfold playersEffect at 1. rewrite Sc1, app_nil_r. auto. }
  destruct (sceneRef w) eqn:Sc.
  2:{ exfalso. unfold w1, playersEffect in Sc1. rewrite Sc in Sc1. congruence. }
  assert (K : forall k, In k (JsMap.keys (playerMeshesRef w1)) ->
                        JsMap.has k players = true).
  { intros k I. unfold w1 in I. apply playersEffect_keys in I; [|congruence].
    destruct I as [[_ H]|(p & I & _)]; [assumption|].
    apply has_In. change k with (fst (k, p)). now apply in_map. }
  assert (Cache : forall k p, In (k, p) (sortedPlayers players) ->
                  exists mesh,
                    JsMap.get k (playerMeshesRef w1) = Some mesh /\
                    radiusCached mesh p /\ colorCached mesh p).
  { intros k p I. apply playersEffect_cache; [assumption | congruence | assumption]. }
  unfold playersEffect at 1. rewrite Sc1.
  rewrite removePass_id.
  2:{ intros k mesh I. apply K. change k with (fst (k, mesh)). now apply in_map. }
  destruct (upsertPass_calm me (sortedPlayers players) w1) as (ops & Hc & Hf).
  { now apply sortedPlayers_NoDup. }
  { intros k p I. destruct (Cache k p I) as (mesh & G & R & _).
    apply sortedPlayers_In in I. destruct I as [I O].
    split; [assumption|]. exists mesh. split; [assumption|].
    apply radiusCached_quiet; [assumption|]. now apply (RN k p). }
  exists ops. split; [assumption|]. split; [assumption|].
  intro CN.
  destruct (upsertPass_quiet me (sortedPlayers players) w1) as (ops' & Hc' & Hf').
  { intros k p I. destruct (Cache k p I) as (mesh & G & R & C).
    apply sortedPlayers_In in I. destruct I as [I O].
    split; [assumption|]. exists mesh. split; [assumption|]. split.
    - apply radiusCached_quiet; [assumption|]. now apply (RN k p).
    - apply colorCached_quiet; [assumption|]. now apply (CN k p). }
  rewrite Hc in Hc'. apply app_inv_head in Hc'. now subst ops'.
Qed.

Lemma foodEffect_twice (food : list Food.t) (w : World) :
  exists ops,
    calls (foodEffect food (foodEffect food w))
    = calls (foodEffect food w) ++ ops /\
    forallb isPositionSet ops = true.
Proof.
  set (w1 := foodEffect food w).
  destruct (sceneRef w1) eqn:Sc1.
  2:{ exists []. unfold foodEffect at 1. now rewrite Sc1, app_nil_r. }
  destruct (sceneRef w) eqn:Sc.
  2:{ exfalso. unfold w1, foodEffect in Sc1. rewrite Sc in Sc1. congruence. }
  assert (K : forall k, In k (JsMap.keys (foodMeshesRef w1)) <->
                        In k (foodIds food)).
  { intro k. apply foodEffect_keys. congruence. }
  unfold foodEffect at 1. rewrite Sc1.
  rewrite foodRemovePass_id.
  2:{ intros k mesh I. apply K. change k with (fst (k, mesh)). now apply in_map. }
  apply foodUpsertPass_quiet. intros f I. apply K. now apply in_map.
Qed.


(** C7, refuted as stated: a player whose radius is NaN is in the store,
    online.  Its cached radius never equals its radius, so every run of the
    players effect on the unchanged store disposes the geometry of its mesh
    and allocates a new one. *)
Lemma C7_NaN_radius_rebuilds_every_run :
  let w1 := playersEffect "b0b" ghostPlayers (world (initialApp 0)) in
  let w2 := playersEffect "b0b" ghostPlayers w1 in
  let w3 := playersEffect "b0b" ghostPlayers w2 in
  callsSince w1 w2 =
    [GeometryDispose 3;
     NewGeometry {| geometry_id := 6; geometry_shape := CircleGeometry NaN 32 |};
     PositionSet 5 (Num 0, Num 0, Num 0)] /\
  callsSince w2 w3 =
    [GeometryDispose 6;
     NewGeometry {| geometry_id := 7; geometry_shape := CircleGeometry NaN 32 |};
     PositionSet 5 (Num 0, Num 0, Num 0)] /\
  filter isAllocation (callsSince w1 w2) <> [].
Proof. cbv zeta. split; [|split]; [reflexivity | reflexivity | discriminate]. Qed.

(** C7, amended.  When no online player of the store has a NaN radius, a
    second run of the players effect on the unchanged store allocates and
    disposes nothing: it calls only [setRGB] and [position.set], and only
    [position.set] when no colour component is NaN either.  A second run of
    the food effect calls nothing but [position.set].  For a mesh that
    exists, the players effect allocates a geometry exactly when the radius
    differs ([!==]) from the cached one, recolours the material exactly when
    a colour component differs from the cached one, and never allocates a
    material, while the food effect calls nothing but [position.set]. *)
Theorem C7_no_redundant_rebuild :
  (forall me players w,
      JsMap.wf players -> radiiAreNumbers players ->
      exists ops,
        calls (playersEffect me players (playersEffect me players w))
        = calls (playersEffect me players w) ++ ops /\
        filter isAllocation ops = [] /\ filter isDisposal ops = [] /\
        forallb (fun c => isSetRGB c || isPositionSet c) ops = true /\
        (coloursAreNumbers players -> forallb isPositionSet ops = true)) /\
  (forall food w,
      exists ops,
        calls (foodEffect food (foodEffect food w))
        = calls (foodEffect food w) ++ ops /\
        forallb isPositionSet ops = true /\ filter isAllocation ops = []) /\
  (forall me w playerId player mesh,
      Player.online player = true ->
      JsMap.get playerId (playerMeshesRef w) = Some mesh ->
      exists ops,
        calls (upsertPlayer me w (playerId, player))
        = calls w ++ ops ++
          [PositionSet (Mesh.id mesh) (playerPoint player)] /\
        existsb isNewGeometry ops = radiusChanged mesh player /\
        existsb isSetRGB ops = colorChanged mesh player /\
        existsb isNewMaterial ops = false) /\
  (forall w foodItem mesh,
      JsMap.get (Food.id foodItem) (foodMeshesRef w) = Some mesh ->
      exists p, calls (upsertFood w foodItem)
                = calls w ++ [PositionSet (Mesh.id mesh) p]).
Proof.
  split; [|split; [|split]].
  - intros me players w W RN.
    destruct (playersEffect_twice me players w W RN) as (ops & Hc & Hf & Hq).
    exists ops. split; [assumption|].
    destruct (setRGB_positionSets_no_allocation _ Hf) as [A D].
    repeat split; assumption.
  - intros food w.
    destruct (foodEffect_twice food w) as (ops & Hc & Hf).
    exists ops. split; [assumption|]. split; [assumption|].
    now apply positionSets_no_allocation.
  - intros me w k p mesh0 O G.
    destruct (upsertPlayer_spec me w k p O)
      as (mesh & ops & _ & Hc & _ & _ & _ & Hx).
    rewrite G in Hx. destruct Hx as (_ & Hi & Hm & Hg & Hs & _).
    exists ops. rewrite <- Hi. auto.
  - intros w f mesh G. unfold upsertFood. rewrite G. simpl.
    eexists. reflexivity.
Qed.

Lemma alicePlayers_entries :
  JsMap.entries alicePlayers = [("a11ce"%string, alice)].
Proof. reflexivity. Qed.

(** C7 on the world where alice is drawn: a second run is quiet, and a
    grown, recoloured alice has her geometry rebuilt and material recoloured. *)
Lemma C7_no_redundant_rebuild_witness :
  (exists ops,
      calls (playersEffect "a11ce" alicePlayers
               (playersEffect "a11ce" alicePlayers aliceWorld))
      = calls (playersEffect "a11ce" alicePlayers aliceWorld) ++ ops /\
      filter isAllocation ops = [] /\ filter isDisposal ops = [] /\
      forallb isPositionSet ops = true) /\
  (exists ops,
      calls (upsertPlayer "a11ce" aliceWorld ("a11ce"%string, aliceGrown))
      = calls aliceWorld ++ ops ++ [PositionSet 5 (playerPoint aliceGrown)] /\
      existsb isNewGeometry ops = true /\
      existsb isSetRGB ops = true /\
      existsb isNewMaterial ops = false).
Proof.
  destruct C7_no_redundant_rebuild as (P & _ & U & _).
  split.
  - destruct (P "a11ce"%string alicePlayers aliceWorld)
      as (ops & Hc & Ha & Hd & _ & Hq).
    + unfold JsMap.wf. simpl. repeat constructor. simpl. tauto.
    + intros k p I _. rewrite alicePlayers_entries in I.
      destruct I as [E|[]]. injection E as <- <-. reflexivity.
    + exists ops. repeat split; try assumption. apply Hq.
      intros k p I _. rewrite alicePlayers_entries in I.
      destruct I as [E|[]]. injection E as <- <-. repeat split.
  - apply (U "a11ce"%string aliceWorld "a11ce"%string aliceGrown
             (Mesh.mk 5
                {| geometry_id := 3; geometry_shape := CircleGeometry 10 32 |}
                {| material_id := 4; material_color := rgb red |}
                (Num 450, Num 450, Num 0)
                [{| child_name := "outline";
                    child_geometry :=
                      {| geometry_id := 6;
                         geometry_shape := RingGeometry 10 (10 + 2) 32 |};
                    child_material :=
                      {| material_id := 7; material_color := white |} |}]
                (Some (Num 10)) (Some red))); reflexivity.
Defined.

(** C8: with a scene, the effects run their removal loop on an empty
    snapshot: every mesh owned before is taken out of the scene (and, for
    food, its geometry and material disposed), the mesh map of the kind is
    empty afterwards, and a further run on the same empty snapshot changes
    nothing at all. *)
Theorem C8_empty_snapshot (me : string) (w : World) :
  sceneRef w <> None ->
  foodMeshesRef (foodEffect [] w) = JsMap.empty /\
  playerMeshesRef (playersEffect me JsMap.empty w) = JsMap.empty /\
  (forall k mesh,
      In (k, mesh) (JsMap.entries (foodMeshesRef w)) ->
      In (SceneRemove (Mesh.id mesh)) (calls (foodEffect [] w)) /\
      In (GeometryDispose (geometry_id (Mesh.geometry mesh)))
         (calls (foodEffect [] w)) /\
      In (MaterialDispose (material_id (Mesh.material mesh)))
         (calls (foodEffect [] w))) /\
  (forall k mesh,
      In (k, mesh) (JsMap.entries (playerMeshesRef w)) ->
      In (SceneRemove (Mesh.id mesh))
         (calls (playersEffect me JsMap.empty w))) /\
  foodEffect [] (foodEffect [] w) = foodEffect [] w /\
  playersEffect me JsMap.empty (playersEffect me JsMap.empty w)
  = playersEffect me JsMap.empty w.
Proof.
  intro Sc.
  assert (F : foodMeshesRef (foodEffect [] w) = JsMap.empty).
  { apply keys_nil.
    destruct (JsMap.keys (foodMeshesRef (foodEffect [] w))) as [|k ks] eqn:E;
      [reflexivity|].
    exfalso. apply (proj1 (foodEffect_keys [] w k Sc)). rewrite E. now left. }
  assert (P : playerMeshesRef (playersEffect me JsMap.empty w) = JsMap.empty).
  { apply keys_nil.
    destruct (JsMap.keys (playerMeshesRef (playersEffect me JsMap.empty w)))
      as [|k ks] eqn:E; [reflexivity|].
    exfalso.
    assert (I : In k (JsMap.keys
                        (playerMeshesRef (playersEffect me JsMap.empty w))))
      by (rewrite E; now left).
    apply playersEffect_keys in I; [|assumption].
    destruct I as [[_ H]|(p & [] & _)]. discriminate H. }
  split; [exact F|]. split; [exact P|]. split; [|split; [|split]].
  - intros k mesh I.
    destruct (foodEffect_disposes [] w k mesh Sc I) as (_ & A & B & C); auto.
  - intros k mesh I. unfold playersEffect.
    destruct (sceneRef w); [|congruence].
    change (sortedPlayers JsMap.empty) with (@nil (string * Player.t)).
    cbn [fold_left]. now apply (removePass_removed JsMap.empty _ w k mesh I).
  - unfold foodEffect at 1. destruct (sceneRef (foodEffect [] w)); [|reflexivity].
    rewrite F. reflexivity.
  - unfold playersEffect at 1.
    destruct (sceneRef (playersEffect me JsMap.empty w)); [|reflexivity].
    rewrite P. reflexivity.
Qed.

(** C8 on the world where alice is drawn. *)
Lemma C8_empty_snapshot_witness :
  foodMeshesRef (foodEffect [] aliceWorld) = JsMap.empty /\
  playerMeshesRef (playersEffect "a11ce" JsMap.empty aliceWorld) = JsMap.empty /\
  playersEffect "a11ce" JsMap.empty
    (playersEffect "a11ce" JsMap.empty aliceWorld)
  = playersEffect "a11ce" JsMap.empty aliceWorld.
Proof.
  destruct (C8_empty_snapshot "a11ce" aliceWorld) as (F & P & _ & _ & _ & I).
  - discriminate.
  - auto.
Defined.

(* ================================================================= *)
(** ** Order of the upsert pass *)

Lemma rebuildOutline_about (radius : number) (cs : list Child) (w : World) :
  sceneRef (snd (rebuildOutline radius cs w)) = sceneRef w /\
  playerMeshesRef (snd (rebuildOutline radius cs w)) = playerMeshesRef w /\
  exists ops,
    calls (snd (rebuildOutline radius cs w)) = calls w ++ ops /\
    existsb isPositionSet ops = false /\
    forall c, In c ops ->
      match c with
      | GeometryDispose g => In g (flat_map childResources cs)
      | NewGeometry g =>
          In (geometry_id g)
             (flat_map childResources (fst (rebuildOutline radius cs w)))
      | _ => False
      end.
Proof.
  revert w. induction cs as [|c cs IH]; intro w; cbn [rebuildOutline].
  - repeat split. exists []. rewrite app_nil_r. repeat split. intros c [].
  - destruct (String.eqb (child_name c) "outline").
    + cbn. repeat split.
      eexists [_; _]. split; [rewrite <- app_assoc; reflexivity|].
      split; [reflexivity|].
      intros c' [<-|[<-|[]]]; cbn; tauto.
    + specialize (IH w). destruct (rebuildOutline radius cs w) as [cs'' w''].
      cbn [fst snd] in *. destruct IH as (S & P & ops & Hc & Hp & Ha).
      repeat split; try assumption. exists ops. repeat split; try assumption.
      intros c' I. specialize (Ha c' I).
      destruct c'; try contradiction; cbn [flat_map]; apply in_or_app;
        now right.
Qed.

(** One step of the upsert pass on an online entry, by its calls. *)
Lemma upsertPlayer_block (me : string) (w : World) (k : string)
  (p : Player.t) :
  Player.online p = true ->
  let w' := upsertPlayer me w (k, p) in
  exists m ops,
    playerMeshesRef w' = JsMap.set k m (playerMeshesRef w) /\
    calls w' = calls w ++ ops ++ [PositionSet (Mesh.id m) (playerPoint p)] /\
    existsb isPositionSet ops = false /\
    Forall (callAbout (JsMap.get k (playerMeshesRef w)) m) ops /\
    (JsMap.get k (playerMeshesRef w) = None ->
     In (SceneAdd (Mesh.id m)) ops) /\
    sceneRef w' =
    match JsMap.get k (playerMeshesRef w) with
    | None => option_map (fun s => s ++ [Mesh.id m]) (sceneRef w)
    | Some _ => sceneRef w
    end.
Proof.
  intro O. cbv zeta. unfold upsertPlayer. rewrite O. cbv [negb].
  destruct (JsMap.get k (playerMeshesRef w)) as [mesh0|] eqn:G.
  2:{ unfold createPlayerMesh. cbn [newGeometry newMaterial].
      destruct (String.eqb k me); cbn -[JsMap.set JsMap.get];
        rewrite set_set.
      - eexists _, [_; _; _; _; _]. split; [reflexivity|].
        split; [rewrite <- !app_assoc; reflexivity|]. split; [reflexivity|].
        split; [|split; [intros _; cbn; tauto | reflexivity]].
        repeat constructor; cbn; tauto.
      - eexists _, [_; _; _]. split; [reflexivity|].
        split; [rewrite <- !app_assoc; reflexivity|]. split; [reflexivity|].
        split; [|split; [intros _; cbn; tauto | reflexivity]].
        repeat constructor; cbn; tauto. }
  unfold updatePlayerMesh.
  destruct (radiusChanged mesh0 p) eqn:R.
  2:{ destruct (colorChanged mesh0 p); cbn -[JsMap.set JsMap.get].
      - eexists _, [_]. split; [reflexivity|].
        split; [rewrite <- !app_assoc; reflexivity|]. split; [reflexivity|].
        split; [|split; [discriminate | reflexivity]].
        repeat constructor.
      - eexists _, []. split; [reflexivity|].
        split; [reflexivity|]. split; [reflexivity|].
        split; [constructor|]. split; [discriminate | reflexivity]. }
  set (m1 := if colorChanged (Mesh.setCurrentRadius _ mesh0) p then _ else _).
  assert (E1 : Mesh.id m1 = Mesh.id mesh0 /\
               Mesh.geometry m1 = Mesh.geometry mesh0 /\
               Mesh.material m1 = Mesh.material mesh0 /\
               Mesh.children m1 = Mesh.children mesh0).
  { unfold m1. destruct (colorChanged _ p); repeat split. }
  destruct E1 as (Ei & Eg & Em & Ec).
  unfold rebuildGeometry. cbn [newGeometry].
  destruct (String.eqb k me).
  - match goal with
    | |- context [rebuildOutline ?r ?cs ?w0] =>
        pose proof (rebuildOutline_about r cs w0)
          as (Hs & Hm & oops & Hc & Hp & Ha);
        destruct (rebuildOutline r cs w0) as [cs' w1]
    end.
    cbn [fst snd] in Hs, Hm, Hc, Ha.
    cbn [Mesh.children Mesh.setGeometry] in Ha. rewrite Ec in Ha.
    cbn [sceneRef playerMeshesRef calls emit bump geometryDispose] in Hs, Hm, Hc.
    assert (About : Forall
              (fun c =>
                 match c with
                 | NewGeometry g => In (geometry_id g) (flat_map childResources cs')
                 | GeometryDispose g =>
                     In g (flat_map childResources (Mesh.children mesh0))
                 | _ => False
                 end) oops).
    { apply Forall_forall. exact Ha. }
    clear Ha.
    destruct (colorChanged _ p); cbn -[JsMap.set JsMap.get].
    + eexists _, (_ :: _ :: oops ++ [_]). split; [rewrite Hm; reflexivity|].
      split; [rewrite Hc; cbn [app]; rewrite <- !app_assoc; cbn [app];
              reflexivity|].
      split; [cbn; rewrite existsb_app, Hp; reflexivity|].
      split; [|split; [discriminate | exact Hs]].
      constructor; [exists mesh0; split; [reflexivity | now left]|].
      constructor; [now left|]. apply Forall_app. split.
      * eapply Forall_impl; [|exact About]. intros c Hc'.
        destruct c; try contradiction; cbn.
        -- right. right. exact Hc'.
        -- exists mesh0. split; [reflexivity|]. right. right. exact Hc'.
      * constructor; [reflexivity | constructor].
    + eexists _, (_ :: _ :: oops). split; [rewrite Hm; reflexivity|].
      split; [rewrite Hc; cbn [app]; rewrite <- !app_assoc; cbn [app];
              reflexivity|].
      split; [cbn; exact Hp|].
      split; [|split; [discriminate | exact Hs]].
      constructor; [exists mesh0; split; [reflexivity | now left]|].
      constructor; [now left|].
      eapply Forall_impl; [|exact About]. intros c Hc'.
      destruct c; try contradiction; cbn.
      * right. right. exact Hc'.
      * exists mesh0. split; [reflexivity|]. right. right. exact Hc'.
  - destruct (colorChanged _ p); cbn -[JsMap.set JsMap.get].
    + eexists _, [_; _; _]. split; [reflexivity|].
      split; [rewrite <- !app_assoc; reflexivity|]. split; [reflexivity|].
      split; [|split; [discriminate | reflexivity]].
      constructor; [exists mesh0; split; [reflexivity | now left]|].
      constructor; [now left|]. constructor; [reflexivity | constructor].
    + eexists _, [_; _]. split; [reflexivity|].
      split; [rewrite <- !app_assoc; reflexivity|]. split; [reflexivity|].
      split; [|split; [discriminate | reflexivity]].
      constructor; [exists mesh0; split; [reflexivity | now left]|].
      constructor; [now left|]. constructor.
Qed.

Lemma Forall2_impl_In {A B} (P Q : A -> B -> Prop) (l : list A) (bs : list B) :
  (forall a b, In a l -> P a b -> Q a b) -> Forall2 P l bs -> Forall2 Q l bs.
Proof.
  intros H F. induction F as [|a b l bs Pab F IH]; constructor.
  - apply H; [now left | assumption].
  - apply IH. intros a' b' I. apply H. now right.
Qed.

Section UpsertOrder.
Variable me : string.

(** The calls of the upsert pass are the blocks of its entries, one after
    the other in the order of the list. *)
Lemma upsertPass_blocks (l : list (string * Player.t)) (w : World) :
  allOnline l -> NoDup (map fst l) ->
  exists blocks,
    calls (fold_left (upsertPlayer me) l w) = calls w ++ List.concat blocks /\
    Forall2 (entryBlock w (fold_left (upsertPlayer me) l w)) l blocks.
Proof.
  revert w. induction l as [|[k1 p1] l IH]; intros w A D; cbn [fold_left].
  - exists []. split; [now rewrite app_nil_r | constructor].
  - inversion A as [|? ? O A']; subst. inversion D as [|? ? N D']; subst.
    cbn [fst snd map] in O, N.
    destruct (upsertPlayer_block me w k1 p1 O)
      as (m & ops & Hm & Hc & Hp & Ha & Hadd & _).
    set (w1 := upsertPlayer me w (k1, p1)) in *.
    destruct (IH w1 A' D') as (blocks & Hcs & F).
    exists ((ops ++ [PositionSet (Mesh.id m) (playerPoint p1)]) :: blocks).
    split.
    + rewrite Hcs, Hc. cbn [List.concat]. now rewrite <- !app_assoc.
    + constructor.
      * exists m, ops. cbn [fst snd].
        split; [rewrite upsertPass_frame by assumption;
                rewrite Hm; apply get_set_eq|].
        split; [reflexivity|]. split; [assumption|]. split; [|assumption].
        apply Forall_app. split; [assumption|].
        constructor; [reflexivity | constructor].
      * eapply Forall2_impl_In; [|exact F].
        intros [k p] b I (m' & ops' & G' & Eb & Hp' & Ha' & Hadd').
        cbn [fst snd] in *.
        assert (Nk : k <> k1).
        { intros ->. apply N. change k1 with (fst (k1, p)). now apply in_map. }
        rewrite Hm, (get_set_neq _ _ _ _ Nk) in Ha', Hadd'.
        exists m', ops'. cbn [fst snd]. auto.
Qed.

(** The meshes the upsert pass creates enter the scene in the order of the
    list, after what the scene already held. *)
Lemma upsertPass_scene (l : list (string * Player.t)) (w : World) :
  allOnline l -> NoDup (map fst l) ->
  sceneRef (fold_left (upsertPlayer me) l w) =
  option_map
    (fun s =>
       s ++ map (fun e => meshIdOf (fst e) (fold_left (upsertPlayer me) l w))
              (withoutMesh w l))
    (sceneRef w).
Proof.
  revert w. induction l as [|[k1 p1] l IH]; intros w A D;
    cbn [fold_left withoutMesh filter map].
  - destruct (sceneRef w); cbn; [now rewrite app_nil_r | reflexivity].
  - inversion A as [|? ? O A']; subst. inversion D as [|? ? N D']; subst.
    cbn [fst snd map] in O, N.
    destruct (upsertPlayer_block me w k1 p1 O)
      as (m & ops & Hm & _ & _ & _ & _ & Hs).
    set (w1 := upsertPlayer me w (k1, p1)) in *.
    rewrite (IH w1 A' D'). rewrite Hs.
    assert (E : withoutMesh w1 l = withoutMesh w l).
    { unfold withoutMesh. apply filter_ext_in. intros [k p] I. cbn [fst].
      unfold JsMap.has. rewrite Hm, get_set_neq; [reflexivity|].
      intros ->. apply N. change k1 with (fst (k1, p)). now apply in_map. }
    rewrite E. fold (withoutMesh w l). unfold JsMap.has. cbn [fst].
    destruct (JsMap.get k1 (playerMeshesRef w)) eqn:G; cbn [negb].
    + reflexivity.
    + destruct (sceneRef w); cbn [option_map map]; [|reflexivity].
      rewrite <- app_assoc. cbn [app fst]. do 3 f_equal.
      unfold meshIdOf. rewrite upsertPass_frame by assumption.
      now rewrite Hm, get_set_eq.
Qed.

End UpsertOrder.

Lemma removeOldPlayerMesh_scene (players : JsMap.t string Player.t)
  (w : World) (e : string * Mesh.t) (sc : list nat) :
  sceneRef w = Some sc ->
  exists kept,
    sceneRef (removeOldPlayerMesh players w e) = Some kept /\ incl kept sc.
Proof.
  intro S. destruct e as [k mesh]. unfold removeOldPlayerMesh.
  destruct (negb (JsMap.has k players)); cbn.
  - rewrite S. cbn. eexists. split; [reflexivity|].
    intros o I. apply filter_In in I. tauto.
  - exists sc. split; [assumption | apply incl_refl].
Qed.

Lemma removePass_scene (players : JsMap.t string Player.t)
  (l : list (string * Mesh.t)) (w : World) (sc : list nat) :
  sceneRef w = Some sc ->
  exists kept,
    sceneRef (fold_left (removeOldPlayerMesh players) l w) = Some kept /\
    incl kept sc.
Proof.
  revert w sc. induction l as [|e l IH]; intros w sc S; cbn [fold_left].
  - exists sc. split; [assumption | apply incl_refl].
  - destruct (removeOldPlayerMesh_scene players w e sc S) as (k1 & S1 & I1).
    destruct (IH _ _ S1) as (k2 & S2 & I2).
    exists k2. split; [assumption|]. eapply incl_tran; eassumption.
Qed.

(** C9, refuted as stated: with players of radius 5, NaN and 3 in the
    store, in this order, the comparator of the sort returns NaN wherever
    the second is compared, the sort leaves the order as it is, and the
    player of radius 5 is added to the scene and moved before the player of
    radius 3. *)
Lemma C9_NaN_radius_breaks_order :
  let w := world (initialApp 0) in
  let w' := playersEffect "a11ce" nanPlayers w in
  Player.radius tiny < Player.radius quinn /\
  map fst (sortedPlayers nanPlayers) = ["b16"; "9057"; "5ma11"]%string /\
  meshIdOf "b16" w' = 5%nat /\ meshIdOf "5ma11" w' = 11%nat /\
  filter (fun c => isSceneAdd c || isPositionSet c) (callsSince w w') =
  [SceneAdd 5; PositionSet 5 (playerPoint quinn);
   SceneAdd 8; PositionSet 8 (playerPoint ghost);
   SceneAdd 11; PositionSet 11 (playerPoint tiny)].
Proof.
  cbv zeta. split; [vm_compute; reflexivity|]. repeat split.
Qed.

(** C9, amended.  When the radius of every online player is a number (a
    double, not NaN), the entries the upsert pass goes through are the
    online entries of the store, an entry of smaller radius at an earlier
    index than one of larger radius; after the [scene.remove] calls of the
    removal pass, the calls of the effect are the blocks of these entries,
    one after the other in that order, the block of an entry holding every
    call that creates, adds, rebuilds, recolours or moves its mesh; and the
    meshes created enter the scene in that order, after the meshes the
    scene kept. *)
Theorem C9_upsert_order (me : string) (players : JsMap.t string Player.t)
  (w : World) :
  JsMap.wf players -> sceneRef w <> None ->
  radiiAreDoubles
    (filter (fun e => Player.online (snd e)) (JsMap.entries players)) ->
  let order := sortedPlayers players in
  let w' := playersEffect me players w in
  Permutation order
    (filter (fun e => Player.online (snd e)) (JsMap.entries players)) /\
  (forall i j e1 e2,
      nth_error order i = Some e1 -> nth_error order j = Some e2 ->
      Player.radius (snd e1) < Player.radius (snd e2) -> (i < j)%nat) /\
  (exists removals blocks,
      calls w' = calls w ++ removals ++ List.concat blocks /\
      forallb isSceneRemove removals = true /\
      Forall2 (entryBlock w w') order blocks) /\
  (exists old kept,
      sceneRef w = Some old /\ incl kept old /\
      sceneRef w' =
      Some (kept ++ map (fun e => meshIdOf (fst e) w') (withoutMesh w order))).
Proof.
  intros W Sc Dbl order w'. split; [apply sortedPlayers_perm|].
  split; [now apply sortedPlayers_order|].
  destruct (sceneRef w) as [old|] eqn:So; [clear Sc|congruence].
  assert (Ew : w' = fold_left (upsertPlayer me) order
                      (fold_left (removeOldPlayerMesh players)
                         (JsMap.entries (playerMeshesRef w)) w)).
  { unfold w', playersEffect. now rewrite So. }
  set (w0 := fold_left (removeOldPlayerMesh players)
               (JsMap.entries (playerMeshesRef w)) w) in *.
  assert (Keep : forall k p, In (k, p) order ->
                 JsMap.get k (playerMeshesRef w0)
                 = JsMap.get k (playerMeshesRef w)).
  { intros k p I. apply removePass_get.
    apply sortedPlayers_In in I. destruct I as [I _].
    apply has_In. change k with (fst (k, p)). now apply in_map. }
  split.
  - destruct (removePass_calls players (JsMap.entries (playerMeshesRef w)) w)
      as (removals & Hr & Fr). fold w0 in Hr.
    destruct (upsertPass_blocks me order w0 (sortedPlayers_online players)
                (sortedPlayers_NoDup players W)) as (blocks & Hb & F).
    exists removals, blocks. rewrite Ew, Hb, Hr, <- app_assoc.
    split; [reflexivity|]. split; [assumption|].
    eapply Forall2_impl_In; [|exact F].
    intros [k p] b I (m & ops & G & Eb & Hp & Ha & Hadd). cbn [fst snd] in *.
    rewrite (Keep k p I) in Ha, Hadd. exists m, ops. cbn [fst snd]. auto.
  - destruct (removePass_scene players (JsMap.entries (playerMeshesRef w)) w
                old So) as (kept & Sk & Ik). fold w0 in Sk.
    exists old, kept. split; [reflexivity|]. split; [assumption|].
    rewrite Ew, (upsertPass_scene me order w0 (sortedPlayers_online players)
                   (sortedPlayers_NoDup players W)), Sk.
    cbn [option_map]. do 3 f_equal.
    unfold withoutMesh. apply filter_ext_in. intros [k p] I. cbn [fst].
    unfold JsMap.has. now rewrite (Keep k p I).
Qed.

(** C9 on three players of radii 25, 10 and 10: the two of radius 10 keep
    their store order and come before the one of radius 25, and their
    meshes enter the scene, after the grid, in that order. *)
Lemma C9_upsert_order_witness :
  map fst (sortedPlayers threePlayers) = ["a11ce"; "ca401"; "b0b"]%string /\
  sceneRef (playersEffect "a11ce" threePlayers (world (initialApp 0)))
  = Some [2; 5; 11; 14]%nat /\
  exists removals blocks,
    calls (playersEffect "a11ce" threePlayers (world (initialApp 0)))
    = calls (world (initialApp 0)) ++ removals ++ List.concat blocks /\
    Forall2 (entryBlock (world (initialApp 0))
               (playersEffect "a11ce" threePlayers (world (initialApp 0))))
      (sortedPlayers threePlayers) blocks.
Proof.
  destruct (C9_upsert_order "a11ce" threePlayers (world (initialApp 0)))
    as (_ & _ & (removals & blocks & Hc & _ & F) & _).
  - apply (playersAfter_wf_from [Insert bob; Insert alice; Insert carol]).
    constructor.
  - discriminate.
  - repeat constructor; vm_compute; reflexivity.
  - split; [reflexivity|]. split; [vm_compute; reflexivity|].
    exists removals, blocks. split; assumption.
Defined.

(* ================================================================= *)
(** ** When the loop sends *)

Lemma moved_needs_key (keys : list string) (t : number) :
  moved (deltaX keys t) (deltaY keys t) = true ->
  exists k, In k movementKeys /\ setHas k keys = true.
Proof.
  intro Mv. unfold deltaX, deltaY in Mv. unfold movementKeys.
  destruct (setHas "w" keys) eqn:Kw; [exists "w"%string; simpl; tauto|].
  destruct (setHas "a" keys) eqn:Ka; [exists "a"%string; simpl; tauto|].
  destruct (setHas "s" keys) eqn:Ks; [exists "s"%string; simpl; tauto|].
  destruct (setHas "d" keys) eqn:Kd; [exists "d"%string; simpl; tauto|].
  cbv in Mv. discriminate Mv.
Qed.

(** What a tick that sends found in the refs and in the store. *)
Lemma gameLoop_sends (me : string) (players : JsMap.t string Player.t)
  (now : Z) (w : World) :
  sent (gameLoop me players now w) <> sent w ->
  myPlayerRef w <> None /\
  (exists k, In k movementKeys /\ setHas k (keysRef w) = true) /\
  JsMap.has me players = true.
Proof.
  rewrite gameLoop_sent.
  rewrite (movePlayer_sent me players (deltaTime now (lastUpdateRef w))
             (setLastUpdate now w)).
  cbn [myPlayerRef keysRef sent setLastUpdate].
  destruct (myPlayerRef w); [|congruence].
  unfold JsMap.has. destruct (JsMap.get me players); [|congruence].
  destruct (moved _ _) eqn:Mv; [|congruence].
  intros _. split; [discriminate|]. split; [|reflexivity].
  eapply moved_needs_key. eassumption.
Qed.

Lemma foodEffect_frame (food : list Food.t) (w : World) :
  playerMeshesRef (foodEffect food w) = playerMeshesRef w /\
  myPlayerRef (foodEffect food w) = myPlayerRef w.
Proof.
  unfold foodEffect. destruct (sceneRef w); [|auto].
  destruct (foodUpsertPass_frame food
              (fold_left (removeOldFoodMesh (foodIds food))
                 (JsMap.entries (foodMeshesRef w)) w)) as [-> ->].
  apply foodRemovePass_frame.
Qed.

Lemma gameLoop_myPlayer_none (me : string) (players : JsMap.t string Player.t)
  (now : Z) (w : World) :
  myPlayerRef w = None -> myPlayerRef (gameLoop me players now w) = None.
Proof.
  intro M. unfold gameLoop. set (w1 := movePlayer _ _ _ _).
  assert (M1 : myPlayerRef w1 = None).
  { unfold w1. now rewrite (proj1 (proj2 (movePlayer_refs _ _ _ _))). }
  assert (R : forall v, myPlayerRef (renderScene v) = myPlayerRef v).
  { intro v. apply renderScene_refs. }
  rewrite R. unfold followPlayer. rewrite M1. now destruct (cameraRef w1).
Qed.

Section Runs.
Variable me : string.
Variable now0 : Z.

Lemma run_snoc (events : list Event) (e : Event) :
  run me now0 (events ++ [e]) = step me (run me now0 events) e.
Proof. unfold run. now rewrite fold_left_app. Qed.

Lemma run_players_wf (events : list Event) :
  JsMap.wf (players (run me now0 events)).
Proof.
  induction events as [|e events IH] using rev_ind.
  - apply wf_empty.
  - rewrite run_snoc. destruct e; try exact IH.
    destruct n; simpl.
    + now apply wf_set.
    + now apply wf_set, wf_delete.
    + now apply wf_delete.
Qed.

(** A local player ref that is set was set by a run of the players effect
    that found the local player online in the store and created its mesh. *)
Lemma run_myPlayer (events : list Event) :
  myPlayerRef (world (run me now0 events)) <> None ->
  exists before after p,
    events = before ++ PlayersEffect :: after /\
    JsMap.get me (players (run me now0 before)) = Some p /\
    Player.online p = true /\
    JsMap.has me (playerMeshesRef (world (run me now0 before))) = false /\
    JsMap.has me
      (playerMeshesRef (world (run me now0 (before ++ [PlayersEffect])))) = true.
Proof.
  induction events as [|e events IH] using rev_ind; intro S.
  - exfalso. apply S. reflexivity.
  - destruct (myPlayerRef (world (run me now0 events))) eqn:M.
    + destruct IH as (before & after & p & -> & H); [discriminate|].
      exists before, (after ++ [e]), p. split; [|exact H].
      now rewrite <- app_assoc.
    + rewrite run_snoc in S. destruct e; simpl in S.
      * congruence.
      * congruence.
      * destruct (playersEffect_myPlayer me _ _ (run_players_wf events) M S)
          as (p & G & O & Hb & Ha).
        exists events, [], p. rewrite run_snoc. simpl. auto.
      * rewrite (proj2 (foodEffect_frame _ _)) in S. congruence.
      * unfold handleKeyDown in S.
        destruct (existsb _ _) in S; simpl in S; congruence.
      * simpl in S. congruence.
      * rewrite gameLoop_myPlayer_none in S by assumption. congruence.
Qed.

End Runs.

(** C10: a frame that sends a position had a movement key held, came after
    a run of the players effect that found the local player online and
    created its mesh, and found the local key in the store; so when no run
    of the players effect ever found the local player online, no frame
    sends. *)
Theorem C10_send_gating (me : string) (now0 : Z) (events : list Event)
  (now : Z) :
  let a := run me now0 events in
  let a' := step me a (Frame now) in
  (sent (world a') <> sent (world a) ->
   (exists k, In k movementKeys /\ setHas k (keysRef (world a)) = true) /\
   (exists before after p,
       events = before ++ PlayersEffect :: after /\
       JsMap.get me (players (run me now0 before)) = Some p /\
       Player.online p = true /\
       JsMap.has me (playerMeshesRef (world (run me now0 before))) = false /\
       JsMap.has me
         (playerMeshesRef (world (run me now0 (before ++ [PlayersEffect]))))
       = true) /\
   JsMap.has me (players a) = true) /\
  ((forall before after p,
       events = before ++ PlayersEffect :: after ->
       JsMap.get me (players (run me now0 before)) = Some p ->
       Player.online p = false) ->
   sent (world a') = sent (world a)).
Proof.
  intros a a'.
  assert (G : sent (world a') <> sent (world a) ->
              myPlayerRef (world a) <> None /\
              (exists k, In k movementKeys /\
                         setHas k (keysRef (world a)) = true) /\
              JsMap.has me (players a) = true).
  { apply gameLoop_sends. }
  split.
  - intro S. destruct (G S) as (M & K & P).
    split; [exact K|]. split; [|exact P].
    now apply run_myPlayer.
  - intro Never.
    destruct (myPlayerRef (world a)) as [q|] eqn:M.
    + exfalso.
      destruct (run_myPlayer me now0 events) as (before & after & p & E & Gp & O & _).
      { fold a. now rewrite M. }
      rewrite (Never before after p E Gp) in O. discriminate.
    + unfold a'. cbn [step world]. rewrite gameLoop_sent.
      rewrite (movePlayer_sent me (players a)
                 (deltaTime now (lastUpdateRef (world a)))
                 (setLastUpdate now (world a))).
      cbn [myPlayerRef setLastUpdate]. now rewrite M.
Qed.

(** C10 on two runs: the local player online and drawn, and the local
    player stored but never online. *)
Lemma C10_send_gating_witness :
  ((exists k, In k movementKeys /\
              setHas k (keysRef (world (run "a11ce" 0 onlineLocalEvents))) = true) /\
   JsMap.has "a11ce"%string (players (run "a11ce" 0 onlineLocalEvents)) = true) /\
  sent (world (step "a11ce" (run "a11ce" 0 offlineLocalEvents) (Frame 100)))
  = sent (world (run "a11ce" 0 offlineLocalEvents)).
Proof.
  split.
  - destruct (C10_send_gating "a11ce" 0 onlineLocalEvents 100) as [S _].
    destruct S as (K & _ & P); [vm_compute; discriminate | auto].
  - destruct (C10_send_gating "a11ce" 0 offlineLocalEvents 100) as [_ N].
    apply N. intros before after p E G. unfold offlineLocalEvents in E.
    destruct before as [|e1 [|e2 before]].
    + discriminate E.
    + injection E as E1 _. subst e1. vm_compute in G.
      injection G as <-. reflexivity.
    + injection E as _ _ E. destruct before as [|e3 before].
      * discriminate E.
      * injection E as _ E. destruct before; discriminate E.
Defined.

(* ================================================================= *)
(** * Further properties of the code *)

(** ** The held keys *)

Lemma lowerAscii_idem (c : ascii) : lowerAscii (lowerAscii c) = lowerAscii c.
Proof.
  destruct c as [[] [] [] [] [] [] [] []]; reflexivity.
Qed.

Lemma toLowerCase_idem (s : string) : toLowerCase (toLowerCase s) = toLowerCase s.
Proof.
  induction s as [|c s IH]; simpl; [reflexivity|].
  now rewrite lowerAscii_idem, IH.
Qed.

Lemma setHas_app (k : string) (l1 l2 : list string) :
  setHas k (l1 ++ l2) = (setHas k l1 || setHas k l2)%bool.
Proof. apply existsb_app. Qed.

Lemma setHas_In (k : string) (l : list string) : setHas k l = true <-> In k l.
Proof.
  unfold setHas. rewrite existsb_exists. split.
  - intros (x & I & E). apply String.eqb_eq in E. now subst.
  - intro I. exists k. split; [assumption | apply String.eqb_refl].
Qed.

Lemma setHas_setAdd (k k' : string) (l : list string) :
  setHas k' (setAdd k l) = (setHas k' l || String.eqb k' k)%bool.
Proof.
  unfold setAdd. destruct (setHas k l) eqn:H.
  - destruct (String.eqb_spec k' k) as [->|N]; [|now rewrite orb_false_r].
    now rewrite H.
  - rewrite setHas_app. simpl. now rewrite orb_false_r.
Qed.

Lemma setHas_setDelete (k k' : string) (l : list string) :
  setHas k' (setDelete k l) = (setHas k' l && negb (String.eqb k' k))%bool.
Proof.
  unfold setDelete, setHas. induction l as [|x l IH]; simpl; [reflexivity|].
  destruct (String.eqb_spec k x) as [->|N]; simpl.
  - rewrite IH. destruct (String.eqb_spec k' x) as [->|N']; simpl.
    + now rewrite andb_false_r.
    + reflexivity.
  - rewrite IH. destruct (String.eqb_spec k' x) as [->|N']; simpl; [|reflexivity].
    destruct (String.eqb_spec x k) as [E|_]; [congruence | reflexivity].
Qed.

Lemma setAdd_NoDup (k : string) (l : list string) :
  NoDup l -> NoDup (setAdd k l).
Proof.
  intro D. unfold setAdd. destruct (setHas k l) eqn:H; [assumption|].
  assert (N : ~ In k l) by (rewrite <- setHas_In; congruence).
  clear H. induction D as [|x l Nx D IH]; simpl.
  - constructor; [tauto | constructor].
  - constructor.
    + rewrite in_app_iff. simpl. simpl in N. intuition.
    + apply IH. simpl in N. tauto.
Qed.

Lemma handleKeyDown_held (eventKey k' : string) (w : World) :
  setHas k' (keysRef (handleKeyDown eventKey w)) =
  (setHas k' (keysRef w)
   || (String.eqb k' (toLowerCase eventKey)
       && setHas (toLowerCase eventKey) movementKeys))%bool.
Proof.
  unfold handleKeyDown. fold (setHas (toLowerCase eventKey) movementKeys).
  destruct (setHas (toLowerCase eventKey) movementKeys); simpl.
  - rewrite setHas_setAdd. now rewrite andb_true_r.
  - now rewrite andb_false_r, orb_false_r.
Qed.

Lemma handleKeyUp_held (eventKey k' : string) (w : World) :
  setHas k' (keysRef (handleKeyUp eventKey w)) =
  (setHas k' (keysRef w) && negb (String.eqb k' (toLowerCase eventKey)))%bool.
Proof. unfold handleKeyUp. simpl. apply setHas_setDelete. Qed.

(** X2: pressing a key and releasing it, in whatever letter case each event
    reports it, leaves that key not held and every other key as it was. *)
Theorem key_down_up_round_trip (downKey upKey k' : string) (w : World) :
  toLowerCase downKey = toLowerCase upKey ->
  setHas k' (keysRef (handleKeyUp upKey (handleKeyDown downKey w))) =
  (setHas k' (keysRef w) && negb (String.eqb k' (toLowerCase downKey)))%bool.
Proof.
  intro E. rewrite handleKeyUp_held, handleKeyDown_held, <- E.
  destruct (setHas k' (keysRef w)), (String.eqb k' (toLowerCase downKey)),
    (setHas (toLowerCase downKey) movementKeys); reflexivity.
Qed.

Lemma key_down_up_round_trip_witness :
  setHas "w" (keysRef (handleKeyUp "w" (handleKeyDown "W" aliceWorld))) = false /\
  setHas "d" (keysRef (handleKeyUp "w" (handleKeyDown "W" aliceWorld))) = true.
Proof.
  split.
  - rewrite (key_down_up_round_trip "W" "w" "w" aliceWorld); reflexivity.
  - rewrite (key_down_up_round_trip "W" "w" "d" aliceWorld); reflexivity.
Defined.

(* ================================================================= *)
(** ** What each part of the component leaves alone *)

Lemma sameControl_refl (w : World) : sameControl w w.
Proof. repeat split. Qed.

Lemma sameControl_trans (w1 w2 w3 : World) :
  sameControl w1 w2 -> sameControl w2 w3 -> sameControl w1 w3.
Proof.
  unfold sameControl. intros (A & B & C & D & E) (A' & B' & C' & D' & E').
  repeat split; congruence.
Qed.

Lemma sameControl_fold {A} (f : World -> A -> World) (l : list A) (w : World) :
  (forall w0 a, sameControl w0 (f w0 a)) -> sameControl w (fold_left f l w).
Proof.
  intro H. revert w. induction l as [|a l IH]; intro w; cbn [fold_left].
  - apply sameControl_refl.
  - eapply sameControl_trans; [apply H | apply IH].
Qed.

Lemma rebuildOutline_control (radius : number) (cs : list Child) (w : World) :
  sameControl w (snd (rebuildOutline radius cs w)).
Proof.
  induction cs as [|c cs IH]; simpl; [apply sameControl_refl|].
  destruct (String.eqb (child_name c) "outline"); [repeat split|].
  destruct (rebuildOutline radius cs w). exact IH.
Qed.

Lemma rebuildGeometry_control (me playerId : string) (player : Player.t)
  (mesh : Mesh.t) (w : World) :
  sameControl w (snd (rebuildGeometry me playerId player mesh w)).
Proof.
  unfold rebuildGeometry. cbn [newGeometry].
  destruct (String.eqb playerId me); [|repeat split].
  match goal with
  | |- context [rebuildOutline ?r ?cs ?w0] =>
      pose proof (rebuildOutline_control r cs w0) as H;
      destruct (rebuildOutline r cs w0)
  end.
  eapply sameControl_trans; [|exact H]. repeat split.
Qed.

Lemma updatePlayerMesh_control (me playerId : string) (player : Player.t)
  (mesh : Mesh.t) (w : World) :
  sameControl w (snd (updatePlayerMesh me playerId player mesh w)).
Proof.
  unfold updatePlayerMesh.
  set (mesh1 := if colorChanged _ player then _ else _).
  destruct (radiusChanged mesh player).
  - pose proof (rebuildGeometry_control me playerId player mesh1 w) as H.
    destruct (rebuildGeometry me playerId player mesh1 w) as [m2 w2].
    destruct (colorChanged _ player); [|exact H].
    eapply sameControl_trans; [exact H | repeat split].
  - destruct (colorChanged _ player); repeat split.
Qed.

Lemma createPlayerMesh_control (me playerId : string) (player : Player.t)
  (w : World) :
  sameControl w (snd (createPlayerMesh me playerId player w)).
Proof.
  unfold createPlayerMesh. cbn [newGeometry newMaterial].
  destruct (String.eqb playerId me); repeat split.
Qed.

Lemma upsertPlayer_control (me : string) (w : World) (e : string * Player.t) :
  sameControl w (upsertPlayer me w e).
Proof.
  destruct e as [k p]. unfold upsertPlayer.
  destruct (negb (Player.online p)); [apply sameControl_refl|].
  destruct (JsMap.get k (playerMeshesRef w)) as [mesh|].
  - pose proof (updatePlayerMesh_control me k p mesh w) as H.
    destruct (updatePlayerMesh me k p mesh w) as [m1 w1].
    eapply sameControl_trans; [exact H | repeat split].
  - pose proof (createPlayerMesh_control me k p w) as H.
    destruct (createPlayerMesh me k p w) as [m1 w1].
    eapply sameControl_trans; [exact H | repeat split].
Qed.

Lemma removeOldPlayerMesh_control (players : JsMap.t string Player.t)
  (w : World) (e : string * Mesh.t) :
  sameControl w (removeOldPlayerMesh players w e).
Proof.
  destruct e as [k mesh]. unfold removeOldPlayerMesh.
  destruct (negb (JsMap.has k players)); repeat split.
Qed.

Lemma removeOldFoodMesh_control (ids : list Z) (w : World) (e : Z * Mesh.t) :
  sameControl w (removeOldFoodMesh ids w e).
Proof.
  destruct e as [k mesh]. unfold removeOldFoodMesh.
  destruct (negb (existsb (Z.eqb k) ids)); repeat split.
Qed.

Lemma upsertFood_control (w : World) (f : Food.t) :
  sameControl w (upsertFood w f).
Proof.
  unfold upsertFood. destruct (JsMap.get (Food.id f) (foodMeshesRef w));
    repeat split.
Qed.

Lemma playersEffect_control (me : string) (players : JsMap.t string Player.t)
  (w : World) : sameControl w (playersEffect me players w).
Proof.
  unfold playersEffect. destruct (sceneRef w); [|apply sameControl_refl].
  set (w1 := fold_left (removeOldPlayerMesh players) _ w).
  apply sameControl_trans with w1.
  - apply sameControl_fold, removeOldPlayerMesh_control.
  - apply sameControl_fold, upsertPlayer_control.
Qed.

Lemma foodEffect_control (food : list Food.t) (w : World) :
  sameControl w (foodEffect food w).
Proof.
  unfold foodEffect. destruct (sceneRef w); [|apply sameControl_refl].
  set (w1 := fold_left (removeOldFoodMesh (foodIds food)) _ w).
  apply sameControl_trans with w1.
  - apply sameControl_fold, removeOldFoodMesh_control.
  - apply sameControl_fold, upsertFood_control.
Qed.

Lemma movePlayer_render (me : string) (players : JsMap.t string Player.t)
  (t : number) (w : World) :
  sameRender w (movePlayer me players t w) /\
  keysRef (movePlayer me players t w) = keysRef w /\
  lastUpdateRef (movePlayer me players t w) = lastUpdateRef w.
Proof.
  unfold movePlayer. destruct (myPlayerRef w); [|repeat split].
  destruct (Nat.ltb _ _); [|repeat split].
  destruct (moved _ _); [|repeat split].
  destruct (JsMap.get me players); repeat split.
Qed.

Lemma gameLoop_frame (me : string) (players : JsMap.t string Player.t)
  (now : Z) (w : World) :
  sameRender w (gameLoop me players now w) /\
  keysRef (gameLoop me players now w) = keysRef w /\
  lastUpdateRef (gameLoop me players now w) = now.
Proof.
  unfold gameLoop.
  destruct (movePlayer_render me players (deltaTime now (lastUpdateRef w))
              (setLastUpdate now w)) as ((A & B & C & D & E) & K & L).
  set (w1 := movePlayer _ _ _ _) in *.
  assert (F : sameRender w (followPlayer me players w1) /\
              keysRef (followPlayer me players w1) = keysRef w /\
              lastUpdateRef (followPlayer me players w1) = now).
  { unfold followPlayer.
    destruct (cameraRef w1); [|repeat split; assumption].
    destruct (myPlayerRef w1); [|repeat split; assumption].
    destruct (JsMap.get me players); repeat split; assumption. }
  set (w2 := followPlayer me players w1) in *.
  destruct (renderScene_refs w2)
    as (R1 & R2 & R3 & R4 & R5 & R6 & R7 & R8 & R9 & R10).
  unfold sameRender in *. rewrite R1, R3, R4, R5, R6, R8, R9. exact F.
Qed.

(** What the loop drew: the scene as it is, seen from where the loop has
    just put the camera. *)
Lemma gameLoop_screen (me : string) (players : JsMap.t string Player.t)
  (now : Z) (w : World) :
  let w' := gameLoop me players now w in
  screen w' =
  match sceneRef w', cameraRef w' with
  | Some scene, Some camera => Some (scene, camera)
  | _, _ => screen w
  end.
Proof.
  cbv zeta. unfold gameLoop. set (w1 := movePlayer _ _ _ _).
  set (w2 := followPlayer me players w1).
  assert (S1 : screen w1 = screen w).
  { unfold w1, movePlayer. destruct (myPlayerRef _); [|reflexivity].
    destruct (Nat.ltb _ _); [|reflexivity]. destruct (moved _ _); [|reflexivity].
    destruct (JsMap.get me players); reflexivity. }
  assert (S2 : screen w2 = screen w).
  { rewrite <- S1. unfold w2, followPlayer.
    destruct (cameraRef w1), (myPlayerRef w1); try reflexivity.
    destruct (JsMap.get me players); reflexivity. }
  destruct (renderScene_refs w2) as (R1 & R2 & _). rewrite R1, R2.
  unfold renderScene.
  destruct (sceneRef w2), (cameraRef w2); cbn; congruence.
Qed.

(** X3: the two mesh effects never touch the held keys, the clock of the
    loop, the camera, the outbound channel or what is on screen; a run of
    the game loop never touches the scene, the mesh maps or the held keys
    and makes no call that creates, disposes, adds, removes, moves or
    recolours an object; it records [now] as the time of the last update
    and, when there are a scene and a camera, draws that scene from where
    the camera then is. *)
Theorem effects_and_loop_keep_apart (me : string)
  (players : JsMap.t string Player.t) (food : list Food.t) (now : Z)
  (w : World) :
  let w' := gameLoop me players now w in
  sameControl w (playersEffect me players w) /\
  sameControl w (foodEffect food w) /\
  sameRender w w' /\
  keysRef w' = keysRef w /\
  lastUpdateRef w' = now /\
  screen w' =
  match sceneRef w', cameraRef w' with
  | Some scene, Some camera => Some (scene, camera)
  | _, _ => screen w
  end.
Proof.
  cbv zeta.
  split; [apply playersEffect_control|]. split; [apply foodEffect_control|].
  destruct (gameLoop_frame me players now w) as (A & B & C).
  repeat split; try assumption; try apply A. apply gameLoop_screen.
Qed.

(** ** The held keys along a run *)

Lemma keys_step_ok (me : string) (a : App) (e : Event) :
  NoDup (keysRef (world a)) /\ incl (keysRef (world a)) movementKeys ->
  NoDup (keysRef (world (step me a e))) /\
  incl (keysRef (world (step me a e))) movementKeys.
Proof.
  intros [D I]. destruct e; cbn [step world]; try (split; assumption).
  - destruct (playersEffect_control me (players a) (world a)) as (-> & _).
    now split.
  - destruct (foodEffect_control (food a) (world a)) as (-> & _). now split.
  - unfold handleKeyDown.
    destruct (existsb (String.eqb (toLowerCase key)) movementKeys) eqn:M;
      [|now split].
    cbn [keysRef setKeys]. split; [now apply setAdd_NoDup|].
    intros k Hk. apply setHas_In in Hk. rewrite setHas_setAdd in Hk.
    apply orb_true_iff in Hk. destruct Hk as [Hk|Hk].
    + apply I. now apply setHas_In.
    + apply String.eqb_eq in Hk. subst k. now apply setHas_In.
  - unfold handleKeyUp. cbn [keysRef setKeys]. unfold setDelete. split.
    + now apply NoDup_filter.
    + intros k Hk. apply filter_In in Hk. apply I. tauto.
  - destruct (gameLoop_frame me (players a) now (world a)) as (_ & -> & _).
    now split.
Qed.

(** X1: whatever events arrive, the set of held keys holds each key once
    and only the four movement keys, so at most four keys. *)
Theorem held_keys_are_movement_keys (me : string) (now0 : Z)
  (events : list Event) :
  let keys := keysRef (world (run me now0 events)) in
  NoDup keys /\ incl keys movementKeys /\ (List.length keys <= 4)%nat.
Proof.
  cbv zeta.
  assert (H : NoDup (keysRef (world (run me now0 events))) /\
              incl (keysRef (world (run me now0 events))) movementKeys).
  { induction events as [|e events IH] using rev_ind.
    - split; [constructor | intros k []].
    - rewrite run_snoc. now apply keys_step_ok. }
  destruct H as [D I]. split; [assumption|]. split; [assumption|].
  apply (NoDup_incl_length D I).
Qed.

(* ================================================================= *)
(** ** Frames at the same instant *)

Lemma setLastUpdate_same (now : Z) (w : World) :
  lastUpdateRef w = now -> setLastUpdate now w = w.
Proof. destruct w. simpl. now intros ->. Qed.

Lemma deltaTime_zero (now : Z) : deltaTime now now = Num 0.
Proof. unfold deltaTime. rewrite sub_diag. reflexivity. Qed.

Lemma moved_zero_time (keys : list string) (now : Z) :
  moved (deltaX keys (deltaTime now now)) (deltaY keys (deltaTime now now))
  = false.
Proof.
  rewrite deltaTime_zero. unfold deltaX, deltaY.
  destruct (setHas "w" keys), (setHas "s" keys), (setHas "a" keys),
    (setHas "d" keys); reflexivity.
Qed.

Lemma movePlayer_zero_time (me : string) (players : JsMap.t string Player.t)
  (now : Z) (w : World) :
  movePlayer me players (deltaTime now now) w = w.
Proof.
  unfold movePlayer. rewrite moved_zero_time.
  destruct (myPlayerRef w); [|reflexivity].
  now destruct (Nat.ltb _ _).
Qed.

(** Following the player and drawing, done twice, is as done once. *)
Lemma follow_render_idem (me : string) (players : JsMap.t string Player.t)
  (w : World) :
  renderScene (followPlayer me players (renderScene (followPlayer me players w)))
  = renderScene (followPlayer me players w).
Proof.
  destruct w as [sc cam pm fm ks lu mp ni cs se scr].
  unfold followPlayer, renderScene. cbn.
  destruct cam as [c|], mp as [p|]; cbn;
    try (destruct sc; cbn; reflexivity).
  destruct (JsMap.get me players) eqn:G; cbn; destruct sc; cbn;
    rewrite ?G; reflexivity.
Qed.

(** X4: a second run of the game loop at the same clock value changes
    nothing: no time has elapsed, so nothing is sent, and the camera and the
    local player ref already hold what the loop would write. *)
Theorem gameLoop_same_instant (me : string)
  (players : JsMap.t string Player.t) (now : Z) (w : World) :
  gameLoop me players now (gameLoop me players now w)
  = gameLoop me players now w.
Proof.
  destruct (gameLoop_frame me players now w) as (_ & _ & L).
  set (w1 := gameLoop me players now w) in *.
  unfold gameLoop at 1. rewrite L, (setLastUpdate_same now w1 L).
  rewrite movePlayer_zero_time.
  unfold w1, gameLoop. apply follow_render_idem.
Qed.

(* ================================================================= *)
(** ** The two clamps *)

Close Scope number_scope.

Section ClampLaws.
Variables lo hi : Q.

Lemma clamp_idem (v : Q) :
  Qmax lo (Qmin hi (Qmax lo (Qmin hi v))) == Qmax lo (Qmin hi v).
Proof.
  destruct (Qlt_le_dec hi lo) as [I|O].
  - rewrite (clamp_inverted lo hi v I). now apply clamp_inverted.
  - apply clamp_inside; [apply clamp_lower | now apply clamp_upper].
Qed.

Lemma clamp_mono (v1 v2 : Q) :
  v1 <= v2 -> Qmax lo (Qmin hi v1) <= Qmax lo (Qmin hi v2).
Proof.
  intro L. apply Q.max_le_compat_l. now apply Q.min_le_compat_l.
Qed.

End ClampLaws.

Open Scope number_scope.

(** The camera clamp on a number and on NaN, whatever the two sizes. *)
Lemma cameraTarget_num (W C v : Q) :
  cameraTarget W C (Num v)
  = Num (Qmax (fl (- fl (W / 2) + C)) (Qmin (fl (fl (W / 2) - C)) v)).
Proof. reflexivity. Qed.

Lemma cameraTarget_NaN (W C : Q) : cameraTarget W C NaN = NaN.
Proof. reflexivity. Qed.

(** X5: both clamps of the loop are idempotent and monotone: clamping a
    clamped coordinate changes nothing, and a larger coordinate never clamps
    to a smaller one. *)
Theorem clamps_idempotent_monotone :
  (forall v, clampWorld (clampWorld v) == clampWorld v) /\
  (forall v1 v2, v1 <= v2 -> clampWorld v1 <= clampWorld v2) /\
  (forall W C v, cameraTarget W C (cameraTarget W C v) == cameraTarget W C v) /\
  (forall W C v1 v2, v1 <= v2 -> cameraTarget W C v1 <= cameraTarget W C v2).
Proof.
  split; [|split; [|split]].
  - intros [|v].
    + rewrite !clampWorld_NaN. exact I.
    + rewrite !clampWorld_num. apply clamp_idem.
  - intros [|v1] [|v2] L; try contradiction.
    rewrite !clampWorld_num. now apply clamp_mono.
  - intros W C [|v].
    + rewrite !cameraTarget_NaN. exact I.
    + rewrite !cameraTarget_num. apply clamp_idem.
  - intros W C [|v1] [|v2] L; try contradiction.
    rewrite !cameraTarget_num. now apply clamp_mono.
Qed.

Lemma clamps_idempotent_monotone_witness :
  clampWorld 470 <= clampWorld 530 /\
  cameraTarget WORLD_SIZE CAMERA_SIZE (- (30)) <= cameraTarget WORLD_SIZE CAMERA_SIZE 450.
Proof.
  destruct clamps_idempotent_monotone as (_ & M & _ & N).
  split; [apply M | apply N]; vm_compute; discriminate.
Defined.

(* ================================================================= *)
(** ** The stores: round trips *)

Lemma In_set_inv {V} (k : string) (v : V) (m : JsMap.t string V) e :
  In e (JsMap.set k v m) -> e = (k, v) \/ In e m.
Proof.
  induction m as [|[k' v'] m IH]; simpl.
  - intros [<-|[]]. now left.
  - destruct (String.eqb k k').
    + intros [<-|I]; [now left | right; now right].
    + intros [<-|I]; [right; now left|].
      destruct (IH I); [now left | right; now right].
Qed.

(** X6: the player store as a map: an inserted row is what its identity
    looks up, a deleted identity looks up nothing, either handler leaves
    every other identity alone, deleting is idempotent, deleting an identity
    that is not stored changes nothing, and inserting an unknown identity
    and deleting it again gives back the store. *)
Theorem player_store_round_trip (prev : JsMap.t string Player.t)
  (player : Player.t) :
  let k := Player.identity player in
  JsMap.get k (usePlayer.onInsert player prev) = Some player /\
  JsMap.get k (usePlayer.onDelete player prev) = None /\
  (forall k', k' <> k ->
     JsMap.get k' (usePlayer.onInsert player prev) = JsMap.get k' prev /\
     JsMap.get k' (usePlayer.onDelete player prev) = JsMap.get k' prev) /\
  usePlayer.onDelete player (usePlayer.onDelete player prev)
  = usePlayer.onDelete player prev /\
  (JsMap.has k prev = false ->
   usePlayer.onDelete player prev = prev /\
   usePlayer.onDelete player (usePlayer.onInsert player prev) = prev).
Proof.
  cbv zeta. unfold usePlayer.onInsert, usePlayer.onDelete.
  split; [apply get_set_eq|]. split; [apply get_delete_eq|].
  split; [|split].
  - intros k' N. split; [now apply get_set_neq | now apply get_delete_neq].
  - apply delete_absent. intro I. apply In_keys_delete in I. tauto.
  - intro H. apply has_false in H. split; [now apply delete_absent|].
    rewrite keys_set_absent by assumption.
    unfold JsMap.delete. rewrite filter_app. simpl.
    rewrite String.eqb_refl. simpl. rewrite app_nil_r.
    exact (delete_absent (Player.identity player) prev H).
Qed.

Lemma player_store_round_trip_witness :
  usePlayer.onDelete alice (usePlayer.onInsert alice [("b0b"%string, bob)])
  = [("b0b"%string, bob)].
Proof.
  pose proof (player_store_round_trip [("b0b"%string, bob)] alice) as H.
  cbv zeta in H. destruct H as (_ & _ & _ & _ & R).
  apply R. reflexivity.
Defined.

Lemma keyedByIdentity_notify (prev : JsMap.t string Player.t)
  (n : Notification Player.t) :
  keyedByIdentity prev -> keyedByIdentity (notifyPlayer prev n).
Proof.
  unfold keyedByIdentity, JsMap.entries. intros K k p I.
  destruct n as [q|o q|q]; simpl in I.
  - apply In_set_inv in I. destruct I as [E|I]; [congruence | auto].
  - apply In_set_inv in I. destruct I as [E|I]; [congruence|].
    apply In_delete in I. apply K. tauto.
  - apply In_delete in I. apply K. tauto.
Qed.

Lemma run_keyedByIdentity (me : string) (now0 : Z) (events : list Event) :
  keyedByIdentity (players (run me now0 events)).
Proof.
  induction events as [|e events IH] using rev_ind.
  - intros k p [].
  - rewrite run_snoc. destruct e; try exact IH.
    now apply keyedByIdentity_notify.
Qed.

(** X7: whatever events arrive, every row of the player store sits under
    its own identity, so the rows of the list of online players have
    pairwise distinct identities (the list keys) and at most one of them is
    the local player. *)
Theorem player_rows_keyed_by_identity (me : string) (now0 : Z)
  (events : list Event) :
  let store := players (run me now0 events) in
  keyedByIdentity store /\
  NoDup (map Player.identity (onlinePlayers store)) /\
  (List.length (filter (fun p => String.eqb (Player.identity p) me)
                  (onlinePlayers store)) <= 1)%nat.
Proof.
  cbv zeta.
  pose proof (run_keyedByIdentity me now0 events) as K.
  pose proof (run_players_wf me now0 events) as W.
  set (store := players (run me now0 events)) in *.
  assert (D : NoDup (map Player.identity (onlinePlayers store))).
  { unfold onlinePlayers, JsMap.entries. unfold JsMap.wf, JsMap.keys in W.
    unfold keyedByIdentity, JsMap.entries in K.
    induction store as [|[k p] m IH]; simpl; [constructor|].
    inversion W as [|? ? N W']; subst.
    assert (K' : forall k0 p0, In (k0, p0) m -> Player.identity p0 = k0)
      by (intros; apply K; now right).
    destruct (Player.online p); simpl; [|auto].
    constructor; [|auto].
    rewrite in_map_iff. intros (q & E & I). apply filter_In in I.
    destruct I as [I _]. apply in_map_iff in I. destruct I as ([k2 q2] & <- & I).
    simpl in E. apply N. rewrite (K k p (or_introl eq_refl)) in E.
    rewrite <- E, (K' k2 q2 I). change k2 with (fst (k2, q2)). now apply in_map. }
  split; [exact K|]. split; [exact D|].
  clear - D. induction (onlinePlayers store) as [|p l IH]; simpl; [lia|].
  inversion D as [|? ? N D']; subst.
  destruct (String.eqb_spec (Player.identity p) me) as [E|_]; [|auto].
  simpl. assert (Z0 : filter (fun q => String.eqb (Player.identity q) me) l = []).
  { clear - N E. induction l as [|q l IH]; simpl; [reflexivity|].
    destruct (String.eqb_spec (Player.identity q) me) as [E'|_].
    - exfalso. apply N. simpl. left. congruence.
    - apply IH. intro I. apply N. now right. }
  rewrite Z0. simpl. lia.
Qed.

(** X8: the food store under delete: no row with the deleted id is left,
    the rows with other ids all stay, deleting is idempotent, deleting an id
    that is not stored changes nothing, and inserting an unknown id and
    deleting it again gives back the array. *)
Theorem food_store_delete (prev : list Food.t) (foodItem : Food.t) :
  ~ In (Food.id foodItem) (foodIds (useFood.onDelete foodItem prev)) /\
  (forall g, In g prev -> Food.id g <> Food.id foodItem ->
             In g (useFood.onDelete foodItem prev)) /\
  useFood.onDelete foodItem (useFood.onDelete foodItem prev)
  = useFood.onDelete foodItem prev /\
  (~ In (Food.id foodItem) (foodIds prev) ->
   useFood.onDelete foodItem prev = prev /\
   useFood.onDelete foodItem (useFood.onInsert foodItem prev) = prev).
Proof.
  unfold useFood.onDelete, useFood.onInsert, foodIds.
  assert (A : forall l, ~ In (Food.id foodItem) (map Food.id l) ->
                        filter (fun f => negb (Z.eqb (Food.id f) (Food.id foodItem))) l = l).
  { induction l as [|g l IH]; simpl; intro N; [reflexivity|].
    destruct (Z.eqb_spec (Food.id g) (Food.id foodItem)) as [E|_]; simpl.
    - exfalso. auto.
    - f_equal. apply IH. tauto. }
  assert (B : ~ In (Food.id foodItem)
                (map Food.id
                   (filter (fun f => negb (Z.eqb (Food.id f) (Food.id foodItem)))
                      prev))).
  { rewrite in_map_iff. intros (g & E & I). apply filter_In in I.
    destruct I as [_ I]. apply negb_true_iff, Z.eqb_neq in I. auto. }
  split; [exact B|]. split; [|split].
  - intros g I N. apply filter_In. split; [assumption|].
    now apply negb_true_iff, Z.eqb_neq.
  - now apply A.
  - intro N. split; [now apply A|].
    rewrite filter_app. simpl. rewrite Z.eqb_refl. simpl.
    rewrite app_nil_r. now apply A.
Qed.

Lemma food_store_delete_witness :
  useFood.onDelete food7 (useFood.onInsert food7 []) = [].
Proof.
  destruct (food_store_delete [] food7) as (_ & _ & _ & R).
  apply R. simpl. tauto.
Defined.
(* ================================================================= *)
(** ** The sort is stable *)



(* ================================================================= *)
(** ** Ownership is kept by every step that works on one slot *)

Lemma Slot_eq_dec (s1 s2 : Slot) : {s1 = s2} + {s1 <> s2}.
Proof. decide equality; [apply string_dec | apply Z.eq_dec]. Qed.

Lemma disposals_app (l1 l2 : list Call) :
  disposals (l1 ++ l2) = disposals l1 ++ disposals l2.
Proof. apply flat_map_app. Qed.

Lemma NoDup_app_intro {A} (l1 l2 : list A) :
  NoDup l1 -> NoDup l2 -> (forall a, In a l1 -> In a l2 -> False) ->
  NoDup (l1 ++ l2).
Proof.
  intros D1 D2 X. induction D1 as [|a l1 N D1 IH]; simpl; [assumption|].
  constructor.
  - rewrite in_app_iff. intros [I|I]; [auto|]. apply (X a); simpl; auto.
  - apply IH. intros b I1 I2. apply (X b); simpl; auto.
Qed.

Lemma Touches_sound (s : Slot) (w w' : World) :
  Sound w -> Touches s w w' -> Sound w'.
Proof.
  intros S T.
  destruct T as [Tp Tf To Tn Tm (ops & Tc & Td & Tx) Ts].
  assert (Own : forall s' m, slot s' w' = Some m ->
                forall i, In i (meshIds m) ->
                (nextId w <= i < nextId w')%nat \/
                exists m0, slot s' w = Some m0 /\ In i (meshIds m0)).
  { intros s' m H i I. destruct (Slot_eq_dec s' s) as [->|N].
    - now apply (proj2 (Tm m H)).
    - right. exists m. rewrite <- To by assumption. auto. }
  constructor.
  - exact Tp.
  - exact Tf.
  - pose proof (s_floor w S). lia.
  - intros s' m H. split.
    + destruct (Slot_eq_dec s' s) as [->|N]; [now apply Tm|].
      rewrite To in H by assumption. now apply (s_ids w S s' m).
    + intros i I. pose proof (s_floor w S) as F.
      destruct (Own s' m H i I) as [B|(m0 & H0 & I0)]; [lia|].
      pose proof (proj2 (s_ids w S s' m0 H0) i I0). lia.
  - intros s1 s2 m1 m2 i N H1 H2 I1 I2.
    destruct (Own s1 m1 H1 i I1) as [B1|(a1 & A1 & J1)];
      destruct (Own s2 m2 H2 i I2) as [B2|(a2 & A2 & J2)].
    + destruct (Slot_eq_dec s1 s) as [->|N1].
      * rewrite To in H2 by congruence.
        pose proof (proj2 (s_ids w S s2 m2 H2) i I2). lia.
      * rewrite To in H1 by assumption.
        pose proof (proj2 (s_ids w S s1 m1 H1) i I1). lia.
    + pose proof (proj2 (s_ids w S s2 a2 A2) i J2). lia.
    + pose proof (proj2 (s_ids w S s1 a1 A1) i J1). lia.
    + exact (s_apart w S s1 s2 a1 a2 i N A1 A2 J1 J2).
  - destruct (s_scene w S) as (sc & Hsc & Dsc & Msc).
    destruct (Ts sc Hsc) as (sc' & Hsc' & [(-> & Same)|[(None0 & m1 & H1 & ->)|(m0 & H0 & None1 & ->)]]).
    + exists sc. split; [assumption|]. split; [assumption|].
      intro o. rewrite Msc. split.
      * intros [G|(s' & m & H & E)]; [now left|]. right.
        destruct (Slot_eq_dec s' s) as [->|N].
        -- destruct (proj1 (Same o)) as (m1 & H1 & E1); [now exists m|].
           now exists s, m1.
        -- exists s', m. now rewrite To.
      * intros [G|(s' & m & H & E)]; [now left|]. right.
        destruct (Slot_eq_dec s' s) as [->|N].
        -- destruct (proj2 (Same o)) as (m0 & H0 & E0); [now exists m|].
           now exists s, m0.
        -- exists s', m. now rewrite <- To.
    + assert (Fresh : ~ In (Mesh.id m1) sc).
      { intro I. apply Msc in I.
        assert (J : In (Mesh.id m1) (meshIds m1)) by (now left).
        destruct (proj2 (Tm m1 H1) _ J) as [B|(m0 & H0 & _)]; [|congruence].
        destruct I as [G|(s' & m & H & E)].
        - unfold backgroundGrid in G. pose proof (s_floor w S). lia.
        - assert (Jm : In (Mesh.id m) (meshIds m)) by (now left).
          pose proof (proj2 (s_ids w S s' m H) _ Jm). lia. }
      exists (sc ++ [Mesh.id m1]). split; [assumption|]. split.
      * apply NoDup_app_intro; [assumption | repeat constructor; simpl; tauto|].
        intros a I [<-|[]]. auto.
      * intro o. rewrite in_app_iff, Msc. simpl. split.
        -- intros [[G|(s' & m & H & E)]|[E|[]]].
           ++ now left.
           ++ right. exists s', m. split; [|assumption].
              rewrite To; [assumption | congruence].
           ++ right. now exists s, m1.
        -- intros [G|(s' & m & H & E)]; [left; now left|].
           destruct (Slot_eq_dec s' s) as [->|N].
           ++ right. left. congruence.
           ++ left. right. exists s', m. now rewrite <- To.
    + exists (filter (fun o => negb (Nat.eqb o (Mesh.id m0))) sc).
      split; [assumption|]. split; [now apply NoDup_filter|].
      intro o. rewrite filter_In, Msc, negb_true_iff, Nat.eqb_neq. split.
      * intros [[G|(s' & m & H & E)] Ne]; [now left|]. right.
        exists s', m. split; [|assumption]. rewrite To; [assumption|].
        intros ->. congruence.
      * intros [G|(s' & m & H & E)].
        -- split; [now left|]. subst o.
           assert (J : In (Mesh.id m0) (meshIds m0)) by (now left).
           pose proof (proj2 (s_ids w S s m0 H0) _ J).
           unfold backgroundGrid. lia.
        -- assert (N : s' <> s) by (intros ->; congruence).
           rewrite To in H by assumption. split; [right; now exists s', m|].
           subst o. intro E.
           apply (s_apart w S s' s m m0 (Mesh.id m) N H H0); [now left|].
           rewrite E. now left.
  - intros i I. rewrite Tc, disposals_app, in_app_iff in I.
    destruct I as [I|I].
    + pose proof (s_disposed w S i I). lia.
    + destruct (proj1 (Tx i I)) as (m0 & H0 & I0).
      pose proof (proj2 (s_ids w S s m0 H0) i I0). lia.
  - intros s' m i H I. rewrite Tc, disposals_app, in_app_iff.
    intros [J|J].
    + destruct (Own s' m H i I) as [B|(m0 & H0 & I0)].
      * pose proof (s_disposed w S i J). lia.
      * exact (s_live w S s' m0 i H0 I0 J).
    + destruct (Tx i J) as ((m0 & H0 & I0) & Gone).
      destruct (Slot_eq_dec s' s) as [->|N].
      * exact (Gone m H I).
      * rewrite To in H by assumption.
        exact (s_apart w S s' s m m0 i N H H0 I I0).
  - rewrite Tc, disposals_app.
    apply NoDup_app_intro; [apply (s_once w S) | assumption|].
    intros i I J. destruct (proj1 (Tx i J)) as (m0 & H0 & I0).
    exact (s_live w S s m0 i H0 I0 I).
Qed.

Lemma Touches_looks (me : string) (s : Slot) (w w' : World) :
  Looks me w -> Touches s w w' ->
  (forall m1, slot s w' = Some m1 -> meshOK me s m1) -> Looks me w'.
Proof.
  intros L T H s' m G. destruct (Slot_eq_dec s' s) as [->|N]; [auto|].
  apply L. now rewrite <- (t_other s w w' T).
Qed.

Lemma Touches_refl (s : Slot) (w : World) : Sound w -> Touches s w w.
Proof.
  intro S. constructor.
  - apply (s_pwf w S).
  - apply (s_fwf w S).
  - reflexivity.
  - lia.
  - intros m1 H. split; [now apply (s_ids w S s m1)|].
    intros i I. right. now exists m1.
  - exists []. rewrite app_nil_r. split; [reflexivity|].
    split; [constructor | intros i []].
  - intros sc H. exists sc. split; [assumption|]. left. split; [reflexivity|].
    tauto.
Qed.

(* ================================================================= *)
(** ** The four loop bodies work on one slot each *)

Ltac wcbn := cbn -[JsMap.delete JsMap.set JsMap.get].

Lemma NoDup_three {A} (a b c : A) (l : list A) :
  NoDup (a :: b :: c :: l) -> a <> b /\ a <> c /\ b <> c.
Proof.
  intro D. inversion D as [|? ? Na D1]; subst.
  inversion D1 as [|? ? Nb D2]; subst. simpl in Na, Nb. intuition.
Qed.

Lemma removeOldPlayerMesh_touches (players : JsMap.t string Player.t)
  (w : World) (k : string) (mesh : Mesh.t) :
  Sound w -> JsMap.get k (playerMeshesRef w) = Some mesh ->
  Touches (PlayerSlot k) w (removeOldPlayerMesh players w (k, mesh)) /\
  (JsMap.has k players = false ->
   slot (PlayerSlot k) (removeOldPlayerMesh players w (k, mesh)) = None).
Proof.
  intros S G. unfold removeOldPlayerMesh.
  destruct (JsMap.has k players); cbn [negb].
  - split; [now apply Touches_refl | discriminate].
  - split; [|intros _; wcbn; apply get_delete_eq].
    constructor; wcbn.
    + apply wf_delete, (s_pwf w S).
    + apply (s_fwf w S).
    + intros [k'|z] N; wcbn; [|reflexivity].
      apply get_delete_neq. congruence.
    + lia.
    + intros m1 H. rewrite get_delete_eq in H. discriminate.
    + eexists. split; [reflexivity|]. wcbn. split; [constructor | intros i []].
    + intros sc H. rewrite H. wcbn. eexists. split; [reflexivity|].
      right. right. exists mesh. split; [assumption|].
      split; [apply get_delete_eq | reflexivity].
Qed.

Lemma removeOldFoodMesh_touches (ids : list Z) (w : World) (k : Z)
  (mesh : Mesh.t) :
  Sound w -> JsMap.get k (foodMeshesRef w) = Some mesh ->
  Touches (FoodSlot k) w (removeOldFoodMesh ids w (k, mesh)) /\
  (existsb (Z.eqb k) ids = false ->
   slot (FoodSlot k) (removeOldFoodMesh ids w (k, mesh)) = None).
Proof.
  intros S G. unfold removeOldFoodMesh.
  destruct (existsb (Z.eqb k) ids); cbn [negb].
  - split; [now apply Touches_refl | discriminate].
  - split; [|intros _; wcbn; apply get_delete_eq].
    destruct (s_ids w S (FoodSlot k) mesh G) as [D _].
    apply NoDup_three in D.
    constructor; wcbn.
    + apply (s_pwf w S).
    + apply wf_delete, (s_fwf w S).
    + intros [k'|z] N; wcbn; [reflexivity|].
      apply get_delete_neq. congruence.
    + lia.
    + intros m1 H. rewrite get_delete_eq in H. discriminate.
    + eexists. split; [rewrite <- !app_assoc; reflexivity|]. wcbn. split.
      * repeat constructor; simpl; intuition.
      * intros i I. split.
        -- exists mesh. split; [assumption|]. unfold meshIds, resources.
           simpl. simpl in I. intuition.
        -- intros m1 H. rewrite get_delete_eq in H. discriminate.
    + intros sc H. rewrite H. wcbn. eexists. split; [reflexivity|].
      right. right. exists mesh. split; [assumption|].
      split; [apply get_delete_eq | reflexivity].
Qed.

Lemma upsertFood_touches (me : string) (w : World) (f : Food.t) :
  Sound w -> Looks me w ->
  Touches (FoodSlot (Food.id f)) w (upsertFood w f) /\
  (forall m1, slot (FoodSlot (Food.id f)) (upsertFood w f) = Some m1 ->
              foodMeshOK m1 /\
              Mesh.position m1 =
                (Position.x (Food.position f), Position.y (Food.position f),
                 - (1 # 2))).
Proof.
  intros S L. unfold upsertFood.
  destruct (JsMap.get (Food.id f) (foodMeshesRef w)) as [mesh0|] eqn:G.
  - pose proof (L (FoodSlot (Food.id f)) mesh0 G) as (Og & Oc & _).
    split.
    + constructor; wcbn.
      * apply (s_pwf w S).
      * apply wf_set, (s_fwf w S).
      * intros [k'|z] N; wcbn; [reflexivity|].
        apply get_set_neq. congruence.
      * lia.
      * intros m1 H. rewrite get_set_eq in H. injection H as <-.
        split; [exact (proj1 (s_ids w S (FoodSlot (Food.id f)) mesh0 G))|].
        intros i I. right. now exists mesh0.
      * eexists. split; [reflexivity|]. wcbn.
        split; [constructor | intros i []].
      * intros sc H. exists sc. split; [assumption|]. left.
        split; [reflexivity|]. intro o. rewrite G, get_set_eq. split.
        -- intros (m0 & [= <-] & E). eexists. split; [reflexivity | exact E].
        -- intros (m1 & [= <-] & E). exists mesh0. split; [reflexivity | exact E].
    + wcbn. intros m1 H. rewrite get_set_eq in H. injection H as <-.
      split; [|reflexivity]. repeat split; assumption.
  - unfold createFoodMesh. wcbn. rewrite set_set. split.
    + pose proof (s_floor w S) as F.
      constructor; wcbn.
      * apply (s_pwf w S).
      * apply wf_set, (s_fwf w S).
      * intros [k'|z] N; wcbn; [reflexivity|].
        apply get_set_neq. congruence.
      * lia.
      * intros m1 H. rewrite get_set_eq in H. injection H as <-.
        wcbn. split.
        -- repeat constructor; simpl; intuition lia.
        -- intros i I. left. intuition lia.
      * eexists. split; [rewrite <- !app_assoc; reflexivity|]. wcbn.
        split; [constructor | intros i []].
      * intros sc H. rewrite H. wcbn. eexists. split; [reflexivity|].
        right. left. split; [assumption|].
        eexists. rewrite get_set_eq. split; reflexivity.
    + wcbn. intros m1 H. rewrite get_set_eq in H. injection H as <-.
      repeat split.
Qed.

(** Turns [NoDup] and bounds on an explicit list of ids into facts about
    its elements. *)
Ltac explode_ids :=
  repeat match goal with
         | H : NoDup (_ :: _) |- _ => inversion H; clear H; subst
         | H : NoDup [] |- _ => clear H
         | H : Forall _ (_ :: _) |- _ => inversion H; clear H; subst
         | H : Forall _ [] |- _ => clear H
         end;
  simpl In in *.

Ltac split_In I :=
  simpl in I;
  repeat match type of I with
         | _ \/ _ => destruct I as [<-|I]
         | False => contradiction
         end.

(** The fields of [Touches] for a step that stores [m1] under the player
    key [k], where [G] says what was stored before. *)
Ltac touch_player S G :=
  constructor; wcbn;
  [ apply wf_set, (s_pwf _ S)
  | apply (s_fwf _ S)
  | let N := fresh "N" in
    intros [?|?] N; wcbn; [apply get_set_neq; congruence | reflexivity]
  | lia
  | let H := fresh "H" in let I := fresh "I" in
    intros ? H; rewrite get_set_eq in H; injection H as <-; wcbn; split;
    [ repeat constructor; simpl; intuition lia
    | intros ? I; split_In I;
      first [ left; lia
            | right; eexists; split; [exact G | simpl; tauto] ] ]
  | eexists; split; [rewrite <- ?app_assoc; reflexivity|]; wcbn; split;
    [ repeat constructor; simpl; intuition lia
    | let H := fresh "H" in let I := fresh "I" in
      intros ? I; split_In I; split;
      try (eexists; split; [exact G | simpl; tauto]);
      intros ? H; rewrite get_set_eq in H; injection H as <-; simpl;
      intuition lia ]
  | idtac ].

Lemma upsertPlayer_touches (me : string) (w : World) (k : string)
  (p : Player.t) :
  Sound w -> Looks me w ->
  Touches (PlayerSlot k) w (upsertPlayer me w (k, p)) /\
  (forall m1, slot (PlayerSlot k) (upsertPlayer me w (k, p)) = Some m1 ->
              playerMeshOK me k m1) /\
  (Player.online p = true ->
   exists m1,
     slot (PlayerSlot k) (upsertPlayer me w (k, p)) = Some m1 /\
     Mesh.position m1 = playerPoint p).
Proof.
  intros S L. unfold upsertPlayer.
  destruct (Player.online p) eqn:O; cbn [negb].
  2:{ split; [now apply Touches_refl|]. split; [|discriminate].
      intros m1 H. exact (L (PlayerSlot k) m1 H). }
  pose proof (s_floor w S) as F.
  destruct (JsMap.get k (playerMeshesRef w)) as [mesh0|] eqn:G.
  - pose proof (L (PlayerSlot k) mesh0 G) as (r & c & Hr & Hc & Hg & Hm & Hch).
    destruct (s_ids w S (PlayerSlot k) mesh0 G) as [D B].
    apply Forall_forall in B.
    destruct mesh0 as [id g mat pos ch cr cc].
    cbn [Mesh.currentRadius Mesh.currentColor Mesh.geometry Mesh.material
         Mesh.children] in *. subst cr cc.
    unfold updatePlayerMesh, radiusChanged, colorChanged.
    cbn [Mesh.currentRadius Mesh.currentColor Mesh.setCurrentRadius
         Mesh.setCurrentColor].
    destruct (negb (strictEq r (Player.radius p))) eqn:B1;
      cbn [Mesh.currentRadius Mesh.currentColor Mesh.setCurrentRadius
         Mesh.setCurrentColor];
      destruct (negb (sameColor c (Player.color p))) eqn:B2;
      destruct (String.eqb k me) eqn:B3;
      try (destruct Hch as (o & -> & (On & Og & Om)));
      try subst ch;
      unfold rebuildGeometry; rewrite ?B3; wcbn; rewrite ?On; wcbn;
      unfold meshIds, resources in D, B; cbn in D, B; explode_ids.
    all: split; [touch_player S G|].
    all: try (intros sc Hs; exists sc; split; [exact Hs|]; left;
              split; [reflexivity|]; intro o'; rewrite G, get_set_eq;
              split; intros (m & E & E'); injection E as <-;
              eexists; (split; [reflexivity | exact E'])).
    all: split;
      [ intros m1 H; cbn -[JsMap.delete JsMap.set JsMap.get] in H;
        rewrite get_set_eq in H; injection H as <-;
        unfold playerMeshOK; wcbn; rewrite B3;
        eexists _, _; split; [reflexivity|]; split; [reflexivity|];
        split; [first [reflexivity | assumption]|];
        split; [first [reflexivity | assumption]|];
        first [ reflexivity
              | eexists; split; [reflexivity|]; unfold isOutline; wcbn;
                repeat split; first [assumption | reflexivity] ]
      | intros _; eexists; split; [wcbn; apply get_set_eq | reflexivity] ].
  - unfold createPlayerMesh. wcbn.
    destruct (String.eqb k me) eqn:B3; wcbn; rewrite set_set.
    all: split; [touch_player S G|].
    all: try (intros sc Hs; rewrite Hs; wcbn; eexists; split; [reflexivity|];
              right; left; split; [exact G|];
              eexists; split; [apply get_set_eq | reflexivity]).
    all: split;
      [ intros m1 H; cbn -[JsMap.delete JsMap.set JsMap.get] in H;
        rewrite get_set_eq in H; injection H as <-;
        unfold playerMeshOK; wcbn; rewrite B3;
        eexists _, _; split; [reflexivity|]; split; [reflexivity|];
        split; [reflexivity|]; split; [reflexivity|];
        first [ reflexivity
              | eexists; split; [reflexivity|]; unfold isOutline; wcbn;
                repeat split ]
      | intros _; eexists; split; [wcbn; apply get_set_eq | reflexivity] ].
Qed.

(* ================================================================= *)
(** ** Ownership along a run *)

Lemma sameRender_sound (me : string) (w w' : World) :
  sameRender w w' -> Sound w /\ Looks me w -> Sound w' /\ Looks me w'.
Proof.
  intros (Sc & Pm & Fm & Nx & Cs) [S L].
  assert (Sl : forall s, slot s w' = slot s w).
  { intros [k|z]; simpl; congruence. }
  split.
  - destruct S as [A B C D E F G H I]. constructor.
    + now rewrite Pm.
    + now rewrite Fm.
    + now rewrite Nx.
    + intros s m. rewrite Sl, Nx. apply D.
    + intros s1 s2 m1 m2 i. rewrite !Sl. apply E.
    + destruct F as (sc & F1 & F2 & F3). exists sc. rewrite Sc.
      split; [assumption|]. split; [assumption|].
      intro o. rewrite F3. split; intros [X|(s & m & Y & Z)]; try (now left);
        right; exists s, m; [rewrite Sl | rewrite <- Sl]; auto.
    + rewrite Cs, Nx. exact G.
    + intros s m i. rewrite Sl, Cs. apply H.
    + now rewrite Cs.
  - intros s m. rewrite Sl. apply L.
Qed.

Section SoundPasses.
Variable me : string.

Lemma playerRemovePass_sound (players : JsMap.t string Player.t)
  (l : list (string * Mesh.t)) (w : World) :
  Sound w /\ Looks me w -> NoDup (map fst l) ->
  (forall k m, In (k, m) l -> JsMap.get k (playerMeshesRef w) = Some m) ->
  Sound (fold_left (removeOldPlayerMesh players) l w) /\
  Looks me (fold_left (removeOldPlayerMesh players) l w).
Proof.
  revert w. induction l as [|[k m] l IH]; intros w [S L] D H; cbn [fold_left].
  - now split.
  - inversion D as [|? ? N D']; subst. cbn [map fst] in N.
    destruct (removeOldPlayerMesh_touches players w k m S
                (H k m (or_introl eq_refl))) as [T Gone].
    apply IH; [split | assumption |].
    + exact (Touches_sound _ _ _ S T).
    + apply (Touches_looks me _ _ _ L T). intros m1 H1.
      destruct (JsMap.has k players) eqn:Hk.
      * unfold removeOldPlayerMesh in H1. rewrite Hk in H1.
        exact (L (PlayerSlot k) m1 H1).
      * rewrite Gone in H1 by reflexivity. discriminate.
    + intros k' m' I.
      change (slot (PlayerSlot k') (removeOldPlayerMesh players w (k, m))
              = Some m').
      rewrite (t_other _ _ _ T).
      * apply H. now right.
      * intros [= ->]. apply N. change k with (fst (k, m')). now apply in_map.
Qed.

Lemma playerUpsertPass_sound (l : list (string * Player.t)) (w : World) :
  Sound w /\ Looks me w ->
  Sound (fold_left (upsertPlayer me) l w) /\
  Looks me (fold_left (upsertPlayer me) l w).
Proof.
  revert w. induction l as [|[k p] l IH]; intros w [S L]; cbn [fold_left].
  - now split.
  - destruct (upsertPlayer_touches me w k p S L) as (T & Ok & _).
    apply IH. split.
    + exact (Touches_sound _ _ _ S T).
    + exact (Touches_looks me _ _ _ L T Ok).
Qed.

Lemma foodRemovePass_sound (ids : list Z) (l : list (Z * Mesh.t)) (w : World) :
  Sound w /\ Looks me w -> NoDup (map fst l) ->
  (forall k m, In (k, m) l -> JsMap.get k (foodMeshesRef w) = Some m) ->
  Sound (fold_left (removeOldFoodMesh ids) l w) /\
  Looks me (fold_left (removeOldFoodMesh ids) l w).
Proof.
  revert w. induction l as [|[k m] l IH]; intros w [S L] D H; cbn [fold_left].
  - now split.
  - inversion D as [|? ? N D']; subst. cbn [map fst] in N.
    destruct (removeOldFoodMesh_touches ids w k m S
                (H k m (or_introl eq_refl))) as [T Gone].
    apply IH; [split | assumption |].
    + exact (Touches_sound _ _ _ S T).
    + apply (Touches_looks me _ _ _ L T). intros m1 H1.
      destruct (existsb (Z.eqb k) ids) eqn:Hk.
      * unfold removeOldFoodMesh in H1. rewrite Hk in H1.
        exact (L (FoodSlot k) m1 H1).
      * rewrite Gone in H1 by reflexivity. discriminate.
    + intros k' m' I.
      change (slot (FoodSlot k') (removeOldFoodMesh ids w (k, m)) = Some m').
      rewrite (t_other _ _ _ T).
      * apply H. now right.
      * intros [= ->]. apply N. change k with (fst (k, m')). now apply in_map.
Qed.

Lemma foodUpsertPass_sound (l : list Food.t) (w : World) :
  Sound w /\ Looks me w ->
  Sound (fold_left upsertFood l w) /\ Looks me (fold_left upsertFood l w).
Proof.
  revert w. induction l as [|f l IH]; intros w [S L]; cbn [fold_left].
  - now split.
  - destruct (upsertFood_touches me w f S L) as (T & Ok).
    apply IH. split.
    + exact (Touches_sound _ _ _ S T).
    + apply (Touches_looks me _ _ _ L T). intros m1 H. now apply Ok.
Qed.

Lemma playersEffect_sound (players : JsMap.t string Player.t) (w : World) :
  Sound w /\ Looks me w ->
  Sound (playersEffect me players w) /\ Looks me (playersEffect me players w).
Proof.
  intros [S L]. unfold playersEffect. destruct (sceneRef w); [|now split].
  apply playerUpsertPass_sound, playerRemovePass_sound.
  - now split.
  - apply (s_pwf w S).
  - intros k m I. now apply In_get; [apply (s_pwf w S)|].
Qed.

Lemma foodEffect_sound (food : list Food.t) (w : World) :
  Sound w /\ Looks me w ->
  Sound (foodEffect food w) /\ Looks me (foodEffect food w).
Proof.
  intros [S L]. unfold foodEffect. destruct (sceneRef w); [|now split].
  apply foodUpsertPass_sound, foodRemovePass_sound.
  - now split.
  - apply (s_fwf w S).
  - intros k m I. now apply In_get; [apply (s_fwf w S)|].
Qed.

Lemma initial_sound (now0 : Z) :
  Sound (world (initialApp now0)) /\ Looks me (world (initialApp now0)).
Proof.
  split.
  - constructor; cbn.
    + constructor.
    + constructor.
    + lia.
    + intros [k|z] m H; discriminate H.
    + intros [k|z] s2 m1 m2 i _ H; discriminate H.
    + exists [backgroundGrid]. split; [reflexivity|].
      split; [repeat constructor; simpl; tauto|].
      intro o. simpl. split.
      * intros [<-|[]]. now left.
      * intros [->|([k|z] & m & H & _)]; [now left | discriminate H..].
    + intros i [].
    + intros [k|z] m i H; discriminate H.
    + constructor.
  - intros [k|z] m H; discriminate H.
Qed.

Lemma run_sound (now0 : Z) (events : list Event) :
  Sound (world (run me now0 events)) /\ Looks me (world (run me now0 events)).
Proof.
  induction events as [|e events IH] using rev_ind.
  - apply initial_sound.
  - rewrite run_snoc. destruct e; cbn [step world]; try exact IH.
    + now apply playersEffect_sound.
    + now apply foodEffect_sound.
    + apply (sameRender_sound me (world (run me now0 events))); [|exact IH].
      unfold handleKeyDown. destruct (existsb _ _); repeat split.
    + apply (sameRender_sound me (world (run me now0 events))); [|exact IH].
      repeat split.
    + apply (sameRender_sound me (world (run me now0 events))); [|exact IH].
      apply gameLoop_frame.
Qed.

End SoundPasses.

(* ================================================================= *)
(** ** What holds of the scene and of the meshes in every reachable state *)

(** X10: whatever events arrive, the scene holds the background grid and
    the meshes of the two maps, each once, and nothing else; and two
    entries of the maps never share a mesh object. *)
Theorem scene_holds_grid_and_owned_meshes (me : string) (now0 : Z)
  (events : list Event) :
  let w := world (run me now0 events) in
  (exists sc,
      sceneRef w = Some sc /\ NoDup sc /\
      forall o, In o sc <->
                o = backgroundGrid \/
                exists s m, slot s w = Some m /\ Mesh.id m = o) /\
  (forall s1 s2 m1 m2,
      slot s1 w = Some m1 -> slot s2 w = Some m2 ->
      Mesh.id m1 = Mesh.id m2 -> s1 = s2).
Proof.
  cbv zeta. destruct (run_sound me now0 events) as [S _].
  split; [apply (s_scene _ S)|].
  intros s1 s2 m1 m2 H1 H2 E.
  destruct (Slot_eq_dec s1 s2) as [|N]; [assumption|]. exfalso.
  apply (s_apart _ S s1 s2 m1 m2 (Mesh.id m1) N H1 H2); [now left|].
  rewrite E. now left.
Qed.

(** X11: whatever events arrive, no geometry or material held by a mesh of
    the maps (or by its outline) has been disposed, and nothing has been
    disposed twice. *)
Theorem no_use_after_dispose (me : string) (now0 : Z) (events : list Event) :
  let w := world (run me now0 events) in
  (forall s m i, slot s w = Some m -> In i (resources m) ->
                 ~ In i (disposals (calls w))) /\
  NoDup (disposals (calls w)).
Proof.
  cbv zeta. destruct (run_sound me now0 events) as [S _].
  split; [|apply (s_once _ S)].
  intros s m i H I. apply (s_live _ S s m i H). now right.
Qed.

(** X12: whatever events arrive, every player mesh is a 32-segment circle
    of its cached radius in its cached colour, the mesh of the local player
    has exactly one child, the white outline ring from the cached radius to
    that radius plus 2, no other player mesh has a child, and every food
    mesh is a childless 16-segment circle of radius [FOOD_RADIUS] at depth
    -0.5. *)
Theorem meshes_show_their_cache (me : string) (now0 : Z)
  (events : list Event) :
  let w := world (run me now0 events) in
  (forall k m, JsMap.get k (playerMeshesRef w) = Some m -> playerMeshOK me k m) /\
  (forall z m, JsMap.get z (foodMeshesRef w) = Some m -> foodMeshOK m).
Proof.
  cbv zeta. destruct (run_sound me now0 events) as [_ L]. split.
  - intros k m H. exact (L (PlayerSlot k) m H).
  - intros z m H. exact (L (FoodSlot z) m H).
Qed.

Lemma meshes_show_their_cache_witness :
  playerMeshOK "a11ce" "a11ce"
    (Mesh.mk 5
       {| geometry_id := 3; geometry_shape := CircleGeometry 10 32 |}
       {| material_id := 4; material_color := rgb red |}
       (Num 450, Num 450, Num 0)
       [{| child_name := "outline";
           child_geometry :=
             {| geometry_id := 6;
                geometry_shape := RingGeometry 10 (10 + 2) 32 |};
           child_material :=
             {| material_id := 7; material_color := white |} |}]
       (Some (Num 10)) (Some red)).
Proof.
  pose proof (meshes_show_their_cache "a11ce" 0 onlineLocalEvents) as H.
  cbv zeta in H. destruct H as [P _].
  apply (P "a11ce"%string). reflexivity.
Defined.

(* ================================================================= *)
(** ** After an effect the meshes show the snapshot *)

Lemma div_same (a b : number) (d : Q) : a == b -> a / d = b / d.
Proof.
  destruct a as [|x], b as [|y]; cbn [numEq]; try tauto.
  intro E. unfold div. destruct (Qeq_bool d 0); [reflexivity|].
  apply Num_fl. now rewrite E.
Qed.

(** Colours with the same components give the same red, green and blue. *)
Lemma rgb_same (a b : Color.t) : sameComponents a b -> rgb a = rgb b.
Proof.
  intros (R & G & B). unfold rgb.
  now rewrite (div_same _ _ 255 R), (div_same _ _ 255 G), (div_same _ _ 255 B).
Qed.

Lemma upsertPass_position (me : string) (l : list (string * Player.t))
  (w : World) :
  Sound w /\ Looks me w -> allOnline l -> NoDup (map fst l) ->
  forall k p, In (k, p) l ->
  exists m,
    JsMap.get k (playerMeshesRef (fold_left (upsertPlayer me) l w)) = Some m /\
    Mesh.position m = playerPoint p.
Proof.
  revert w. induction l as [|[k1 p1] l IH]; intros w [S L] A D k p I;
    [destruct I|].
  inversion A as [|? ? O A']; subst. inversion D as [|? ? N D']; subst.
  cbn [fold_left map fst snd] in *.
  destruct (upsertPlayer_touches me w k1 p1 S L) as (T & Ok & Pos).
  destruct I as [E|I].
  - injection E as -> ->. rewrite upsertPass_frame by assumption.
    exact (Pos O).
  - apply IH; auto. split.
    + exact (Touches_sound _ _ _ S T).
    + exact (Touches_looks me _ _ _ L T Ok).
Qed.

(** X13: whatever came before, once the players effect has run every
    online player of the store has a mesh at the player's position, a
    circle whose radius equals the player's, in the player's colour. *)
Theorem players_effect_shows_snapshot (me : string) (now0 : Z)
  (events : list Event) (k : string) (p : Player.t) :
  let a := run me now0 (events ++ [PlayersEffect]) in
  JsMap.get k (players a) = Some p -> Player.online p = true ->
  exists m r,
    JsMap.get k (playerMeshesRef (world a)) = Some m /\
    Mesh.position m = playerPoint p /\
    geometry_shape (Mesh.geometry m) = CircleGeometry r 32 /\
    r == Player.radius p /\
    material_color (Mesh.material m) = rgb (Player.color p).
Proof.
  cbv zeta. rewrite run_snoc. cbn [step players world].
  intros G O.
  pose proof (run_players_wf me now0 events) as W.
  pose proof (run_sound me now0 events) as SL.
  pose proof (playersEffect_sound me (players (run me now0 events)) _ SL)
    as [_ L1].
  set (P := players (run me now0 events)) in *.
  set (w0 := world (run me now0 events)) in *.
  destruct (s_scene _ (proj1 SL)) as (sc & Hsc & _).
  assert (I : In (k, p) (sortedPlayers P)).
  { apply sortedPlayers_In. split; [now apply get_In | assumption]. }
  unfold playersEffect in *. rewrite Hsc in *.
  set (w1 := fold_left (removeOldPlayerMesh P)
               (JsMap.entries (playerMeshesRef w0)) w0) in *.
  assert (SL1 : Sound w1 /\ Looks me w1).
  { apply playerRemovePass_sound; [assumption | apply (s_pwf _ (proj1 SL))|].
    intros k' m' I'. apply In_get; [apply (s_pwf _ (proj1 SL)) | assumption]. }
  destruct (upsertPass_position me _ w1 SL1 (sortedPlayers_online P)
              (sortedPlayers_NoDup P W) k p I) as (m & Gm & Pm).
  destruct (upsertPass_cache me (sortedPlayers P) w1 (sortedPlayers_online P)
              (sortedPlayers_NoDup P W) k p I) as (m' & Gm' & R & C).
  rewrite Gm in Gm'. injection Gm' as <-.
  destruct (L1 (PlayerSlot k) m Gm) as (r & c & Hr & Hc & Hg & Hm & _).
  destruct R as (r' & Hr' & R). rewrite Hr in Hr'. injection Hr' as <-.
  destruct C as (c' & Hc' & C). rewrite Hc in Hc'. injection Hc' as <-.
  rewrite (rgb_same _ _ C) in Hm.
  exists m, r. auto.
Qed.

Lemma players_effect_shows_snapshot_witness :
  exists m r,
    JsMap.get "a11ce"%string
      (playerMeshesRef
         (world (run "a11ce" 0
                   ([PlayerEvent (Insert alice)] ++ [PlayersEffect])))) = Some m /\
    Mesh.position m = playerPoint alice /\
    geometry_shape (Mesh.geometry m) = CircleGeometry r 32 /\
    r == Player.radius alice /\
    material_color (Mesh.material m) = rgb (Player.color alice).
Proof.
  apply (players_effect_shows_snapshot "a11ce" 0 [PlayerEvent (Insert alice)]
           "a11ce" alice); reflexivity.
Defined.

Lemma scene_holds_grid_and_owned_meshes_witness :
  exists sc,
    sceneRef (world (run "a11ce" 0 onlineLocalEvents)) = Some sc /\
    NoDup sc /\ In 5%nat sc.
Proof.
  pose proof (scene_holds_grid_and_owned_meshes "a11ce" 0 onlineLocalEvents)
    as H.
  cbv zeta in H. destruct H as [(sc & E & D & M) _].
  exists sc. split; [exact E|]. split; [exact D|].
  apply M. right. exists (PlayerSlot "a11ce"). eexists.
  split; [vm_compute; reflexivity | reflexivity].
Defined.

Lemma no_use_after_dispose_witness :
  ~ In 3%nat (disposals (calls (world (run "a11ce" 0 onlineLocalEvents)))) /\
  NoDup (disposals (calls (world foodDeleteRun))).
Proof.
  split.
  - pose proof (no_use_after_dispose "a11ce" 0 onlineLocalEvents) as H.
    cbv zeta in H. destruct H as [Lv _].
    eapply (Lv (PlayerSlot "a11ce")); [vm_compute; reflexivity | now left].
  - pose proof (no_use_after_dispose "a11ce" 0
                  [FoodEvent (Insert food7); FoodEffect;
                   FoodEvent (Delete food7); FoodEffect]) as H.
    cbv zeta in H. exact (proj2 H).
Defined.

Lemma foodUpsertPass_get (l : list Food.t) (w : World) (k : Z) :
  ~ In k (foodIds l) ->
  JsMap.get k (foodMeshesRef (fold_left upsertFood l w))
  = JsMap.get k (foodMeshesRef w).
Proof.
  revert w. induction l as [|f l IH]; intros w N; cbn [fold_left];
    [reflexivity|].
  cbn [foodIds map In] in N. rewrite IH by (unfold foodIds; tauto).
  destruct (upsertFood_spec w f) as (mesh & ops & -> & _).
  apply get_set_neq. intro E. apply N. now left.
Qed.

Lemma foodUpsertPass_position (me : string) (l : list Food.t) (w : World) :
  Sound w /\ Looks me w -> NoDup (foodIds l) ->
  forall f, In f l ->
  exists m,
    JsMap.get (Food.id f) (foodMeshesRef (fold_left upsertFood l w)) = Some m /\
    Mesh.position m =
      (Position.x (Food.position f), Position.y (Food.position f), - (1 # 2)).
Proof.
  revert w. induction l as [|f1 l IH]; intros w [S L] D f I; [destruct I|].
  cbn [foodIds map] in D. inversion D as [|? ? N D']; subst.
  cbn [fold_left].
  destruct (upsertFood_touches me w f1 S L) as (T & Ok).
  destruct I as [->|I].
  - rewrite foodUpsertPass_get by assumption.
    destruct (upsertFood_spec w f) as (mesh & ops & Hm & _).
    assert (G : slot (FoodSlot (Food.id f)) (upsertFood w f) = Some mesh).
    { cbn [slot]. rewrite Hm. apply get_set_eq. }
    exists mesh. split; [exact G | exact (proj2 (Ok mesh G))].
  - apply IH; auto. split.
    + exact (Touches_sound _ _ _ S T).
    + apply (Touches_looks me _ _ _ L T). intros m1 H. now apply Ok.
Qed.

(** X14: whatever came before, once the food effect has run on an array
    with pairwise distinct ids, every food item has a mesh at the item's
    position and depth -0.5, a childless 16-segment circle of radius
    [FOOD_RADIUS], and there are exactly as many food meshes as items. *)
Theorem food_effect_shows_snapshot (me : string) (now0 : Z)
  (events : list Event) :
  let a := run me now0 (events ++ [FoodEffect]) in
  NoDup (foodIds (food a)) ->
  (forall f, In f (food a) ->
     exists m,
       JsMap.get (Food.id f) (foodMeshesRef (world a)) = Some m /\
       Mesh.position m =
         (Position.x (Food.position f), Position.y (Food.position f),
          - (1 # 2)) /\
       geometry_shape (Mesh.geometry m) = CircleGeometry FOOD_RADIUS 16 /\
       Mesh.children m = []) /\
  JsMap.size (foodMeshesRef (world a)) = List.length (food a).
Proof.
  cbv zeta. rewrite run_snoc. cbn [step food world]. intro D.
  pose proof (run_sound me now0 events) as SL.
  pose proof (foodEffect_sound me (food (run me now0 events)) _ SL)
    as [S1 L1].
  set (F := food (run me now0 events)) in *.
  set (w0 := world (run me now0 events)) in *.
  destruct (s_scene _ (proj1 SL)) as (sc & Hsc & _).
  split.
  - intros f I.
    assert (E : foodEffect F w0 =
                fold_left upsertFood F
                  (fold_left (removeOldFoodMesh (foodIds F))
                     (JsMap.entries (foodMeshesRef w0)) w0)).
    { unfold foodEffect. now rewrite Hsc. }
    set (w1 := fold_left (removeOldFoodMesh (foodIds F))
                 (JsMap.entries (foodMeshesRef w0)) w0) in *.
    assert (SL1 : Sound w1 /\ Looks me w1).
    { apply foodRemovePass_sound; [assumption | apply (s_fwf _ (proj1 SL))|].
      intros k' m' I'. apply In_get; [apply (s_fwf _ (proj1 SL)) | assumption]. }
    destruct (foodUpsertPass_position me F w1 SL1 D f I) as (m & Gm & Pm).
    rewrite <- E in Gm.
    destruct (L1 (FoodSlot (Food.id f)) m Gm) as (Hg & Hc & _).
    exists m. auto.
  - unfold JsMap.size. rewrite <- (length_map fst), <- (length_map Food.id).
    apply Permutation_length, NoDup_Permutation.
    + apply (s_fwf _ S1).
    + exact D.
    + intro z. apply (foodEffect_keys F w0 z). congruence.
Qed.

Lemma food_effect_shows_snapshot_witness :
  JsMap.size
    (foodMeshesRef
       (world (run "a11ce" 0 ([FoodEvent (Insert food7)] ++ [FoodEffect]))))
  = 1%nat.
Proof.
  destruct (food_effect_shows_snapshot "a11ce" 0 [FoodEvent (Insert food7)])
    as [_ C].
  - repeat constructor. simpl. tauto.
  - exact C.
Defined.

(** X15: whatever came before, once the players effect has run every row
    of the list of online players has a mesh under its identity, so the
    count in the heading is at most the number of player meshes. *)
Theorem online_rows_have_meshes (me : string) (now0 : Z)
  (events : list Event) :
  let a := run me now0 (events ++ [PlayersEffect]) in
  (forall p, In p (onlinePlayers (players a)) ->
             JsMap.has (Player.identity p) (playerMeshesRef (world a)) = true) /\
  (List.length (onlinePlayers (players a))
   <= JsMap.size (playerMeshesRef (world a)))%nat.
Proof.
  cbv zeta. rewrite run_snoc. cbn [step players world].
  pose proof (run_sound me now0 events) as [S _].
  pose proof (run_keyedByIdentity me now0 events) as K.
  pose proof (run_players_wf me now0 events) as W.
  set (P := players (run me now0 events)) in *.
  set (w0 := world (run me now0 events)) in *.
  destruct (s_scene _ S) as (sc & Hsc & _).
  assert (H : forall p, In p (onlinePlayers P) ->
                        In (Player.identity p)
                           (JsMap.keys (playerMeshesRef (playersEffect me P w0)))).
  { intros p I. unfold onlinePlayers in I. apply filter_In in I.
    destruct I as [I O]. apply in_map_iff in I.
    destruct I as ([k q] & E & I). simpl in E. subst q.
    apply playersEffect_keys; [congruence|]. right.
    exists p. rewrite (K k p I). auto. }
  split.
  - intros p I. apply has_In. now apply H.
  - unfold JsMap.size.
    rewrite <- (length_map fst (playerMeshesRef (playersEffect me P w0))).
    rewrite <- (length_map Player.identity (onlinePlayers P)).
    apply NoDup_incl_length.
    + clear - K W. unfold onlinePlayers, JsMap.entries.
      unfold JsMap.wf, JsMap.keys in W. unfold keyedByIdentity, JsMap.entries in K.
      induction P as [|[k p] m IH]; simpl; [constructor|].
      inversion W as [|? ? N W']; subst.
      assert (K' : forall k0 p0, In (k0, p0) m -> Player.identity p0 = k0)
        by (intros; apply K; now right).
      destruct (Player.online p); simpl; [|auto].
      constructor; [|auto].
      rewrite in_map_iff. intros (q & E & I). apply filter_In in I.
      destruct I as [I _]. apply in_map_iff in I.
      destruct I as ([k2 q2] & <- & I).
      simpl in E. apply N. rewrite (K k p (or_introl eq_refl)) in E.
      rewrite <- E, (K' k2 q2 I). change k2 with (fst (k2, q2)).
      now apply in_map.
    + intros k I. apply in_map_iff in I. destruct I as (p & <- & I).
      now apply H.
Qed.

Lemma online_rows_have_meshes_witness :
  JsMap.has "a11ce"%string
    (playerMeshesRef
       (world (run "b0b" 0 ([PlayerEvent (Insert alice)] ++ [PlayersEffect]))))
  = true.
Proof.
  pose proof (online_rows_have_meshes "b0b" 0 [PlayerEvent (Insert alice)])
    as H.
  cbv zeta in H. destruct H as [M _].
  apply (M alice). simpl. now left.
Defined.

(* ================================================================= *)
(** ** Unmounting *)

Lemma disposeChildren_calls (cs : list Child) (w : World) :
  ownedMeshes (fold_left disposeChild cs w) = ownedMeshes w /\
  disposals (calls (fold_left disposeChild cs w))
  = disposals (calls w) ++ flat_map childResources cs.
Proof.
  revert w. induction cs as [|c cs IH]; intro w; cbn [fold_left flat_map].
  - now rewrite app_nil_r.
  - destruct (IH (disposeChild w c)) as [-> ->]. split; [reflexivity|].
    unfold disposeChild, materialDispose, geometryDispose. cbn [calls emit].
    rewrite !disposals_app, <- !app_assoc. reflexivity.
Qed.

Lemma disposeObject_calls (o : nat) (w : World) :
  ownedMeshes (disposeObject w o) = ownedMeshes w /\
  disposals (calls (disposeObject w o))
  = disposals (calls w) ++
    match meshOf o w with Some m => resources m | None => [] end.
Proof.
  unfold disposeObject. destruct (meshOf o w) as [m|].
  - destruct (disposeChildren_calls (Mesh.children m)
                (materialDispose (Mesh.material m)
                   (geometryDispose (Mesh.geometry m) w))) as [-> ->].
    split; [reflexivity|].
    unfold materialDispose, geometryDispose, resources. cbn [calls emit].
    rewrite !disposals_app, <- !app_assoc. reflexivity.
  - now rewrite app_nil_r.
Qed.

Lemma disposeObjects_calls (sc : list nat) (w : World) :
  disposals (calls (fold_left disposeObject sc w))
  = disposals (calls w) ++
    flat_map (fun o => match meshOf o w with
                       | Some m => resources m
                       | None => []
                       end) sc.
Proof.
  revert w. induction sc as [|o sc IH]; intro w; cbn [fold_left flat_map].
  - now rewrite app_nil_r.
  - rewrite IH. destruct (disposeObject_calls o w) as [E ->].
    rewrite <- app_assoc. f_equal. f_equal.
    apply flat_map_ext. intro o'. unfold meshOf. now rewrite E.
Qed.

Lemma owned_slot (w : World) (m : Mesh.t) :
  Sound w -> In m (ownedMeshes w) -> exists s, slot s w = Some m.
Proof.
  intros S I. unfold ownedMeshes in I. apply in_app_iff in I.
  destruct I as [I|I]; apply in_map_iff in I; destruct I as ([k m'] & E & I);
    simpl in E; subst m'.
  - exists (PlayerSlot k). apply In_get; [apply (s_pwf w S) | assumption].
  - exists (FoodSlot k). apply In_get; [apply (s_fwf w S) | assumption].
Qed.

Lemma slot_owned (w : World) (s : Slot) (m : Mesh.t) :
  slot s w = Some m -> In m (ownedMeshes w).
Proof.
  intro H. unfold ownedMeshes. apply in_app_iff.
  destruct s as [k|z]; [left | right]; apply get_In in H; apply in_map_iff.
  - now exists (k, m).
  - now exists (z, m).
Qed.

Lemma meshOf_slot (w : World) (s : Slot) (m : Mesh.t) :
  Sound w -> slot s w = Some m -> meshOf (Mesh.id m) w = Some m.
Proof.
  intros S H. unfold meshOf.
  destruct (find _ (ownedMeshes w)) as [m'|] eqn:F.
  - apply find_some in F. destruct F as [I E]. apply Nat.eqb_eq in E.
    destruct (owned_slot w m' S I) as (s' & H').
    destruct (Slot_eq_dec s' s) as [->|N]; [congruence|]. exfalso.
    apply (s_apart w S s' s m' m (Mesh.id m') N H' H); [now left|].
    rewrite E. now left.
  - pose proof (find_none _ _ F m (slot_owned w s m H)) as X.
    simpl in X. rewrite Nat.eqb_refl in X. discriminate X.
Qed.

Lemma NoDup_flat_map {A B} (f : A -> list B) (l : list A) :
  NoDup l -> (forall a, In a l -> NoDup (f a)) ->
  (forall a b x, In a l -> In b l -> a <> b -> In x (f a) -> In x (f b) -> False) ->
  NoDup (flat_map f l).
Proof.
  intros D. induction D as [|a l N D IH]; intros Hn Hd; cbn [flat_map].
  - constructor.
  - apply NoDup_app_intro.
    + apply Hn. now left.
    + apply IH.
      * intros b I. apply Hn. now right.
      * intros b c x Ib Ic. apply Hd; now right.
    + intros x Ia Ix. apply in_flat_map in Ix. destruct Ix as (b & Ib & Ix).
      apply (Hd a b x); [now left | now right | | assumption..].
      intros ->. contradiction.
Qed.

Lemma NoDup_tail {A} (a : A) (l : list A) : NoDup (a :: l) -> NoDup l.
Proof. intro D. now inversion D. Qed.

(** X16: unmounting in any reachable state disposes every geometry and
    material held by a mesh of the two maps, outline included, disposes
    nothing twice (counting what was disposed earlier), and disposes
    nothing with an id below 3: the geometry and the material of the grid,
    ids 0 and 1, are never disposed. *)
Theorem cleanup_disposes_owned_meshes (me : string) (now0 : Z)
  (events : list Event) :
  let w := world (run me now0 events) in
  let after := disposals (calls (sceneCleanup w)) in
  (forall s m i, slot s w = Some m -> In i (resources m) -> In i after) /\
  NoDup after /\
  (forall i, In i after -> (3 <= i)%nat).
Proof.
  cbv zeta. destruct (run_sound me now0 events) as [S _].
  set (w := world (run me now0 events)) in *.
  destruct (s_scene w S) as (sc & Hsc & Dsc & Msc).
  unfold sceneCleanup. rewrite Hsc, disposeObjects_calls.
  set (f := fun o => match meshOf o w with
                     | Some m => resources m
                     | None => []
                     end).
  assert (Own : forall o x, In x (f o) ->
                  exists s m, slot s w = Some m /\ Mesh.id m = o /\
                              In x (resources m)).
  { intros o x I. unfold f in I.
    destruct (meshOf o w) as [m|] eqn:F; [|destruct I].
    unfold meshOf in F. apply find_some in F. destruct F as [Io E].
    apply Nat.eqb_eq in E. destruct (owned_slot w m S Io) as (s & H).
    now exists s, m. }
  split; [|split].
  - intros s m i H I. apply in_app_iff. right. apply in_flat_map.
    exists (Mesh.id m). split.
    + apply Msc. right. now exists s, m.
    + unfold f. now rewrite (meshOf_slot w s m S H).
  - apply NoDup_app_intro.
    + apply (s_once w S).
    + apply NoDup_flat_map; [assumption | |].
      * intros o _. unfold f. destruct (meshOf o w) as [m|] eqn:F;
          [|constructor].
        unfold meshOf in F. apply find_some in F. destruct F as [Io _].
        destruct (owned_slot w m S Io) as (s & H).
        exact (NoDup_tail _ _ (proj1 (s_ids w S s m H))).
      * intros o1 o2 x _ _ N I1 I2.
        destruct (Own o1 x I1) as (s1 & m1 & H1 & E1 & R1).
        destruct (Own o2 x I2) as (s2 & m2 & H2 & E2 & R2).
        destruct (Slot_eq_dec s1 s2) as [->|Ns]; [congruence|].
        apply (s_apart w S s1 s2 m1 m2 x Ns H1 H2); now right.
    + intros x Iold Inew. apply in_flat_map in Inew.
      destruct Inew as (o & _ & Io).
      destruct (Own o x Io) as (s & m & H & _ & R).
      apply (s_live w S s m x H); [now right | assumption].
  - intros i I. apply in_app_iff in I. destruct I as [I|I].
    + apply (s_disposed w S i I).
    + apply in_flat_map in I. destruct I as (o & _ & Io).
      destruct (Own o i Io) as (s & m & H & _ & R).
      apply (proj2 (s_ids w S s m H) i). now right.
Qed.

Lemma cleanup_disposes_owned_meshes_witness :
  disposals (calls (sceneCleanup (world (run "a11ce" 0 onlineLocalEvents))))
  = [3; 4; 6; 7]%nat /\
  In 6%nat
    (disposals (calls (sceneCleanup (world (run "a11ce" 0 onlineLocalEvents))))).
Proof.
  split; [vm_compute; reflexivity|].
  pose proof (cleanup_disposes_owned_meshes "a11ce" 0 onlineLocalEvents) as H.
  cbv zeta in H. destruct H as [A _].
  eapply (A (PlayerSlot "a11ce")); [vm_compute; reflexivity|].
  simpl. tauto.
Defined.

(* ================================================================= *)
(** ** What the loop puts out stays in range *)

Lemma camera_source_range (v : Q) :
  - (100) <= cameraTarget WORLD_SIZE CAMERA_SIZE v <= 100.
Proof.
  rewrite camera_bounds. cbn [Math_max Math_min numLe opp].
  split; [apply clamp_lower | apply clamp_upper; discriminate].
Qed.

Lemma camera_source_cases (v : number) :
  withinOrNaN (- (100)) 100 (cameraTarget WORLD_SIZE CAMERA_SIZE v) /\
  (Number_isNaN v = false ->
   - (100) <= cameraTarget WORLD_SIZE CAMERA_SIZE v <= 100).
Proof.
  destruct v as [|v].
  - split; [left; apply cameraTarget_NaN | discriminate].
  - split; [right|intros _]; apply camera_source_range.
Qed.

(** Where a tick leaves the camera. *)
Lemma gameLoop_camera (me : string) (players : JsMap.t string Player.t)
  (now : Z) (w : World) :
  cameraRef (gameLoop me players now w) = cameraRef w \/
  exists currentPlayer,
    JsMap.get me players = Some currentPlayer /\
    cameraRef (gameLoop me players now w) =
    Some (cameraTarget WORLD_SIZE CAMERA_SIZE
            (Position.x (Player.position currentPlayer)),
          cameraTarget WORLD_SIZE CAMERA_SIZE
            (Position.y (Player.position currentPlayer))).
Proof.
  unfold gameLoop. set (w1 := movePlayer _ _ _ _).
  assert (C1 : cameraRef w1 = cameraRef w).
  { unfold w1. now rewrite (proj1 (movePlayer_refs _ _ _ _)). }
  rewrite (proj1 (proj2 (renderScene_refs _))).
  unfold followPlayer. destruct (cameraRef w1) eqn:E; [|left; congruence].
  destruct (myPlayerRef w1); [|left; congruence].
  destruct (JsMap.get me players) as [cur|]; [|left; congruence].
  right. exists cur. split; reflexivity.
Qed.

Lemma placed_notify (prev : JsMap.t string Player.t)
  (n : Notification Player.t) :
  (forall k p, In (k, p) (JsMap.entries prev) -> placed p) ->
  match n with
  | Insert row => placed row
  | Update _ row => placed row
  | Delete _ => True
  end ->
  forall k p, In (k, p) (JsMap.entries (notifyPlayer prev n)) -> placed p.
Proof.
  intros H Hn k p I. destruct n as [row|o row|row]; cbn in I.
  - unfold usePlayer.onInsert in I. apply In_set_inv in I.
    destruct I as [E|I]; [injection E as _ <-; exact Hn | eauto].
  - unfold usePlayer.onUpdate in I. apply In_set_inv in I.
    destruct I as [E|I]; [injection E as _ <-; exact Hn|].
    apply filter_In in I. destruct I as [I _]. eauto.
  - unfold usePlayer.onDelete in I. apply filter_In in I.
    destruct I as [I _]. eauto.
Qed.

Lemma run_placed (me : string) (now0 : Z) (events : list Event) :
  rowsArePlaced events ->
  forall k p, In (k, p) (JsMap.entries (players (run me now0 events))) ->
              placed p.
Proof.
  induction events as [|e events IH] using rev_ind; intros R k p I;
    [destruct I|].
  assert (R' : rowsArePlaced events).
  { intros n In'. apply R. apply in_or_app. now left. }
  rewrite run_snoc in I. destruct e; cbn [step players] in I; eauto.
  eapply placed_notify; [apply (IH R') | | exact I].
  apply R. apply in_or_app. right. now left.
Qed.

Lemma withinOrNaN_world (c : number) :
  (- WORLD_SIZE / 2 <= c <= WORLD_SIZE / 2) -> withinOrNaN (- (500)) 500 c.
Proof.
  destruct world_bounds as [-> ->]. intro H. now right.
Qed.

(** X17: whatever events arrive, every coordinate handed to
    [conn.reducers.playerMoved] is NaN or lies within the world, the camera
    sits at coordinates that are NaN or within [[-100, 100]], and there are
    at most as many positions sent as runs of the game loop; when every
    row that was inserted or updated to has a position whose coordinates are
    numbers, no NaN is sent or put into the camera: every sent position
    lies within the world and the camera within [[-100, 100]] on both
    axes. *)
Theorem loop_outputs_stay_in_range (me : string) (now0 : Z)
  (events : list Event) :
  let w := world (run me now0 events) in
  Forall clampedOrNaN (sent w) /\
  (List.length (sent w) <= List.length (filter isFrame events))%nat /\
  cameraClampedOrNaN w /\
  (rowsArePlaced events -> Forall inWorld (sent w) /\ cameraInRange w).
Proof.
  cbv zeta. induction events as [|e events IH] using rev_ind.
  - split; [constructor|]. split; [simpl; lia|]. split.
    + exists (Num 0), (Num 0). split; [reflexivity|].
      split; right; split; vm_compute; discriminate.
    + intros _. split; [constructor|].
      exists (Num 0), (Num 0). split; [reflexivity|].
      split; split; vm_compute; discriminate.
  - rewrite run_snoc, filter_app, length_app.
    destruct IH as (A & B & C & D).
    assert (D' : rowsArePlaced (events ++ [e]) ->
                 Forall inWorld (sent (world (run me now0 events))) /\
                 cameraInRange (world (run me now0 events)) /\
                 forall k p,
                   In (k, p) (JsMap.entries (players (run me now0 events))) ->
                   placed p).
    { intro R.
      assert (R' : rowsArePlaced events).
      { intros n In'. apply R. apply in_or_app. now left. }
      destruct (D R') as [D1 D2]. split; [assumption|]. split; [assumption|].
      now apply run_placed. }
    clear D. set (a := run me now0 events) in *.
    destruct e; cbn [step world filter isFrame List.length];
      try (split; [exact A|]; split; [lia|]; split; [exact C|];
           intro R; destruct (D' R) as (D1 & D2 & _); now split).
    + destruct (playersEffect_control me (players a) (world a))
        as (_ & _ & E1 & E2 & _).
      unfold cameraClampedOrNaN, cameraInRange. rewrite E1, E2.
      split; [exact A|]. split; [lia|]. split; [exact C|].
      intro R. destruct (D' R) as (D1 & D2 & _). now split.
    + destruct (foodEffect_control (food a) (world a))
        as (_ & _ & E1 & E2 & _).
      unfold cameraClampedOrNaN, cameraInRange. rewrite E1, E2.
      split; [exact A|]. split; [lia|]. split; [exact C|].
      intro R. destruct (D' R) as (D1 & D2 & _). now split.
    + unfold handleKeyDown. destruct (existsb _ _);
        (split; [exact A|]; split; [cbn; lia|]; split; [exact C|];
         intro R; destruct (D' R) as (D1 & D2 & _); now split).
    + split; [exact A|]. split; [cbn; lia|]. split; [exact C|].
      intro R. destruct (D' R) as (D1 & D2 & _). now split.
    + pose proof (gameLoop_sent_range me (players a) now (world a)) as S.
      cbv zeta in S.
      pose proof (gameLoop_camera me (players a) now (world a)) as Cam.
      split; [|split; [|split]].
      * destruct S as [->|(q & cur & -> & G & X1 & Y1 & X2 & Y2)]; [exact A|].
        apply Forall_app. split; [exact A|]. constructor; [|constructor].
        split.
        -- destruct (Number_isNaN (Position.x (Player.position cur))) eqn:N;
             [left; now apply X2 | apply withinOrNaN_world; now apply X1].
        -- destruct (Number_isNaN (Position.y (Player.position cur))) eqn:N;
             [left; now apply Y2 | apply withinOrNaN_world; now apply Y1].
      * destruct S as [->|(q & cur & -> & _)]; [lia|].
        rewrite length_app. simpl. lia.
      * unfold cameraClampedOrNaN.
        destruct Cam as [->|(cur & G & ->)]; [exact C|].
        eexists _, _. split; [reflexivity|].
        split; apply camera_source_cases.
      * intro R. destruct (D' R) as (D1 & D2 & P). split.
        -- destruct S as [->|(q & cur & -> & G & X1 & Y1 & _)]; [exact D1|].
           apply Forall_app. split; [exact D1|]. constructor; [|constructor].
           destruct (P me cur) as [Px Py]; [now apply get_In|].
           split; [now apply X1 | now apply Y1].
        -- unfold cameraInRange.
           destruct Cam as [->|(cur & G & ->)]; [exact D2|].
           destruct (P me cur) as [Px Py]; [now apply get_In|].
           eexists _, _. split; [reflexivity|].
           split; now apply camera_source_cases.
Qed.

(** X17 on a run where the local player, at (450, 450), holds "d" for a
    tenth of a second. *)
Lemma loop_outputs_stay_in_range_witness :
  Forall inWorld
    (sent (world (run "a11ce" 0 (onlineLocalEvents ++ [Frame 100])))) /\
  cameraInRange (world (run "a11ce" 0 (onlineLocalEvents ++ [Frame 100]))).
Proof.
  pose proof (loop_outputs_stay_in_range "a11ce" 0
                (onlineLocalEvents ++ [Frame 100])) as H.
  cbv zeta in H. destruct H as (_ & _ & _ & H). apply H.
  intros n I. unfold onlineLocalEvents in I. cbn in I.
  destruct I as [E|[E|[E|[E|[]]]]]; try discriminate E.
  injection E as <-. split; reflexivity.
Defined.

(* ================================================================= *)
(** ** The score on display *)

(** X18: the score on display follows the local player's row: after an
    insert or update of a row with the local identity it is that row's
    score, after its delete it is 0, and a notification whose rows all
    belong to other players leaves it as it was. *)
Theorem score_follows_local_row (me : string)
  (prev : JsMap.t string Player.t) :
  (forall oldPlayer player,
      Player.identity player = me ->
      scoreShown me (usePlayer.onInsert player prev) = Player.score player /\
      scoreShown me (usePlayer.onUpdate oldPlayer player prev)
      = Player.score player) /\
  (forall player,
      Player.identity player = me ->
      scoreShown me (usePlayer.onDelete player prev) = 0%Z) /\
  (forall n,
      (forall row, In row (rowsOf n) -> Player.identity row <> me) ->
      scoreShown me (notifyPlayer prev n) = scoreShown me prev).
Proof.
  unfold scoreShown, usePlayer.onInsert, usePlayer.onUpdate, usePlayer.onDelete.
  split; [|split].
  - intros o p <-. now rewrite !get_set_eq.
  - intros p <-. now rewrite get_delete_eq.
  - intros n H. destruct n as [p|o p|p]; simpl in H |- *;
      unfold usePlayer.onInsert, usePlayer.onUpdate, usePlayer.onDelete.
    + rewrite get_set_neq; [reflexivity|]. intro E. apply (H p); auto.
    + rewrite get_set_neq, get_delete_neq; [reflexivity | |].
      * intro E. apply (H o); auto.
      * intro E. apply (H p); auto.
    + rewrite get_delete_neq; [reflexivity|]. intro E. apply (H p); auto.
Qed.

Lemma score_follows_local_row_witness :
  scoreShown "b0b" (usePlayer.onInsert bob []) = 3%Z /\
  scoreShown "b0b" (notifyPlayer [("b0b"%string, bob)] (Update alice aliceGrown))
  = 3%Z.
Proof.
  split.
  - destruct (score_follows_local_row "b0b" []) as (A & _).
    apply (A bob bob). reflexivity.
  - destruct (score_follows_local_row "b0b" [("b0b"%string, bob)]) as (_ & _ & C).
    rewrite C; [reflexivity|].
    intros row [<-|[<-|[]]]; discriminate.
Defined.

(* ================================================================= *)
(** ** The background grid *)

Close Scope number_scope.

Lemma ticksFrom_bounds (fuel : nat) (i hi step t : Q) :
  0 <= step -> In t (ticksFrom fuel i hi step) -> i <= t /\ t <= hi.
Proof.
  intro P. revert i. induction fuel as [|fuel IH]; intros i I; [destruct I|].
  cbn [ticksFrom] in I. destruct (Qle_bool i hi) eqn:L; [|destruct I].
  apply Qle_bool_iff in L. destruct I as [<-|I].
  - split; [apply Qle_refl | assumption].
  - destruct (IH _ I) as [A B]. split; [lra | assumption].
Qed.

Lemma ticksFrom_enough (fuel : nat) (i hi step : Q) :
  0 < step -> hi < i + inject_Z (Z.of_nat fuel) * step ->
  ticksFrom (Datatypes.S fuel) i hi step = ticksFrom fuel i hi step.
Proof.
  intro P. revert i. induction fuel as [|fuel IH]; intros i H.
  - cbn [ticksFrom]. destruct (Qle_bool i hi) eqn:L; [|reflexivity].
    apply Qle_bool_iff in L. change (inject_Z (Z.of_nat 0)) with 0 in H. lra.
  - change (ticksFrom (Datatypes.S (Datatypes.S fuel)) i hi step)
      with (if Qle_bool i hi
            then i :: ticksFrom (Datatypes.S fuel) (i + step) hi step
            else []).
    change (ticksFrom (Datatypes.S fuel) i hi step)
      with (if Qle_bool i hi
            then i :: ticksFrom fuel (i + step) hi step
            else []).
    destruct (Qle_bool i hi); [|reflexivity]. f_equal. apply IH.
    rewrite Nat2Z.inj_succ in H. unfold Z.succ in H.
    rewrite inject_Z_plus in H. change (inject_Z 1) with 1 in H.
    set (n := inject_Z (Z.of_nat fuel)) in *.
    setoid_replace ((n + 1) * step) with (step + n * step) in H by ring.
    lra.
Qed.

Lemma half_bounds (gridSize : Q) :
  0 <= gridSize -> - gridSize / 2 <= gridSize / 2.
Proof.
  intro P. unfold Qdiv. setoid_replace (/ 2) with (1 # 2) by reflexivity. lra.
Qed.

(** X19: for a grid size that is not negative and a positive step, every
    point the two loops of the scene effect push lies in the square of that
    size about the origin, one unit behind the players; there are four
    points for every value the loop variable takes; the first value is
    [-gridSize / 2]; and once the step times the number of rounds exceeds
    the grid size the loops have ended, so more rounds add nothing. *)
Theorem grid_points_on_plane (fuel : nat) (gridSize gridStep : Q) :
  0 <= gridSize -> 0 < gridStep ->
  let ticks := ticksFrom fuel (- gridSize / 2) (gridSize / 2) gridStep in
  (forall pt, In pt (gridPoints fuel gridSize gridStep) ->
              onGridPlane gridSize pt) /\
  List.length (gridPoints fuel gridSize gridStep) = (4 * List.length ticks)%nat /\
  ((0 < fuel)%nat -> exists rest, ticks = (- gridSize / 2) :: rest) /\
  (gridSize < inject_Z (Z.of_nat fuel) * gridStep ->
   gridPoints (Datatypes.S fuel) gridSize gridStep
   = gridPoints fuel gridSize gridStep).
Proof.
  intros Ps Pt. cbv zeta. pose proof (half_bounds gridSize Ps) as Hb.
  split; [|split; [|split]].
  - intros pt I. unfold gridPoints in I. apply in_app_iff in I.
    destruct I as [I|I]; apply in_flat_map in I; destruct I as (i & Ii & I);
      apply ticksFrom_bounds in Ii; try lra;
      destruct I as [<-|[<-|[]]]; unfold onGridPlane; simpl;
      intuition (try apply Qle_refl; try assumption).
  - unfold gridPoints. rewrite length_app.
    induction (ticksFrom fuel (- gridSize / 2) (gridSize / 2) gridStep)
      as [|i l IH]; [reflexivity|].
    cbn [flat_map List.length app] in *. lia.
  - intro F. destruct fuel as [|fuel]; [lia|]. cbn [ticksFrom].
    apply Qle_bool_iff in Hb. rewrite Hb. eexists. reflexivity.
  - intro E. unfold gridPoints. rewrite ticksFrom_enough; [reflexivity | assumption|].
    revert E. unfold Qdiv. setoid_replace (/ 2) with (1 # 2) by reflexivity.
    intro E. lra.
Qed.

Lemma grid_points_on_plane_witness :
  List.length (gridPoints 21 WORLD_SIZE 50) = 84%nat /\
  gridPoints 22 WORLD_SIZE 50 = gridPoints 21 WORLD_SIZE 50 /\
  Forall (onGridPlane WORLD_SIZE) (gridPoints 21 WORLD_SIZE 50).
Proof.
  destruct (grid_points_on_plane 21 WORLD_SIZE 50) as (A & B & _ & D).
  - vm_compute. discriminate.
  - vm_compute. reflexivity.
  - split; [vm_compute; reflexivity|]. split.
    + apply D. vm_compute. reflexivity.
    + apply Forall_forall. exact A.
Defined.
